(** * AVI MJPEG converter: field transform, codec adapters and pipelines

    A shallow embedding of [source/blender/io/avi/intern/avi_mjpeg.cc].

    The C integer types are modelled on [Z] with their wrap-around written
    out (LP64: [int] and [uint] are 32 bits wide, [long] and [size_t] 64).
    Pixel buffers are byte lists; an access outside a buffer is undefined in
    C and is reported here as [None].  The still-image codec (libjpeg) is
    not part of the sources: the pipelines are parametrised by what the
    codec asks of the memory adapters, and record the calls made to it. *)

From Stdlib Require Import ZArith Lia.
From Stdlib Require Import Strings.Byte.
From stdpp Require Import base option list functions.

Open Scope Z_scope.

(** ** Machine integers *)

Module C.

Definition INT_MAX : Z := 2147483647.
Definition LONG_MAX : Z := 9223372036854775807.
Definition LONG_MIN : Z := -9223372036854775808.
Definition SIZE_MAX : Z := 18446744073709551615.

(** Conversion of a mathematical integer to the value an object of the
    given C type holds. *)
Definition to_size_t (z : Z) : Z := z mod 2 ^ 64.
Definition to_uint (z : Z) : Z := z mod 2 ^ 32.
Definition to_int (z : Z) : Z := (z + 2 ^ 31) mod 2 ^ 32 - 2 ^ 31.
Definition to_long (z : Z) : Z := (z + 2 ^ 63) mod 2 ^ 64 - 2 ^ 63.

End C.

Import C.

(** ** Pixel buffers and [memcpy] *)

Abbreviation buffer := (list byte).

Definition buflen (b : buffer) : Z := Z.of_nat (length b).

(** [to] with the [n] bytes at offset [d] replaced by the [n] bytes of
    [from] at offset [s]. *)
Definition splice (to : buffer) (d : nat) (from : buffer) (s n : nat)
  : buffer :=
  take d to ++ take n (drop s from) ++ drop (d + n) to.

(** [memcpy(&to[d], &from[s], n)] for two distinct objects [to] and [from]:
    the new contents of [to], or [None] when either range leaves its
    object. *)
Definition memcpy (to : buffer) (d : Z) (from : buffer) (s : Z) (n : Z)
  : option buffer :=
  if (0 <=? d) && (0 <=? s) && (0 <=? n)
     && (d + n <=? buflen to) && (s + n <=? buflen from)
  then Some (splice to (Z.to_nat d) from (Z.to_nat s) (Z.to_nat n))
  else None.

(** Row [r] of a buffer whose rows are [stride] bytes long. *)
Definition row (b : buffer) (stride r : Z) : list byte :=
  take (Z.to_nat stride) (drop (Z.to_nat (r * stride)) b).

(** The same with natural numbers. *)
Definition rown (S : nat) (b : buffer) (r : nat) : list byte :=
  take S (drop (r * S) b).

(** ** Field transform *)

(** [size_t rowstride = width * 3]: the product is computed in [int]. *)
Definition rowstride_of (width : Z) : Z := to_size_t (to_int (width * 3)).

(** [i / 2 + height / 2] with [i] a [size_t] and [height] an [int]: the
    quotient of [height] is converted to [size_t] for the sum. *)
Definition second_field_row (height i : Z) : Z :=
  to_size_t (i / 2 + to_size_t (height ÷ 2)).

(** Body of the loop of [interlace] at index [i]. *)
Definition interlace_row (to from : buffer) (rowstride height i : Z)
  : option buffer :=
  if negb (Z.land i 1 =? 0) then
    memcpy to (to_size_t (i * rowstride))
           from (to_size_t (second_field_row height i * rowstride))
           rowstride
  else
    memcpy to (to_size_t (i * rowstride))
           from (to_size_t ((i / 2) * rowstride))
           rowstride.

(** [n] iterations of the loop of [interlace], starting at index [i]. *)
Fixpoint interlace_loop (n : nat) (i : Z) (to from : buffer)
    (rowstride height : Z) : option buffer :=
  match n with
  | O => Some to
  | S n' =>
      match interlace_row to from rowstride height i with
      | Some to' => interlace_loop n' (i + 1) to' from rowstride height
      | None => None
      end
  end.

(** [for (i = 0; i < height; i++)] with [i] a [size_t]: [height] is
    converted to [size_t] for the comparison. *)
Definition interlace (to from : buffer) (width height : Z) : option buffer :=
  interlace_loop (Z.to_nat (to_size_t height)) 0 to from
                 (rowstride_of width) height.

(** Body of the loop of [deinterlace] at index [i]. *)
Definition deinterlace_row (odd : Z) (to from : buffer)
    (rowstride height i : Z) : option buffer :=
  if Z.land i 1 =? to_size_t odd then
    memcpy to (to_size_t (second_field_row height i * rowstride))
           from (to_size_t (i * rowstride))
           rowstride
  else
    memcpy to (to_size_t ((i / 2) * rowstride))
           from (to_size_t (i * rowstride))
           rowstride.

Fixpoint deinterlace_loop (n : nat) (i : Z) (odd : Z) (to from : buffer)
    (rowstride height : Z) : option buffer :=
  match n with
  | O => Some to
  | S n' =>
      match deinterlace_row odd to from rowstride height i with
      | Some to' => deinterlace_loop n' (i + 1) odd to' from rowstride height
      | None => None
      end
  end.

Definition deinterlace (odd : Z) (to from : buffer) (width height : Z)
  : option buffer :=
  deinterlace_loop (Z.to_nat (to_size_t height)) 0 odd to from
                   (rowstride_of width) height.

(** The output row the loop of [deinterlace] targets at index [i], and the
    input row the loop of [interlace] reads at index [i], as row numbers. *)
Definition deinterlace_target (odd height i : Z) : Z :=
  if i mod 2 =? odd then i / 2 + height / 2 else i / 2.

Definition interlace_origin (height i : Z) : Z :=
  if i mod 2 =? 1 then i / 2 + height / 2 else i / 2.

(** ** libjpeg, as far as this file uses it *)

(** Message codes ([jerror.h]) and the two ways the error manager is told
    of a problem: [WARNMS] reports a warning and returns to the caller,
    [ERREXIT] reports a fatal error and does not return. *)
Inductive J_MESSAGE_CODE := JWRN_JPEG_EOF.

Inductive jpeg_report :=
| Report_warning (code : J_MESSAGE_CODE)
| Report_fatal (code : J_MESSAGE_CODE).

Inductive J_COLOR_SPACE := JCS_RGB | JCS_YCbCr.
Inductive J_DCT_METHOD := JDCT_IFAST.

(** Marker codes ([jpeglib.h]). *)
Definition JPEG_EOI : Z := 217.   (* 0xD9 *)
Definition JPEG_APP0 : Z := 224.  (* 0xE0 *)
Definition JPEG_COM : Z := 254.   (* 0xFE *)

(** Conversion to [unsigned char] ([JOCTET], [uchar]). *)
Definition to_uchar (z : Z) : byte :=
  match Byte.of_N (Z.to_N (z mod 256)) with
  | Some b => b
  | None => x00
  end.

(** Fields of [jpeg_compress_struct] that [Compress_JPEG] assigns. *)
Inductive cinfo_field :=
| image_width
| image_height
| input_components
| dc_huff_tbl_sent_table (n : Z)
| ac_huff_tbl_sent_table (n : Z)
| comp_info_component_id (n : Z)
| comp_info_v_samp_factor (n : Z)
| write_JFIF_header.

(** The trace: the calls made into the codec with the arguments that
    matter, the fields of the codec's structures assigned directly, each
    adapter as it is built and torn down (with what it was built over, and
    with the bytes left and the counter after the teardown), and each entry
    into [Compress_JPEG]; in the order it happens.  A pointer is the byte
    offset from the start of the object it points into. *)
Inductive event :=
| Call_std_error
| Call_create_decompress
| Build_source (buffer bufsize : Z)
| Call_read_header (require_image : bool)
| Install_std_huff_tables
| Set_out_color_space (cs : J_COLOR_SPACE)
| Set_dct_method (m : J_DCT_METHOD)
| Call_start_decompress
| Call_read_scanlines (scanlines max_lines : Z)
| Call_finish_decompress
| Term_source (remaining counter : Z)
| Call_destroy_decompress
| Enter_Compress_JPEG (quality outbuffer inBuffer width height bufsize : Z)
| Call_create_compress
| Build_destination (buffer bufsize : Z)
| Set_field (f : cinfo_field) (v : Z)
| Set_in_color_space (cs : J_COLOR_SPACE)
| Call_set_defaults
| Call_set_colorspace (cs : J_COLOR_SPACE)
| Call_set_quality (quality : Z) (force_baseline : bool)
| Call_start_compress (write_all_tables : bool)
| Call_write_marker (marker : Z) (data : list byte)
| Call_write_scanlines (scanlines num_lines : Z)
| Call_finish_compress
| Term_destination (remaining counter : Z)
| Call_destroy_compress.

Record jpeg_source_mgr := {
  next_input_byte : Z;
  bytes_in_buffer : Z
}.

Record jpeg_destination_mgr := {
  next_output_byte : Z;
  free_in_buffer : Z
}.

(** The state the adapters and pipelines work on: the file's static
    counter, the memory behind the source pointer (addressed relative to
    the first byte of the frame's compressed buffer; the handlers get a
    bare pointer and no bounds), the two managers, the error manager's
    reports and the trace of events. *)
Record state := {
  numbytes : Z;
  input : Z → byte;
  src : jpeg_source_mgr;
  dest : jpeg_destination_mgr;
  reports : list jpeg_report;
  trace : list event
}.

Definition set_numbytes (n : Z) (st : state) : state :=
  {| numbytes := n; input := input st; src := src st; dest := dest st;
     reports := reports st; trace := trace st |}.

Definition set_input (m : Z → byte) (st : state) : state :=
  {| numbytes := numbytes st; input := m; src := src st; dest := dest st;
     reports := reports st; trace := trace st |}.

Definition set_src (s : jpeg_source_mgr) (st : state) : state :=
  {| numbytes := numbytes st; input := input st; src := s; dest := dest st;
     reports := reports st; trace := trace st |}.

Definition set_dest (d : jpeg_destination_mgr) (st : state) : state :=
  {| numbytes := numbytes st; input := input st; src := src st; dest := d;
     reports := reports st; trace := trace st |}.

Definition report (r : jpeg_report) (st : state) : state :=
  {| numbytes := numbytes st; input := input st; src := src st;
     dest := dest st; reports := reports st ++ [r]; trace := trace st |}.

Definition emit (e : event) (st : state) : state :=
  {| numbytes := numbytes st; input := input st; src := src st;
     dest := dest st; reports := reports st; trace := trace st ++ [e] |}.

(** Modelled from the spec: [WARNMS(dinfo, code)] ([jerror.h] is not among
    the sources) reports a recoverable warning to the error manager and
    returns. *)
Definition WARNMS (code : J_MESSAGE_CODE) (st : state) : state :=
  report (Report_warning code) st.

(** ** Compression to memory *)

Definition jpegmemdestmgr_init_destination (st : state) : state := st.

Definition jpegmemdestmgr_empty_output_buffer (st : state) : state * bool :=
  (st, true).

(** [MEM_freeN] releases the manager itself; its last values stay in the
    state and are not read again before the next build. *)
Definition jpegmemdestmgr_term_destination (st : state) : state :=
  let st := set_numbytes (to_size_t (numbytes st - free_in_buffer (dest st))) st in
  emit (Term_destination (free_in_buffer (dest st)) (numbytes st)) st.

Definition jpegmemdestmgr_build (buffer bufsize : Z) (st : state) : state :=
  let st := set_dest {| next_output_byte := buffer;
                        free_in_buffer := bufsize |} st in
  let st := set_numbytes bufsize st in
  emit (Build_destination buffer bufsize) st.

(** ** Decompression from memory *)

Definition jpegmemsrcmgr_init_source (st : state) : state := st.

Definition jpegmemsrcmgr_fill_input_buffer (st : state) : state * bool :=
  let buf := next_input_byte (src st) - 2 in
  (* if we get called, must have run out of data *)
  let st := WARNMS JWRN_JPEG_EOF st in
  let st := set_input (<[buf := to_uchar 255]> (input st)) st in
  let st := set_input (<[buf + 1 := to_uchar JPEG_EOI]> (input st)) st in
  let st := set_src {| next_input_byte := buf; bytes_in_buffer := 2 |} st in
  (st, true).

(** [bytes_in_buffer < skip_count] compares a [size_t] with a [long]: the
    [long] is converted to [size_t]. *)
Definition jpegmemsrcmgr_skip_input_data (skip_count : Z) (st : state)
  : state :=
  let skip_count :=
    if bytes_in_buffer (src st) <? to_size_t skip_count
    then to_long (bytes_in_buffer (src st))
    else skip_count in
  set_src {| next_input_byte := next_input_byte (src st) + skip_count;
             bytes_in_buffer :=
               to_size_t (bytes_in_buffer (src st) - skip_count) |} st.

Definition jpegmemsrcmgr_term_source (st : state) : state :=
  let st := set_numbytes (to_size_t (numbytes st - bytes_in_buffer (src st))) st in
  emit (Term_source (bytes_in_buffer (src st)) (numbytes st)) st.

Definition jpegmemsrcmgr_build (buffer bufsize : Z) (st : state) : state :=
  let st := set_src {| next_input_byte := buffer;
                       bytes_in_buffer := bufsize |} st in
  let st := set_numbytes bufsize st in
  emit (Build_source buffer bufsize) st.

(** ** The codec's side of the adapter contract *)

(** What the decoder may ask of its source manager: take [n] buffered
    bytes (it moves [next_input_byte] and [bytes_in_buffer] itself), call
    [fill_input_buffer], or call [skip_input_data]. *)
Inductive src_request :=
| Src_take (n : Z)
| Src_fill
| Src_skip (num_bytes : Z).

Definition src_step (st : state) (r : src_request) : state :=
  match r with
  | Src_take n =>
      set_src {| next_input_byte := next_input_byte (src st) + n;
                 bytes_in_buffer := to_size_t (bytes_in_buffer (src st) - n) |} st
  | Src_fill => fst (jpegmemsrcmgr_fill_input_buffer st)
  | Src_skip n => jpegmemsrcmgr_skip_input_data n st
  end.

Definition src_run (rs : list src_request) (st : state) : state :=
  fold_left src_step rs st.

(** What the encoder may ask of its destination manager: put [n] bytes (it
    moves [next_output_byte] and [free_in_buffer] itself) or call
    [empty_output_buffer]. *)
Inductive dest_request :=
| Dest_put (n : Z)
| Dest_empty.

Definition dest_step (st : state) (r : dest_request) : state :=
  match r with
  | Dest_put n =>
      set_dest {| next_output_byte := next_output_byte (dest st) + n;
                  free_in_buffer := to_size_t (free_in_buffer (dest st) - n) |} st
  | Dest_empty => fst (jpegmemdestmgr_empty_output_buffer st)
  end.

Definition dest_run (rs : list dest_request) (st : state) : state :=
  fold_left dest_step rs st.

(** The codec's behaviour on one embedded stream, call by call: the
    requests it makes and the header values it reports. *)
Record decode_pass := {
  dec_header : list src_request;
  dec_has_tables : bool;            (* dc_huff_tbl_ptrs[0] != nullptr *)
  dec_start : list src_request;
  dec_output_width : Z;
  dec_output_components : Z;
  dec_output_height : Z;
  dec_scanline : Z → list src_request;
  dec_finish : list src_request
}.

(** The codec's behaviour while one stream is compressed; [enc_stack] is
    what the uninitialised [marker] array holds on entry. *)
Record encode_pass := {
  enc_stack : Z → byte;
  enc_start : list dest_request;
  enc_marker_app : list dest_request;
  enc_marker_com : list dest_request;
  enc_scanline : Z → list dest_request;
  enc_finish : list dest_request
}.

(** [jpeg_finish_decompress] and [jpeg_finish_compress] call the manager's
    [term_source] / [term_destination] once the codec is done. *)
Definition jpeg_read_header (p : decode_pass) (st : state) : state :=
  src_run (dec_header p)
          (jpegmemsrcmgr_init_source (emit (Call_read_header true) st)).

Definition jpeg_start_decompress (p : decode_pass) (st : state) : state :=
  src_run (dec_start p) (emit Call_start_decompress st).

Definition jpeg_read_scanlines (p : decode_pass) (y scanlines : Z)
    (st : state) : state :=
  src_run (dec_scanline p y) (emit (Call_read_scanlines scanlines 1) st).

Definition jpeg_finish_decompress (p : decode_pass) (st : state) : state :=
  jpegmemsrcmgr_term_source
    (src_run (dec_finish p) (emit Call_finish_decompress st)).

Definition jpeg_start_compress (p : encode_pass) (write_all_tables : bool)
    (st : state) : state :=
  dest_run (enc_start p)
           (jpegmemdestmgr_init_destination
              (emit (Call_start_compress write_all_tables) st)).

Definition jpeg_write_marker (rs : list dest_request) (marker : Z)
    (dataptr : Z → byte) (datalen : Z) (st : state) : state :=
  dest_run rs
    (emit (Call_write_marker marker
             (map dataptr (seqZ 0 datalen))) st).

Definition jpeg_write_scanlines (p : encode_pass) (y scanlines : Z)
    (st : state) : state :=
  dest_run (enc_scanline p y) (emit (Call_write_scanlines scanlines 1) st).

Definition jpeg_finish_compress (p : encode_pass) (st : state) : state :=
  jpegmemdestmgr_term_destination
    (dest_run (enc_finish p) (emit Call_finish_compress st)).

(** ** Decode pipeline *)

(** The tables themselves play no part below: installing them is recorded
    as one event. *)
Definition std_huff_tables (st : state) : state :=
  emit Install_std_huff_tables st.

(** [n] iterations of
    [for (y ...) { jpeg_read_scanlines(&dinfo, &outBuffer, 1); outBuffer += rowstride; }]
    starting at [y]. *)
Fixpoint read_rows (n : nat) (y : Z) (p : decode_pass) (rowstride : Z)
    (outBuffer : Z) (st : state) : Z * state :=
  match n with
  | O => (outBuffer, st)
  | S n' =>
      let st := jpeg_read_scanlines p y outBuffer st in
      let outBuffer := outBuffer + rowstride in
      read_rows n' (y + 1) p rowstride outBuffer st
  end.

(** Returns the result, the final value of [outBuffer] and the state. *)
Definition Decode_JPEG (pass1 pass2 : decode_pass)
    (inBuffer outBuffer width height bufsize : Z) (st : state)
  : Z * Z * state :=
  let st := set_numbytes 0 st in
  let st := emit Call_std_error st in
  let st := emit Call_create_decompress st in
  let st := jpegmemsrcmgr_build inBuffer bufsize st in
  let st := jpeg_read_header pass1 st in
  let st := if dec_has_tables pass1 then st else std_huff_tables st in
  let st := emit (Set_out_color_space JCS_RGB) st in
  let st := emit (Set_dct_method JDCT_IFAST) st in
  let st := jpeg_start_decompress pass1 st in
  let rowstride :=
    to_size_t (to_uint (dec_output_width pass1 * dec_output_components pass1)) in
  let '(outBuffer, st) :=
    read_rows (Z.to_nat (to_size_t (dec_output_height pass1))) 0 pass1
              rowstride outBuffer st in
  let st := jpeg_finish_decompress pass1 st in
  if dec_output_height pass1 >=? height then (0, outBuffer, st)
  else
    let inBuffer := inBuffer + numbytes st in
    let st := jpegmemsrcmgr_build inBuffer (to_size_t (bufsize - numbytes st)) st in
    let st := set_numbytes 0 st in
    let st := jpeg_read_header pass2 st in
    let st := if dec_has_tables pass2 then st else std_huff_tables st in
    let st := jpeg_start_decompress pass2 st in
    let rowstride :=
      to_size_t (to_uint (dec_output_width pass2 * dec_output_components pass2)) in
    let '(outBuffer, st) :=
      read_rows (Z.to_nat (to_size_t (dec_output_height pass2))) 0 pass2
                rowstride outBuffer st in
    let st := jpeg_finish_decompress pass2 st in
    let st := emit Call_destroy_decompress st in
    (1, outBuffer, st).

(** ** Encode pipeline *)

(** [while (i < 60) { marker[i++] = v; }]; the loop runs at most 60 times
    from a non-negative [i]. *)
Fixpoint fill_marker (fuel : nat) (i : Z) (v : byte) (marker : Z → byte)
  : (Z → byte) * Z :=
  match fuel with
  | O => (marker, i)
  | S fuel' =>
      if i <? 60 then fill_marker fuel' (i + 1) v (<[i := v]> marker)
      else (marker, i)
  end.

(** [n] iterations of
    [for (y ...) { jpeg_write_scanlines(&cinfo, &inBuffer, 1); inBuffer += rowstride; }]
    starting at [y]. *)
Fixpoint write_rows (n : nat) (y : Z) (p : encode_pass) (rowstride : Z)
    (inBuffer : Z) (st : state) : Z * state :=
  match n with
  | O => (inBuffer, st)
  | S n' =>
      let st := jpeg_write_scanlines p y inBuffer st in
      let inBuffer := inBuffer + rowstride in
      write_rows n' (y + 1) p rowstride inBuffer st
  end.

Definition Compress_JPEG (p : encode_pass)
    (quality outbuffer inBuffer width height bufsize : Z) (st : state)
  : state :=
  let st := emit (Enter_Compress_JPEG quality outbuffer inBuffer
                                      width height bufsize) st in
  let marker := enc_stack p in
  let st := emit Call_std_error st in
  let st := emit Call_create_compress st in
  let st := jpegmemdestmgr_build outbuffer bufsize st in
  let st := emit (Set_field image_width (to_uint width)) st in
  let st := emit (Set_field image_height (to_uint height)) st in
  let st := emit (Set_field input_components 3) st in
  let st := emit (Set_in_color_space JCS_RGB) st in
  let st := emit Call_set_defaults st in
  let st := emit (Call_set_colorspace JCS_YCbCr) st in
  let st := emit (Call_set_quality quality true) st in
  let st := emit (Set_field (dc_huff_tbl_sent_table 0) 1) st in
  let st := emit (Set_field (dc_huff_tbl_sent_table 1) 1) st in
  let st := emit (Set_field (ac_huff_tbl_sent_table 0) 1) st in
  let st := emit (Set_field (ac_huff_tbl_sent_table 1) 1) st in
  let st := emit (Set_field (comp_info_component_id 0) 0) st in
  let st := emit (Set_field (comp_info_v_samp_factor 0) 1) st in
  let st := emit (Set_field (comp_info_component_id 1) 1) st in
  let st := emit (Set_field (comp_info_component_id 2) 2) st in
  let st := emit (Set_field write_JFIF_header 0) st in
  let st := jpeg_start_compress p false st in
  let i := 0 in
  let marker := <[i := "A"%byte]> marker in
  let i := i + 1 in
  let marker := <[i := "V"%byte]> marker in
  let i := i + 1 in
  let marker := <[i := "I"%byte]> marker in
  let i := i + 1 in
  let marker := <[i := "1"%byte]> marker in
  let i := i + 1 in
  let marker := <[i := to_uchar 0]> marker in
  let i := i + 1 in
  let '(marker, i) := fill_marker 60 i (to_uchar 32) marker in
  let st := jpeg_write_marker (enc_marker_app p) JPEG_APP0 marker 60 st in
  let i := 0 in
  let '(marker, i) := fill_marker 60 i (to_uchar 0) marker in
  let st := jpeg_write_marker (enc_marker_com p) JPEG_COM marker 60 st in
  let rowstride := to_size_t (to_uint (to_uint width * 3)) in
  let '(inBuffer, st) :=
    write_rows (Z.to_nat (to_size_t (to_uint height))) 0 p rowstride
               inBuffer st in
  let st := jpeg_finish_compress p st in
  emit Call_destroy_compress st.

(** All requests of one compression of [rows] rows, in the order
    [Compress_JPEG] lets the codec make them: at [jpeg_start_compress], at
    the two [jpeg_write_marker] calls, at each [jpeg_write_scanlines] and
    at [jpeg_finish_compress]. *)
Definition encode_requests (p : encode_pass) (rows : Z) : list dest_request :=
  enc_start p ++ enc_marker_app p ++ enc_marker_com p
  ++ concat (map (enc_scanline p) (seqZ 0 rows)) ++ enc_finish p.

(** The codec stores the [n] bytes of a [Dest_put n] at the cursor
    [next_output_byte] and moves the cursor past them.  With the cursor at
    offset [cursor] of a block of [block] bytes, whether every byte the
    requests store lies in the block. *)
Fixpoint puts_within (block cursor : Z) (rs : list dest_request) : bool :=
  match rs with
  | [] => true
  | Dest_put n :: rs =>
      (0 <=? cursor) && (0 <=? n) && (cursor + n <=? block)
      && puts_within block (cursor + n) rs
  | Dest_empty :: rs => puts_within block cursor rs
  end.

(** Whether everything the codec stores during
    [Compress_JPEG p _ outbuffer _ _ height _] lies in a block of [block]
    bytes, [outbuffer] being an offset into that block. *)
Definition stored_within (block : Z) (p : encode_pass)
    (outbuffer height : Z) : bool :=
  puts_within block outbuffer (encode_requests p (to_size_t (to_uint height))).

(** ** Encode entry point *)

Module Movie.

(** Modelled from the spec: the movie stream descriptor ([AVI_avi.h] is
    not among the sources), which exposes frame width, frame height,
    compression quality, interlace flag and odd-first-field flag; all are
    [int] fields.  [Quality] stands for [streams[stream].sh.Quality]. *)
Record AviMovie := {
  Width : Z;
  Height : Z;
  Quality : Z;
  interlace : Z;
  odd_fields : Z
}.

End Movie.

(** Modelled from the spec: the pixel-buffer allocator ([IMB_imbuf.hh] is
    not among the sources) returns a zero-filled buffer of
    [x * y * channels] bytes, or null when the allocation fails ([ok]
    tells which). *)
Definition imb_alloc_pixels (ok : bool) (x y channels : Z) : option buffer :=
  if ok then Some (replicate (Z.to_nat (x * y * channels)) x00) else None.

(** What the entry point leaves behind: whether the returned pointer is
    non-null, the value stored through [size], the pixel rows handed to
    the codec, the state, and whether every byte the codec stored lies in
    the output block the entry point allocated.  When [in_block] is false
    the run has written past that block, and the other fields tell only
    which calls were made and with which arguments. *)
Record encoded := {
  returned : bool;
  size_out : Z;
  pixels : buffer;
  final : state;
  in_block : bool
}.

(** [alloc1] and [alloc2] tell whether the first and the second call of
    [imb_alloc_pixels] succeed.  The output block is the
    [Height * Width * 3] bytes of [buf], at offset 0 of which the first
    compression starts, while the capacity given to the destination
    manager is [bufsize] (or [bufsize / 2]), the caller's [*size].  The
    values of the bytes the codec puts are the codec's and are not
    modelled; where it puts them is, in [in_block].  The result is [None]
    when [deinterlace] leaves its buffers. *)
Definition avi_converter_to_mjpeg (alloc1 alloc2 : bool)
    (pass1 pass2 : encode_pass) (movie : Movie.AviMovie)
    (buffer : buffer) (size : Z) (st : state) : option encoded :=
  let bufsize := size in
  let st := set_numbytes 0 st in
  let size := 0 in
  match imb_alloc_pixels alloc1 (Movie.Height movie) (Movie.Width movie) 3 with
  | None =>
      Some {| returned := false; size_out := size; pixels := buffer;
              final := st; in_block := true |}
  | Some buf =>
      if Movie.interlace movie =? 0 then
        let st := Compress_JPEG pass1 (Movie.Quality movie ÷ 100) 0 0
                    (Movie.Width movie) (Movie.Height movie) bufsize st in
        let inside := stored_within (buflen buf) pass1 0
                                    (Movie.Height movie) in
        let size := to_size_t (size + numbytes st) in
        Some {| returned := true; size_out := size; pixels := buffer;
                final := st; in_block := inside |}
      else
        match deinterlace (Movie.odd_fields movie) buf buffer
                          (Movie.Width movie) (Movie.Height movie) with
        | None => None
        | Some buf =>
            let buffer := buf in
            match imb_alloc_pixels alloc2 (Movie.Height movie)
                                   (Movie.Width movie) 3 with
            | Some buf =>
                let st := Compress_JPEG pass1 (Movie.Quality movie ÷ 100)
                            0 0
                            (Movie.Width movie) (Movie.Height movie ÷ 2)
                            (bufsize / 2) st in
                let inside := stored_within (buflen buf) pass1 0
                                            (Movie.Height movie ÷ 2) in
                let size := to_size_t (size + numbytes st) in
                let st := set_numbytes 0 st in
                let st := Compress_JPEG pass2 (Movie.Quality movie ÷ 100)
                            (0 + size)
                            (0 + to_size_t (to_size_t (Movie.Height movie ÷ 2)
                                            * to_size_t (Movie.Width movie) * 3))
                            (Movie.Width movie) (Movie.Height movie ÷ 2)
                            (bufsize / 2) st in
                let inside := inside
                              && stored_within (buflen buf) pass2 (0 + size)
                                               (Movie.Height movie ÷ 2) in
                let size := to_size_t (size + numbytes st) in
                Some {| returned := true; size_out := size;
                        pixels := buffer; final := st; in_block := inside |}
            | None =>
                Some {| returned := false; size_out := size;
                        pixels := buffer; final := st; in_block := true |}
            end
        end
  end.

(** ** Reading a trace *)

(** The source adapters built, as (start, capacity). *)
Definition source_builds (tr : list event) : list (Z * Z) :=
  omap (λ e, match e with
             | Build_source buffer bufsize => Some (buffer, bufsize)
             | _ => None
             end) tr.

(** The source adapters torn down, as (bytes remaining, counter after). *)
Definition source_teardowns (tr : list event) : list (Z * Z) :=
  omap (λ e, match e with
             | Term_source remaining counter => Some (remaining, counter)
             | _ => None
             end) tr.

Definition destination_builds (tr : list event) : list (Z * Z) :=
  omap (λ e, match e with
             | Build_destination buffer bufsize => Some (buffer, bufsize)
             | _ => None
             end) tr.

Definition destination_teardowns (tr : list event) : list (Z * Z) :=
  omap (λ e, match e with
             | Term_destination remaining counter => Some (remaining, counter)
             | _ => None
             end) tr.


(** The invocations of [Compress_JPEG], with their arguments. *)
Definition compress_calls (tr : list event)
  : list (Z * Z * Z * Z * Z * Z) :=
  omap (λ e, match e with
             | Enter_Compress_JPEG q o i w h n => Some (q, o, i, w, h, n)
             | _ => None
             end) tr.

(** The quality values handed to the codec. *)
Definition codec_qualities (tr : list event) : list Z :=
  omap (λ e, match e with
             | Call_set_quality q _ => Some q
             | _ => None
             end) tr.

(** The row count and row stride the decode loop works with, and the
    events of one decoding pass between building the source adapter and
    finishing: [first] tells whether the pass sets the output colour space
    and the DCT method, [out] is where its first row goes. *)
Definition rows_of (p : decode_pass) : Z := to_size_t (dec_output_height p).

Definition stride_of (p : decode_pass) : Z :=
  to_size_t (to_uint (dec_output_width p * dec_output_components p)).

Definition pass_events (p : decode_pass) (first : bool) (out : Z)
  : list event :=
  [Call_read_header true]
  ++ (if dec_has_tables p then [] else [Install_std_huff_tables])
  ++ (if first then [Set_out_color_space JCS_RGB; Set_dct_method JDCT_IFAST]
      else [])
  ++ [Call_start_decompress]
  ++ map (λ k, Call_read_scanlines (out + k * stride_of p) 1)
         (seqZ 0 (rows_of p)).

(** A state in which nothing has happened yet. *)
Definition blank : state :=
  {| numbytes := 0;
     input := λ _, x00;
     src := {| next_input_byte := 0; bytes_in_buffer := 0 |};
     dest := {| next_output_byte := 0; free_in_buffer := 0 |};
     reports := [];
     trace := [] |}.

(** A codec that asks nothing of the adapters. *)
Definition idle_decoder (w c h : Z) : decode_pass :=
  {| dec_header := []; dec_has_tables := true; dec_start := [];
     dec_output_width := w; dec_output_components := c;
     dec_output_height := h; dec_scanline := λ _, []; dec_finish := [] |}.

Definition idle_encoder : encode_pass :=
  {| enc_stack := λ _, x00; enc_start := []; enc_marker_app := [];
     enc_marker_com := []; enc_scanline := λ _, []; enc_finish := [] |}.

(** A decoder of a one-row stream that takes [n] bytes while it reads the
    header, and an encoder that puts [n] bytes while it finishes. *)
Definition field_decoder (n : Z) : decode_pass :=
  {| dec_header := [Src_take n]; dec_has_tables := true; dec_start := [];
     dec_output_width := 1; dec_output_components := 3;
     dec_output_height := 1; dec_scanline := λ _, []; dec_finish := [] |}.

Definition field_encoder (n : Z) : encode_pass :=
  {| enc_stack := λ _, x00; enc_start := []; enc_marker_app := [];
     enc_marker_com := []; enc_scanline := λ _, [];
     enc_finish := [Dest_put n] |}.

(** ** Huffman-table bootstrap *)

(** What the installation of the standard tables (the event
    [Install_std_huff_tables] of the decode pipeline) does to the four
    table pointers of the decompressor. *)

Module Huffman.

(** [JHUFF_TBL] ([jpeglib.h]): [UINT8 bits[17]], [UINT8 huffval[256]] and
    the [sent_table] flag. *)
Record JHUFF_TBL := {
  bits : list byte;
  huffval : list byte;
  sent_table : bool
}.

(** The four table pointers of the decompressor that this file touches;
    [None] is a null pointer. *)
Record huff_tbl_ptrs := {
  dc_huff_tbl_ptrs_0 : option JHUFF_TBL;
  dc_huff_tbl_ptrs_1 : option JHUFF_TBL;
  ac_huff_tbl_ptrs_0 : option JHUFF_TBL;
  ac_huff_tbl_ptrs_1 : option JHUFF_TBL
}.

(** [jpeg_alloc_huff_table]: a new table whose arrays hold whatever the
    allocation holds ([garbage]) and whose [sent_table] is false. *)
Definition jpeg_alloc_huff_table (garbage : Z → byte) : JHUFF_TBL :=
  {| bits := map garbage (seqZ 0 17);
     huffval := map garbage (seqZ 17 256);
     sent_table := false |}.

(** [min_zz] ([BLI_math_base.h]) is not among the sources and is taken as
    a parameter; 17 and 256 are [sizeof] of the two arrays of a table.
    [None] when a copy leaves an array. *)
Definition add_huff_table (min_zz : Z → Z → Z) (garbage : Z → byte)
    (htblptr : option JHUFF_TBL)
    (bits : list byte) (bits_size : Z) (val : list byte) (val_size : Z)
  : option JHUFF_TBL :=
  let htbl := match htblptr with
              | None => jpeg_alloc_huff_table garbage
              | Some t => t
              end in
  match memcpy (Huffman.bits htbl) 0 bits 0
               (min_zz 17 bits_size) with
  | None => None
  | Some bits' =>
      match memcpy (huffval htbl) 0 val 0
                   (min_zz 256 val_size) with
      | None => None
      | Some huffval' =>
          (* Initialize sent_table false so table will be written to JPEG file. *)
          Some {| Huffman.bits := bits'; huffval := huffval';
                  sent_table := false |}
      end
  end.

Definition bytes_of (l : list Z) : list byte := map to_uchar l.

(* Set up the standard Huffman tables (cf. JPEG standard section K.3) *)
Definition bits_dc_luminance : list byte :=
  bytes_of [0; 0; 1; 5; 1; 1; 1; 1; 1; 1; 0; 0; 0; 0; 0; 0; 0].

Definition val_dc_luminance : list byte :=
  bytes_of [0; 1; 2; 3; 4; 5; 6; 7; 8; 9; 10; 11].

Definition bits_dc_chrominance : list byte :=
  bytes_of [0; 0; 3; 1; 1; 1; 1; 1; 1; 1; 1; 1; 0; 0; 0; 0; 0].

Definition val_dc_chrominance : list byte :=
  bytes_of [0; 1; 2; 3; 4; 5; 6; 7; 8; 9; 10; 11].

Definition bits_ac_luminance : list byte :=
  bytes_of [0; 0; 2; 1; 3; 3; 2; 4; 3; 5; 5; 4; 4; 0; 0; 1; 125].

Definition val_ac_luminance : list byte :=
  bytes_of [1; 2; 3; 0; 4; 17; 5; 18; 33; 49; 65; 6; 19; 81; 97; 7; 34;
    113; 20; 50; 129; 145; 161; 8; 35; 66; 177; 193; 21; 82; 209; 240; 36;
    51; 98; 114; 130; 9; 10; 22; 23; 24; 25; 26; 37; 38; 39; 40; 41; 42;
    52; 53; 54; 55; 56; 57; 58; 67; 68; 69; 70; 71; 72; 73; 74; 83; 84;
    85; 86; 87; 88; 89; 90; 99; 100; 101; 102; 103; 104; 105; 106; 115;
    116; 117; 118; 119; 120; 121; 122; 131; 132; 133; 134; 135; 136; 137;
    138; 146; 147; 148; 149; 150; 151; 152; 153; 154; 162; 163; 164; 165;
    166; 167; 168; 169; 170; 178; 179; 180; 181; 182; 183; 184; 185; 186;
    194; 195; 196; 197; 198; 199; 200; 201; 202; 210; 211; 212; 213; 214;
    215; 216; 217; 218; 225; 226; 227; 228; 229; 230; 231; 232; 233; 234;
    241; 242; 243; 244; 245; 246; 247; 248; 249; 250].

Definition bits_ac_chrominance : list byte :=
  bytes_of [0; 0; 2; 1; 2; 4; 4; 3; 4; 7; 5; 4; 4; 0; 1; 2; 119].

Definition val_ac_chrominance : list byte :=
  bytes_of [0; 1; 2; 3; 17; 4; 5; 33; 49; 6; 18; 65; 81; 7; 97; 113; 19;
    34; 50; 129; 8; 20; 66; 145; 161; 177; 193; 9; 35; 51; 82; 240; 21;
    98; 114; 209; 10; 22; 36; 52; 225; 37; 241; 23; 24; 25; 26; 38; 39;
    40; 41; 42; 53; 54; 55; 56; 57; 58; 67; 68; 69; 70; 71; 72; 73; 74;
    83; 84; 85; 86; 87; 88; 89; 90; 99; 100; 101; 102; 103; 104; 105; 106;
    115; 116; 117; 118; 119; 120; 121; 122; 130; 131; 132; 133; 134; 135;
    136; 137; 138; 146; 147; 148; 149; 150; 151; 152; 153; 154; 162; 163;
    164; 165; 166; 167; 168; 169; 170; 178; 179; 180; 181; 182; 183; 184;
    185; 186; 194; 195; 196; 197; 198; 199; 200; 201; 202; 210; 211; 212;
    213; 214; 215; 216; 217; 218; 226; 227; 228; 229; 230; 231; 232; 233;
    234; 242; 243; 244; 245; 246; 247; 248; 249; 250].

(** [garbage k] is what the [k]-th new table would hold. *)
Definition std_huff_tables (min_zz : Z → Z → Z) (garbage : Z → Z → byte)
    (dinfo : huff_tbl_ptrs) : option huff_tbl_ptrs :=
  match add_huff_table min_zz (garbage 0) (dc_huff_tbl_ptrs_0 dinfo)
          bits_dc_luminance (buflen bits_dc_luminance)
          val_dc_luminance (buflen val_dc_luminance) with
  | None => None
  | Some dc0 =>
  match add_huff_table min_zz (garbage 1) (ac_huff_tbl_ptrs_0 dinfo)
          bits_ac_luminance (buflen bits_ac_luminance)
          val_ac_luminance (buflen val_ac_luminance) with
  | None => None
  | Some ac0 =>
  match add_huff_table min_zz (garbage 2) (dc_huff_tbl_ptrs_1 dinfo)
          bits_dc_chrominance (buflen bits_dc_chrominance)
          val_dc_chrominance (buflen val_dc_chrominance) with
  | None => None
  | Some dc1 =>
  match add_huff_table min_zz (garbage 3) (ac_huff_tbl_ptrs_1 dinfo)
          bits_ac_chrominance (buflen bits_ac_chrominance)
          val_ac_chrominance (buflen val_ac_chrominance) with
  | None => None
  | Some ac1 =>
      Some {| dc_huff_tbl_ptrs_0 := Some dc0; dc_huff_tbl_ptrs_1 := Some dc1;
              ac_huff_tbl_ptrs_0 := Some ac0; ac_huff_tbl_ptrs_1 := Some ac1 |}
  end end end end.

(** A table as the codec requires it: 17 and 256 bytes. *)
Definition well_sized (t : JHUFF_TBL) : Prop :=
  length (Huffman.bits t) = 17%nat ∧ length (huffval t) = 256%nat.

(** The number of codes a [bits] array announces: the sum of its entries
    1 to 16. *)
Definition code_count (bits : list byte) : Z :=
  foldr (λ b acc, Z.of_N (Byte.to_N b) + acc) 0 (drop 1 bits).

(** Table [t] holds the counts [bits] and, at the start of its value
    array, the values [val], and is marked as not yet sent. *)
Definition installed (t : JHUFF_TBL) (bits val : list byte) : Prop :=
  well_sized t
  ∧ Huffman.bits t = bits
  ∧ take (length val) (huffval t) = val
  ∧ sent_table t = false.

End Huffman.

(** ** Accounting for the codec's requests *)

(** The bytes a sequence of destination requests puts. *)
Definition bytes_put (rs : list dest_request) : Z :=
  foldr (λ r acc, match r with
                  | Dest_put n => n + acc
                  | Dest_empty => acc
                  end) 0 rs.

(** All requests of one decoding pass, in the order the pipeline lets the
    codec make them. *)
Definition decode_requests (p : decode_pass) : list src_request :=
  dec_header p ++ dec_start p
  ++ concat (map (dec_scanline p) (seqZ 0 (rows_of p))) ++ dec_finish p.

(** A decoder keeps to the source contract when it takes no more than is
    buffered, calls the fill handler only with nothing buffered, and
    skips by counts that are not negative. *)
Fixpoint src_orderly (remaining : Z) (rs : list src_request) : bool :=
  match rs with
  | [] => true
  | Src_take n :: rs =>
      (0 <=? n) && (n <=? remaining) && src_orderly (remaining - n) rs
  | Src_fill :: rs => (remaining =? 0) && src_orderly 2 rs
  | Src_skip n :: rs =>
      (0 <=? n) && (n <=? LONG_MAX)
      && src_orderly (remaining - Z.min n remaining) rs
  end.

(** An encoder stays within the destination when it puts no more than is
    free. *)
Fixpoint dest_orderly (free : Z) (rs : list dest_request) : bool :=
  match rs with
  | [] => true
  | Dest_put n :: rs => (0 <=? n) && (n <=? free) && dest_orderly (free - n) rs
  | Dest_empty :: rs => dest_orderly free rs
  end.

(** Where the encoder was told to take its rows from. *)
Definition write_scanline_pointers (tr : list event) : list Z :=
  omap (λ e, match e with
             | Call_write_scanlines scanlines _ => Some scanlines
             | _ => None
             end) tr.

(** ** Decode entry point *)

(** What the row loop of [Decode_JPEG] does to the pixel buffer: call [y]
    of [jpeg_read_scanlines] stores one row of [rowstride] samples,
    [pix y], at [outBuffer] (the source never suspends, so every call
    delivers its row).  [None] when a row leaves the buffer. *)
Fixpoint store_rows (n : nat) (y : Z) (pix : Z → Z → byte)
    (rowstride outBuffer : Z) (buf : buffer) : option buffer :=
  match n with
  | O => Some buf
  | S n' =>
      match memcpy buf outBuffer (map (pix y) (seqZ 0 rowstride)) 0
                   rowstride with
      | Some buf' =>
          store_rows n' (y + 1) pix rowstride (outBuffer + rowstride) buf'
      | None => None
      end
  end.

(** The pixel buffer after [Decode_JPEG], with [outBuffer] at its start:
    the rows of the first stream and, when that reported fewer rows than
    [height], the rows of the second right after them. *)
Definition decoded_pixels (pass1 pass2 : decode_pass)
    (pix1 pix2 : Z → Z → byte) (height : Z) (buf : buffer) : option buffer :=
  match store_rows (Z.to_nat (to_size_t (dec_output_height pass1))) 0 pix1
                   (stride_of pass1) 0 buf with
  | None => None
  | Some buf =>
      if dec_output_height pass1 >=? height then Some buf
      else store_rows (Z.to_nat (to_size_t (dec_output_height pass2))) 0 pix2
                      (stride_of pass2)
                      (0 + Z.of_nat (Z.to_nat (to_size_t (dec_output_height pass1)))
                           * stride_of pass1)
                      buf
  end.

(** What the decode entry point leaves behind: the frame it returns
    ([None] for a null pointer) and the state. *)
Record decoded := {
  frame : option buffer;
  after : state
}.

(** The compressed buffer is the memory [input st] from offset 0; [size]
    is [*size].  [alloc1] and [alloc2] tell whether the two calls of
    [imb_alloc_pixels] succeed; [pix1] and [pix2] are the samples the
    codec decodes from the two streams.  The result is [None] when a
    decoded row or [interlace] leaves a buffer. *)
Definition avi_converter_from_mjpeg (alloc1 alloc2 : bool)
    (pass1 pass2 : decode_pass) (pix1 pix2 : Z → Z → byte)
    (movie : Movie.AviMovie) (size : Z) (st : state) : option decoded :=
  match imb_alloc_pixels alloc1 (Movie.Height movie) (Movie.Width movie) 3 with
  | None => Some {| frame := None; after := st |}
  | Some buf =>
      let '(deint, _, st) :=
        Decode_JPEG pass1 pass2 0 0 (to_uint (Movie.Width movie))
                    (to_uint (Movie.Height movie)) size st in
      match decoded_pixels pass1 pass2 pix1 pix2
                           (to_uint (Movie.Height movie)) buf with
      | None => None
      | Some buf =>
          if deint =? 0 then Some {| frame := Some buf; after := st |}
          else
            match imb_alloc_pixels alloc2 (Movie.Height movie)
                                   (Movie.Width movie) 3 with
            | Some buffer =>
                match interlace buffer buf (Movie.Width movie)
                                (Movie.Height movie) with
                | Some buffer => Some {| frame := Some buffer; after := st |}
                | None => None
                end
            | None => Some {| frame := None; after := st |}
            end
      end
  end.

(** * Properties *)

(** ** Machine integers within range *)

Lemma to_size_t_small z : 0 <= z < 2 ^ 64 → to_size_t z = z.
Proof. intros H. unfold to_size_t. apply Z.mod_small. exact H. Qed.

Lemma to_int_small z : - 2 ^ 31 <= z < 2 ^ 31 → to_int z = z.
Proof. intros H. unfold to_int. rewrite Z.mod_small; lia. Qed.

Lemma to_long_small z : - 2 ^ 63 <= z < 2 ^ 63 → to_long z = z.
Proof. intros H. unfold to_long. rewrite Z.mod_small; lia. Qed.

Lemma rowstride_of_small width :
  0 <= width → width * 3 <= INT_MAX → rowstride_of width = width * 3.
Proof.
  unfold INT_MAX, rowstride_of. intros H0 H1.
  rewrite to_int_small by lia. apply to_size_t_small. lia.
Qed.

Lemma land_1_mod i : Z.land i 1 = i mod 2.
Proof. change 1 with (Z.ones 1). rewrite Z.land_ones by lia. reflexivity. Qed.

Lemma quot_2_div h : 0 <= h → h ÷ 2 = h / 2.
Proof. intros H. apply Z.quot_div_nonneg; lia. Qed.

(** ** Rows of a buffer under [memcpy] *)

Section Rows.

Context (S : nat).

Lemma length_splice to d from s n :
  (d + n ≤ length to)%nat → (s + n ≤ length from)%nat →
  length (splice to d from s n) = length to.
Proof.
  intros Hd Hs. unfold splice.
  rewrite !length_app, !length_take, !length_drop. lia.
Qed.

Lemma lookup_rown b r c :
  rown S b r !! c = if decide (c < S)%nat then b !! (r * S + c)%nat else None.
Proof.
  unfold rown. case_decide.
  - rewrite lookup_take_lt by done. apply lookup_drop.
  - apply lookup_take_ge. lia.
Qed.

Lemma lookup_splice to d from s n k :
  (d + n ≤ length to)%nat → (s + n ≤ length from)%nat →
  splice to d from s n !! k =
    if decide (k < d)%nat then to !! k
    else if decide (k < d + n)%nat then from !! (s + (k - d))%nat
    else to !! k.
Proof.
  intros Hd Hs. unfold splice.
  assert (length (take d to) = d) as Ld by (rewrite length_take; lia).
  assert (length (take n (drop s from)) = n) as Ln
    by (rewrite length_take, length_drop; lia).
  case_decide.
  - rewrite lookup_app_l by lia. apply lookup_take_lt. done.
  - rewrite lookup_app_r by lia. rewrite Ld. case_decide.
    + rewrite lookup_app_l by lia.
      rewrite lookup_take_lt by lia. apply lookup_drop.
    + rewrite lookup_app_r by lia. rewrite Ln, lookup_drop.
      f_equal. lia.
Qed.

Lemma rown_splice_target to from rd rs :
  (rd * S + S ≤ length to)%nat → (rs * S + S ≤ length from)%nat →
  rown S (splice to (rd * S) from (rs * S) S) rd = rown S from rs.
Proof.
  intros Hd Hs. apply list_eq. intros c.
  rewrite !lookup_rown. case_decide; [|done].
  rewrite lookup_splice by done.
  rewrite decide_False by lia. rewrite decide_True by lia.
  f_equal. lia.
Qed.

Lemma rown_splice_other to from rd rs r :
  r ≠ rd →
  (rd * S + S ≤ length to)%nat → (rs * S + S ≤ length from)%nat →
  rown S (splice to (rd * S) from (rs * S) S) r = rown S to r.
Proof.
  intros Hne Hd Hs. apply list_eq. intros c.
  rewrite !lookup_rown. case_decide; [|done].
  rewrite lookup_splice by done.
  destruct (decide (r < rd)%nat) as [Hlt|Hge].
  - rewrite decide_True by nia. done.
  - rewrite decide_False by nia. rewrite decide_False by nia. done.
Qed.

Lemma rown_ext (a b : buffer) (H : nat) :
  length a = (H * S)%nat → length b = (H * S)%nat →
  (∀ r, (r < H)%nat → rown S a r = rown S b r) → a = b.
Proof.
  intros La Lb Hrows. apply list_eq. intros k.
  destruct (decide (k < H * S)%nat) as [Hk|Hk].
  - assert (0 < S)%nat as HS by nia.
    pose proof (Nat.div_mod_eq k S) as Hdm.
    pose proof (Nat.mod_upper_bound k S ltac:(lia)) as Hm.
    assert (k `div` S < H)%nat as Hr.
    { apply Nat.Div0.div_lt_upper_bound. lia. }
    specialize (Hrows _ Hr).
    apply (f_equal (λ l, l !! (k `mod` S)%nat)) in Hrows.
    rewrite !lookup_rown in Hrows.
    rewrite !decide_True in Hrows by done.
    replace (k `div` S * S + k `mod` S)%nat with k in Hrows by lia.
    done.
  - rewrite !lookup_ge_None_2 by lia. done.
Qed.

End Rows.

Lemma row_rown b S r :
  0 <= S → 0 <= r → row b S r = rown (Z.to_nat S) b (Z.to_nat r).
Proof.
  intros HS Hr. unfold row, rown. rewrite Z2Nat.inj_mul by lia. reflexivity.
Qed.

(** Copying one aligned row: the target row becomes the source row and
    every other row is kept. *)
Lemma memcpy_row to from S H rd rs :
  0 <= S → 0 <= rd < H → 0 <= rs < H →
  buflen to = H * S → buflen from = H * S →
  ∃ out, memcpy to (rd * S) from (rs * S) S = Some out
         ∧ buflen out = H * S
         ∧ row out S rd = row from S rs
         ∧ ∀ r, 0 <= r < H → r ≠ rd → row out S r = row to S r.
Proof.
  unfold buflen. intros HS Hrd Hrs Lto Lfrom.
  assert (rd * S + S <= H * S) as Bd by nia.
  assert (rs * S + S <= H * S) as Bs by nia.
  assert (0 <= rd * S) as Pd by nia.
  assert (0 <= rs * S) as Ps by nia.
  unfold memcpy, buflen.
  rewrite (proj2 (Z.leb_le 0 (rd * S))) by lia.
  rewrite (proj2 (Z.leb_le 0 (rs * S))) by lia.
  rewrite (proj2 (Z.leb_le 0 S)) by lia.
  rewrite (proj2 (Z.leb_le (rd * S + S) _)) by lia.
  rewrite (proj2 (Z.leb_le (rs * S + S) _)) by lia.
  simpl. eexists. split; [reflexivity|].
  rewrite !Z2Nat.inj_mul by lia.
  assert (Z.to_nat rd * Z.to_nat S + Z.to_nat S ≤ length to)%nat as Nd by nia.
  assert (Z.to_nat rs * Z.to_nat S + Z.to_nat S ≤ length from)%nat as Ns by nia.
  split; [|split].
  - rewrite length_splice by lia. lia.
  - rewrite !row_rown by lia. apply rown_splice_target; done.
  - intros r Hr Hne. rewrite !row_rown by lia.
    apply rown_splice_other; [lia|done|done].
Qed.

(** Two buffers of the same shape with the same rows are equal. *)
Lemma row_ext a b S H :
  0 <= S → 0 <= H → buflen a = H * S → buflen b = H * S →
  (∀ r, 0 <= r < H → row a S r = row b S r) → a = b.
Proof.
  unfold buflen. intros HS HH La Lb Hrows.
  apply (rown_ext (Z.to_nat S) a b (Z.to_nat H)); [nia|nia|].
  intros r Hr. specialize (Hrows (Z.of_nat r) ltac:(lia)).
  rewrite !row_rown in Hrows by lia. rewrite Nat2Z.id in Hrows. done.
Qed.

Lemma buflen_replicate n (b : byte) :
  buflen (replicate (Z.to_nat n) b) = Z.max 0 n.
Proof. unfold buflen. rewrite length_replicate. lia. Qed.

Lemma lookup_row_0 (b : buffer) S k :
  (k < Z.to_nat S)%nat → row b S 0 !! k = b !! k.
Proof.
  intros Hk. unfold row. rewrite Z.mul_0_l.
  change (Z.to_nat 0) with 0%nat. rewrite drop_0.
  apply lookup_take_lt. exact Hk.
Qed.

(** ** Row numbers of the field transform *)

Lemma second_field_row_small height i :
  0 <= height <= INT_MAX → 0 <= i < height →
  second_field_row height i = i / 2 + height / 2.
Proof.
  unfold INT_MAX, second_field_row. intros Hh Hi.
  rewrite quot_2_div by lia.
  rewrite (to_size_t_small (height / 2))
    by (Z.to_euclidean_division_equations; lia).
  apply to_size_t_small. Z.to_euclidean_division_equations; lia.
Qed.

Lemma half_row_in_range height i :
  0 <= i < height → 0 <= i / 2 < height.
Proof. intros Hi. Z.to_euclidean_division_equations; lia. Qed.

Lemma second_row_in_range height i :
  0 <= i < height → 0 <= i / 2 + height / 2 < height.
Proof. intros Hi. Z.to_euclidean_division_equations; lia. Qed.

Lemma interlace_origin_in_range height i :
  0 <= i < height → 0 <= interlace_origin height i < height.
Proof.
  intros Hi. unfold interlace_origin.
  pose proof (half_row_in_range height i Hi).
  pose proof (second_row_in_range height i Hi).
  destruct (i mod 2 =? 1); lia.
Qed.

Lemma deinterlace_target_in_range odd height i :
  0 <= i < height → 0 <= deinterlace_target odd height i < height.
Proof.
  intros Hi. unfold deinterlace_target.
  pose proof (half_row_in_range height i Hi).
  pose proof (second_row_in_range height i Hi).
  destruct (i mod 2 =? odd); lia.
Qed.

(** For an even height no two input rows share a target. *)
Lemma deinterlace_target_inj odd height i j :
  Z.even height = true → odd = 0 ∨ odd = 1 →
  0 <= i < height → 0 <= j < height →
  deinterlace_target odd height i = deinterlace_target odd height j → i = j.
Proof.
  intros He Ho Hi Hj. unfold deinterlace_target.
  apply Z.even_spec in He. destruct He as [k ->].
  destruct (Z.eqb_spec (i mod 2) odd), (Z.eqb_spec (j mod 2) odd);
    intros Heq; Z.to_euclidean_division_equations; lia.
Qed.

(** ** The loops of the field transform *)

Section FieldTransform.

Variables width height : Z.
Hypothesis width_nonneg : 0 <= width.
Hypothesis stride_fits_int : width * 3 <= INT_MAX.
Hypothesis height_in_int : 0 <= height <= INT_MAX.

Let S := width * 3.

Local Ltac size_small := unfold INT_MAX in *; subst S; nia.

Lemma interlace_row_spec to from i :
  0 <= i < height →
  buflen to = height * S → buflen from = height * S →
  ∃ out, interlace_row to from S height i = Some out
         ∧ buflen out = height * S
         ∧ row out S i = row from S (interlace_origin height i)
         ∧ ∀ r, 0 <= r < height → r ≠ i → row out S r = row to S r.
Proof.
  intros Hi Lto Lfrom. unfold interlace_row, interlace_origin.
  rewrite land_1_mod.
  assert (0 <= S) as HS by (subst S; lia).
  pose proof (half_row_in_range height i Hi) as Hhalf.
  pose proof (second_row_in_range height i Hi) as Hsec.
  rewrite second_field_row_small by lia.
  rewrite (to_size_t_small (i * S)) by size_small.
  rewrite (to_size_t_small (i / 2 * S)) by size_small.
  rewrite (to_size_t_small ((i / 2 + height / 2) * S)) by size_small.
  destruct (Z.eqb_spec (i mod 2) 0) as [E0|E0];
    destruct (Z.eqb_spec (i mod 2) 1) as [E1|E1]; simpl;
    try (exfalso; Z.to_euclidean_division_equations; lia);
    apply memcpy_row; lia.
Qed.

Lemma interlace_loop_spec from n : ∀ i to,
  0 <= i → i + Z.of_nat n <= height →
  buflen to = height * S → buflen from = height * S →
  ∃ out, interlace_loop n i to from S height = Some out
         ∧ buflen out = height * S
         ∧ (∀ r, i <= r < i + Z.of_nat n →
              row out S r = row from S (interlace_origin height r))
         ∧ (∀ r, 0 <= r < height → ¬ (i <= r < i + Z.of_nat n) →
              row out S r = row to S r).
Proof.
  induction n as [|n IH]; intros i to Hi Hn Lto Lfrom.
  - exists to. simpl. split; [done|]. split; [done|]. split; [lia|done].
  - simpl.
    destruct (interlace_row_spec to from i) as (mid & -> & Lmid & Hrow & Hoth);
      [lia|done|done|].
    destruct (IH (i + 1) mid) as (out & -> & Lout & Hset & Hkeep);
      [lia|lia|done|done|].
    exists out. split; [done|]. split; [done|]. split.
    + intros r Hr. destruct (decide (r = i)) as [->|Hne].
      * rewrite Hkeep by lia. done.
      * apply Hset. lia.
    + intros r Hr Hout. rewrite Hkeep by lia. apply Hoth; lia.
Qed.

Lemma deinterlace_row_spec odd to from i :
  odd = 0 ∨ odd = 1 → 0 <= i < height →
  buflen to = height * S → buflen from = height * S →
  ∃ out, deinterlace_row odd to from S height i = Some out
         ∧ buflen out = height * S
         ∧ row out S (deinterlace_target odd height i) = row from S i
         ∧ ∀ r, 0 <= r < height → r ≠ deinterlace_target odd height i →
                row out S r = row to S r.
Proof.
  intros Ho Hi Lto Lfrom. unfold deinterlace_row, deinterlace_target.
  rewrite land_1_mod.
  assert (0 <= S) as HS by (subst S; lia).
  pose proof (half_row_in_range height i Hi) as Hhalf.
  pose proof (second_row_in_range height i Hi) as Hsec.
  rewrite second_field_row_small by lia.
  rewrite (to_size_t_small odd) by lia.
  rewrite (to_size_t_small (i * S)) by size_small.
  rewrite (to_size_t_small (i / 2 * S)) by size_small.
  rewrite (to_size_t_small ((i / 2 + height / 2) * S)) by size_small.
  destruct (i mod 2 =? odd); apply memcpy_row; lia.
Qed.

Lemma deinterlace_loop_spec odd from n : ∀ i to,
  odd = 0 ∨ odd = 1 →
  0 <= i → i + Z.of_nat n <= height →
  buflen to = height * S → buflen from = height * S →
  ∃ out, deinterlace_loop n i odd to from S height = Some out
         ∧ buflen out = height * S
         ∧ (∀ j, i <= j < i + Z.of_nat n →
              (∀ j', j < j' < i + Z.of_nat n →
                 deinterlace_target odd height j'
                 ≠ deinterlace_target odd height j) →
              row out S (deinterlace_target odd height j) = row from S j)
         ∧ (∀ r, 0 <= r < height →
              (∀ j, i <= j < i + Z.of_nat n →
                 deinterlace_target odd height j ≠ r) →
              row out S r = row to S r).
Proof.
  induction n as [|n IH]; intros i to Ho Hi Hn Lto Lfrom.
  - exists to. simpl. split; [done|]. split; [done|]. split; [lia|done].
  - simpl.
    destruct (deinterlace_row_spec odd to from i)
      as (mid & -> & Lmid & Hrow & Hoth); [done|lia|done|done|].
    destruct (IH (i + 1) mid) as (out & -> & Lout & Hset & Hkeep);
      [done|lia|lia|done|done|].
    exists out. split; [done|]. split; [done|]. split.
    + intros j Hj Hlast. destruct (decide (j = i)) as [->|Hne].
      * rewrite Hkeep; [done| |].
        -- apply deinterlace_target_in_range. lia.
        -- intros j' Hj'. apply Hlast. lia.
      * apply Hset; [lia|]. intros j' Hj'. apply Hlast. lia.
    + intros r Hr Hfree. rewrite Hkeep; [|done|].
      * apply Hoth; [done|]. intros Heq. apply (Hfree i); [lia|done].
      * intros j Hj. apply Hfree. lia.
Qed.

End FieldTransform.

(** ** The whole transforms *)

Lemma deinterlace_loop_snoc odd from rs h n : ∀ i to,
  deinterlace_loop (Datatypes.S n) i odd to from rs h =
    match deinterlace_loop n i odd to from rs h with
    | Some mid => deinterlace_row odd mid from rs h (i + Z.of_nat n)
    | None => None
    end.
Proof.
  induction n as [|n IH]; intros i to.
  - simpl. rewrite Z.add_0_r. destruct (deinterlace_row _ _ _ _ _ _); done.
  - change (deinterlace_loop (Datatypes.S (Datatypes.S n)) i odd to from rs h)
      with (match deinterlace_row odd to from rs h i with
            | Some to' => deinterlace_loop (Datatypes.S n) (i + 1) odd to' from rs h
            | None => None
            end).
    change (deinterlace_loop (Datatypes.S n) i odd to from rs h)
      with (match deinterlace_row odd to from rs h i with
            | Some to' => deinterlace_loop n (i + 1) odd to' from rs h
            | None => None
            end).
    destruct (deinterlace_row odd to from rs h i) as [to'|]; [|done].
    rewrite IH. replace (i + 1 + Z.of_nat n) with (i + Z.of_nat (Datatypes.S n)) by lia.
    done.
Qed.

Lemma interlace_spec to from width height :
  0 <= width → width * 3 <= INT_MAX → 0 <= height <= INT_MAX →
  buflen to = height * (width * 3) → buflen from = height * (width * 3) →
  ∃ out, interlace to from width height = Some out
         ∧ buflen out = height * (width * 3)
         ∧ ∀ r, 0 <= r < height →
             row out (width * 3) r
             = row from (width * 3) (interlace_origin height r).
Proof.
  intros Hw Hs Hh Lto Lfrom. unfold interlace.
  rewrite rowstride_of_small by done.
  rewrite to_size_t_small by (unfold INT_MAX in *; lia).
  destruct (interlace_loop_spec width height Hw Hs Hh from
              (Z.to_nat height) 0 to)
    as (out & E & Lout & Hset & _); [lia|lia|done|done|].
  exists out. split; [done|]. split; [done|].
  intros r Hr. apply Hset. lia.
Qed.

Lemma deinterlace_spec odd to from width height :
  0 <= width → width * 3 <= INT_MAX → 0 <= height <= INT_MAX →
  odd = 0 ∨ odd = 1 →
  buflen to = height * (width * 3) → buflen from = height * (width * 3) →
  ∃ out, deinterlace odd to from width height = Some out
         ∧ buflen out = height * (width * 3)
         ∧ ∀ j, 0 <= j < height →
             (∀ j', j < j' < height →
                deinterlace_target odd height j'
                ≠ deinterlace_target odd height j) →
             row out (width * 3) (deinterlace_target odd height j)
             = row from (width * 3) j.
Proof.
  intros Hw Hs Hh Ho Lto Lfrom. unfold deinterlace.
  rewrite rowstride_of_small by done.
  rewrite to_size_t_small by (unfold INT_MAX in *; lia).
  destruct (deinterlace_loop_spec width height Hw Hs Hh odd from
              (Z.to_nat height) 0 to)
    as (out & E & Lout & Hset & _); [done|lia|lia|done|done|].
  exists out. split; [done|]. split; [done|].
  intros j Hj Hlast. apply Hset; [lia|].
  intros j' Hj'. apply Hlast. lia.
Qed.

(** C1 (as amended).  For a width whose row stride [width * 3] fits an
    [int] and an even height, deinterlacing a buffer [X] of [height] rows
    of [width * 3] bytes into a fresh buffer and interlacing the result
    into another fresh buffer gives back [X] when [odd] is 1; when [odd]
    is 0 it gives [X] with the rows of every pair [2k], [2k + 1]
    exchanged. *)
Theorem interlace_deinterlace_roundtrip odd X fresh1 fresh2 width height :
  0 <= width → width * 3 <= INT_MAX → 0 <= height <= INT_MAX →
  Z.even height = true → odd = 0 ∨ odd = 1 →
  buflen X = height * width * 3 →
  buflen fresh1 = height * width * 3 →
  buflen fresh2 = height * width * 3 →
  ∃ split back,
    deinterlace odd fresh1 X width height = Some split
    ∧ interlace fresh2 split width height = Some back
    ∧ buflen back = height * width * 3
    ∧ (odd = 1 → back = X)
    ∧ (odd = 0 →
       ∀ i, 0 <= i < height →
         row back (width * 3) i
         = row X (width * 3) (if Z.even i then i + 1 else i - 1)).
Proof.
  intros Hw Hs Hh He Ho LX L1 L2.
  destruct (deinterlace_spec odd fresh1 X width height)
    as (mid & Ed & Lmid & Hd); [done|done|done|done|lia|lia|].
  destruct (interlace_spec fresh2 mid width height)
    as (back & Ei & Lback & Hi); [done|done|done|lia|done|].
  exists mid, back. split; [done|]. split; [done|]. split; [lia|].
  assert (∀ j, 0 <= j < height →
            row mid (width * 3) (deinterlace_target odd height j)
            = row X (width * 3) j) as Hd'.
  { intros j Hj. apply Hd; [done|]. intros j' Hj' Heq.
    apply deinterlace_target_inj in Heq; [lia|done|done|lia|lia]. }
  apply Z.even_spec in He. destruct He as [k Hk].
  split.
  - intros ->. apply (row_ext _ _ (width * 3) height); [lia|lia|lia|lia|].
    intros r Hr. rewrite Hi by done. rewrite <- Hd' by done.
    reflexivity.
  - intros -> i Hr. rewrite Hi by done.
    destruct (Z.even i) eqn:Ei'.
    + apply Z.even_spec in Ei'. destruct Ei' as [a ->].
      rewrite <- Hd' by lia. f_equal.
      unfold interlace_origin, deinterlace_target.
      destruct (Z.eqb_spec ((2 * a) mod 2) 1),
               (Z.eqb_spec ((2 * a + 1) mod 2) 0);
        Z.to_euclidean_division_equations; lia.
    + assert (Z.odd i = true) as Oi by (rewrite <- Z.negb_even, Ei'; done).
      apply Z.odd_spec in Oi. destruct Oi as [a ->].
      rewrite <- Hd' by lia. f_equal.
      unfold interlace_origin, deinterlace_target.
      destruct (Z.eqb_spec ((2 * a + 1) mod 2) 1),
               (Z.eqb_spec ((2 * a + 1 - 1) mod 2) 0);
        Z.to_euclidean_division_equations; lia.
Qed.

Lemma interlace_deinterlace_roundtrip_witness :
  ∃ split back,
    deinterlace 1 [x00;x00;x00;x00;x00;x00] [x01;x02;x03;x04;x05;x06] 1 2
      = Some split
    ∧ interlace [x00;x00;x00;x00;x00;x00] split 1 2 = Some back
    ∧ back = [x01;x02;x03;x04;x05;x06].
Proof.
  destruct (interlace_deinterlace_roundtrip 1
              [x01;x02;x03;x04;x05;x06]
              [x00;x00;x00;x00;x00;x00] [x00;x00;x00;x00;x00;x00] 1 2)
    as (split & back & Ed & Ei & _ & Hid & _);
    [lia | unfold INT_MAX; lia | unfold INT_MAX; lia | reflexivity
    | right; reflexivity | reflexivity | reflexivity | reflexivity |].
  exists split, back. split; [exact Ed|]. split; [exact Ei|].
  apply Hid. reflexivity.
Defined.

(** C1, as stated, fails for the field order [odd = 0]: a frame of two
    one-pixel rows comes back with its rows exchanged. *)
Lemma interlace_deinterlace_roundtrip_fails_for_even_first :
  match deinterlace 0 [x00;x00;x00;x00;x00;x00]
                      [x01;x02;x03;x04;x05;x06] 1 2 with
  | Some split => interlace [x00;x00;x00;x00;x00;x00] split 1 2
  | None => None
  end = Some [x04;x05;x06;x01;x02;x03]
  ∧ [x04;x05;x06;x01;x02;x03] ≠ [x01;x02;x03;x04;x05;x06].
Proof. split; [vm_compute; reflexivity | discriminate]. Qed.

(** C6.  For a width whose row stride fits an [int], a height, a field
    order in {0,1} and distinct buffers of [height * width * 3] bytes,
    iteration [i] of [deinterlace] copies the whole input row [i] to
    output row [i / 2 + height / 2] when [i mod 2 = odd] and to output row
    [i / 2] otherwise, leaving every other output row as it was; the row
    is still there when the transform returns unless a later input row
    has the same target. *)
Theorem deinterlace_copies_rows odd to from width height :
  0 <= width → width * 3 <= INT_MAX → 0 <= height <= INT_MAX →
  odd = 0 ∨ odd = 1 →
  buflen to = height * width * 3 → buflen from = height * width * 3 →
  ∃ out,
    deinterlace odd to from width height = Some out
    ∧ buflen out = height * width * 3
    ∧ ∀ i, 0 <= i < height →
        let target := if i mod 2 =? odd then i / 2 + height / 2 else i / 2 in
        0 <= target < height
        ∧ (∃ before after,
             deinterlace_loop (Z.to_nat i) 0 odd to from
                              (rowstride_of width) height = Some before
             ∧ deinterlace_row odd before from (rowstride_of width) height i
               = Some after
             ∧ deinterlace_loop (Z.to_nat (i + 1)) 0 odd to from
                                (rowstride_of width) height = Some after
             ∧ row after (width * 3) target = row from (width * 3) i
             ∧ ∀ r, 0 <= r < height → r ≠ target →
                    row after (width * 3) r = row before (width * 3) r)
        ∧ ((∀ j, i < j < height → deinterlace_target odd height j ≠ target) →
           row out (width * 3) target = row from (width * 3) i).
Proof.
  intros Hw Hs Hh Ho Lto Lfrom.
  destruct (deinterlace_spec odd to from width height)
    as (out & E & Lout & Hfin); [done|done|done|done|lia|lia|].
  exists out. split; [done|]. split; [lia|].
  intros i Hi. change (if i mod 2 =? odd then i / 2 + height / 2 else i / 2)
    with (deinterlace_target odd height i). simpl.
  split; [apply deinterlace_target_in_range; done|].
  split; [|apply Hfin; done].
  rewrite rowstride_of_small by done.
  destruct (deinterlace_loop_spec width height Hw Hs Hh odd from
              (Z.to_nat i) 0 to)
    as (before & Eb & Lb & _ & _); [done|lia|lia|lia|lia|].
  destruct (deinterlace_row_spec width height Hw Hs Hh odd before from i)
    as (after & Ea & La & Hrow & Hoth); [done|done|done|lia|].
  exists before, after. split; [done|]. split; [done|].
  split; [|split; [done|done]].
  replace (Z.to_nat (i + 1)) with (Datatypes.S (Z.to_nat i)) by lia.
  rewrite deinterlace_loop_snoc, Eb.
  replace (0 + Z.of_nat (Z.to_nat i)) with i by lia. done.
Qed.

Lemma deinterlace_copies_rows_witness :
  ∃ out,
    deinterlace 1 [x00;x00;x00;x00;x00;x00;x00;x00;x00]
                  [x01;x02;x03;x04;x05;x06;x07;x08;x09] 1 3 = Some out
    ∧ row out 3 0 = [x01;x02;x03].
Proof.
  destruct (deinterlace_copies_rows 1
              [x00;x00;x00;x00;x00;x00;x00;x00;x00]
              [x01;x02;x03;x04;x05;x06;x07;x08;x09] 1 3)
    as (out & E & _ & H);
    [lia | unfold INT_MAX; lia | unfold INT_MAX; lia
    | right; reflexivity | reflexivity | reflexivity |].
  exists out. split; [exact E|].
  destruct (H 0 ltac:(lia)) as (_ & _ & Hlast).
  apply Hlast. intros j Hj.
  assert (j = 1 ∨ j = 2) as [-> | ->] by lia; vm_compute; discriminate.
Defined.

(** For a width of 1431655766 the [int] product [width * 3] wraps to 2,
    and 2 bytes of a row are copied. *)
Lemma deinterlace_wrapped_stride odd (to from : buffer) :
  odd = 0 ∨ odd = 1 →
  2 <= buflen to → 2 <= buflen from →
  deinterlace odd to from 1431655766 1 = Some (splice to 0 from 0 2).
Proof.
  intros Ho Lt Lf. unfold deinterlace.
  change (Z.to_nat (to_size_t 1)) with 1%nat.
  change (rowstride_of 1431655766) with 2.
  unfold deinterlace_loop, deinterlace_row.
  assert (memcpy to 0 from 0 2 = Some (splice to 0 from 0 2)) as E.
  { unfold memcpy.
    rewrite (proj2 (Z.leb_le (0 + 2) (buflen to))) by lia.
    rewrite (proj2 (Z.leb_le (0 + 2) (buflen from))) by lia.
    reflexivity. }
  destruct Ho as [-> | ->];
    change (match memcpy to 0 from 0 2 with
            | Some to' => Some to'
            | None => None
            end = Some (splice to 0 from 0 2));
    rewrite E; reflexivity.
Qed.

(** C6, as stated for every width, fails where the row stride
    [width * 3] does not fit [int]: for a frame of one row of 1431655766
    pixels (4294967298 bytes) the stride wraps to 2, and [deinterlace]
    copies only the first 2 bytes of the row: byte 2 of the output row is
    still the destination's. *)
Lemma deinterlace_wide_row_copies_two_bytes :
  ∃ out,
    buflen (replicate (Z.to_nat (1 * 1431655766 * 3)) x00)
    = 1 * 1431655766 * 3
    ∧ buflen (replicate (Z.to_nat (1 * 1431655766 * 3)) xff)
      = 1 * 1431655766 * 3
    ∧ deinterlace 1 (replicate (Z.to_nat (1 * 1431655766 * 3)) x00)
                  (replicate (Z.to_nat (1 * 1431655766 * 3)) xff)
                  1431655766 1
      = Some out
    ∧ row (replicate (Z.to_nat (1 * 1431655766 * 3)) xff)
          (1431655766 * 3) 0 !! 2%nat = Some xff
    ∧ row out (1431655766 * 3) 0 !! 2%nat = Some x00.
Proof.
  assert (∀ b : byte,
            buflen (replicate (Z.to_nat (1 * 1431655766 * 3)) b)
            = 4294967298) as L
    by (intros b; rewrite buflen_replicate; reflexivity).
  eexists. split; [apply L|]. split; [apply L|].
  split; [apply deinterlace_wrapped_stride; [by right|rewrite L; lia..]|].
  pose proof (L x00) as L0. pose proof (L xff) as L1.
  unfold buflen in L0, L1.
  rewrite !lookup_row_0 by lia.
  split.
  - apply lookup_replicate_2. rewrite length_replicate in L1. lia.
  - rewrite lookup_splice by lia.
    rewrite decide_False by lia. rewrite decide_False by lia.
    apply lookup_replicate_2. rewrite length_replicate in L0. lia.
Qed.

(** With three rows and [odd = 1] input rows 1 and 2 both target output
    row 1: the later copy is the one that stays. *)
Example deinterlace_three_rows :
  deinterlace 1 [x00;x00;x00;x00;x00;x00;x00;x00;x00]
                [x01;x02;x03;x04;x05;x06;x07;x08;x09] 1 3
  = Some [x01;x02;x03;x07;x08;x09;x00;x00;x00].
Proof. vm_compute. reflexivity. Qed.

(** ** Memory safety of the field transform *)

Lemma memcpy_in_bounds to d from s n out :
  memcpy to d from s n = Some out →
  0 <= d ∧ d + n <= buflen to ∧ 0 <= s ∧ s + n <= buflen from.
Proof.
  unfold memcpy. intros H.
  destruct (0 <=? d) eqn:E1, (0 <=? s) eqn:E2, (0 <=? n) eqn:E3,
           (d + n <=? buflen to) eqn:E4, (s + n <=? buflen from) eqn:E5;
    simpl in H; try discriminate.
  apply Z.leb_le in E1, E2, E4, E5. done.
Qed.

Lemma row_offset_in_bounds width height r :
  0 <= width → width * 3 <= INT_MAX → 0 <= height <= INT_MAX →
  0 <= r < height →
  to_size_t (r * rowstride_of width) = r * (width * 3)
  ∧ 0 <= r * (width * 3)
  ∧ r * (width * 3) + width * 3 <= height * width * 3.
Proof.
  intros Hw Hs Hh Hr. rewrite rowstride_of_small by done.
  unfold INT_MAX in *.
  rewrite to_size_t_small by nia. split; [done|]. nia.
Qed.

Lemma deinterlace_loop_safe width height odd from n : ∀ i to,
  0 <= width → width * 3 <= INT_MAX → 0 <= height <= INT_MAX →
  0 <= i → i + Z.of_nat n <= height →
  buflen to = height * (width * 3) → buflen from = height * (width * 3) →
  ∃ out, deinterlace_loop n i odd to from (width * 3) height = Some out
         ∧ buflen out = height * (width * 3).
Proof.
  induction n as [|n IH]; intros i to Hw Hs Hh Hi Hn Lto Lfrom.
  - exists to. done.
  - simpl.
    assert (∃ mid, deinterlace_row odd to from (width * 3) height i = Some mid
                   ∧ buflen mid = height * (width * 3)) as (mid & -> & Lmid).
    { unfold deinterlace_row.
      assert (0 <= i < height) as Hi' by lia.
      pose proof (half_row_in_range height i Hi') as Hhalf.
      pose proof (second_row_in_range height i Hi') as Hsec.
      rewrite second_field_row_small by lia.
      unfold INT_MAX in *.
      rewrite (to_size_t_small (i * (width * 3))) by nia.
      rewrite (to_size_t_small (i / 2 * (width * 3))) by nia.
      rewrite (to_size_t_small ((i / 2 + height / 2) * (width * 3))) by nia.
      destruct (Z.land i 1 =? to_size_t odd).
      - destruct (memcpy_row to from (width * 3) height
                    (i / 2 + height / 2) i) as (mid & E & L & _);
          [lia|lia|lia|done|done|]. eauto.
      - destruct (memcpy_row to from (width * 3) height (i / 2) i)
          as (mid & E & L & _); [lia|lia|lia|done|done|]. eauto. }
    apply IH; [done|done|done|lia|lia|done|done].
Qed.

(** [deinterlace] stays within its buffers for any value of [odd]. *)
Lemma deinterlace_safe odd to from width height :
  0 <= width → width * 3 <= INT_MAX → 0 <= height <= INT_MAX →
  buflen to = height * width * 3 → buflen from = height * width * 3 →
  ∃ out, deinterlace odd to from width height = Some out
         ∧ buflen out = height * width * 3.
Proof.
  intros Hw Hs Hh Lto Lfrom.
  unfold deinterlace. rewrite rowstride_of_small by done.
  rewrite to_size_t_small by (unfold INT_MAX in *; lia).
  destruct (deinterlace_loop_safe width height odd from
              (Z.to_nat height) 0 to)
    as (out & E & L); [done|done|done|lia|lia|lia|lia|].
  exists out. split; [done|lia].
Qed.

(** C10.  For a width whose row stride fits an [int] and any height, odd
    ones included: every row number the two loops compute at an index
    [0 <= i < height] -- [i], [i / 2] and [i / 2 + height / 2] -- lies in
    [0, height); the byte range of each such row lies within the
    [height * width * 3] bytes of a buffer; and so both transforms run to
    completion without any copy leaving its source or destination. *)
Theorem field_transform_in_bounds odd to from width height :
  0 <= width → width * 3 <= INT_MAX → 0 <= height <= INT_MAX →
  buflen to = height * width * 3 → buflen from = height * width * 3 →
  (∀ i, 0 <= i < height →
     0 <= i / 2 < height
     ∧ second_field_row height i = i / 2 + height / 2
     ∧ 0 <= second_field_row height i < height)
  ∧ (∀ r, 0 <= r < height →
       0 <= to_size_t (r * rowstride_of width)
       ∧ to_size_t (r * rowstride_of width) + rowstride_of width
         <= height * width * 3)
  ∧ (∃ out, interlace to from width height = Some out
            ∧ buflen out = height * width * 3)
  ∧ (∃ out, deinterlace odd to from width height = Some out
            ∧ buflen out = height * width * 3).
Proof.
  intros Hw Hs Hh Lto Lfrom. split; [|split; [|split]].
  - intros i Hi.
    pose proof (half_row_in_range height i Hi).
    pose proof (second_row_in_range height i Hi).
    rewrite second_field_row_small by done. done.
  - intros r Hr.
    destruct (row_offset_in_bounds width height r) as (-> & H0 & H1);
      [done|done|done|done|].
    rewrite rowstride_of_small by done. lia.
  - destruct (interlace_spec to from width height)
      as (out & E & L & _); [done|done|done|lia|lia|].
    exists out. split; [done|lia].
  - apply deinterlace_safe; done.
Qed.

Lemma field_transform_in_bounds_witness :
  (∃ out, interlace [x00;x00;x00;x00;x00;x00;x00;x00;x00]
                    [x01;x02;x03;x04;x05;x06;x07;x08;x09] 1 3 = Some out
          ∧ buflen out = 9)
  ∧ (∃ out, deinterlace 0 [x00;x00;x00;x00;x00;x00;x00;x00;x00]
                          [x01;x02;x03;x04;x05;x06;x07;x08;x09] 1 3 = Some out
            ∧ buflen out = 9).
Proof.
  apply (field_transform_in_bounds 0
           [x00;x00;x00;x00;x00;x00;x00;x00;x00]
           [x01;x02;x03;x04;x05;x06;x07;x08;x09] 1 3);
    [lia | unfold INT_MAX; lia | unfold INT_MAX; lia
    | reflexivity | reflexivity].
Defined.

(** Beyond [INT_MAX / 3] the stride no longer is [width * 3]. *)
Example rowstride_of_wraps :
  rowstride_of 715827883 = 18446744071562067969.
Proof. vm_compute. reflexivity. Qed.

(** With a row stride that does not fit [int] the product [width * 3]
    wraps: to a negative [int], and so to a stride beyond any buffer. *)
Lemma interlace_stride_beyond_buffer (to from : buffer) :
  buflen to = 2147483649 →
  interlace to from 715827883 1 = None.
Proof.
  intros Lt. unfold interlace.
  change (Z.to_nat (to_size_t 1)) with 1%nat.
  change (rowstride_of 715827883) with 18446744071562067969.
  unfold interlace_loop, interlace_row, memcpy. rewrite Lt. reflexivity.
Qed.

Lemma deinterlace_stride_beyond_buffer odd (to from : buffer) :
  buflen to = 2147483649 →
  deinterlace odd to from 715827883 1 = None.
Proof.
  intros Lt. unfold deinterlace.
  change (Z.to_nat (to_size_t 1)) with 1%nat.
  change (rowstride_of 715827883) with 18446744071562067969.
  unfold deinterlace_loop, deinterlace_row, memcpy. rewrite Lt.
  destruct (Z.land 0 1 =? to_size_t odd); reflexivity.
Qed.

(** C10, as stated for every width, fails where the row stride
    [width * 3] does not fit [int]: for a frame of one row of 715827883
    pixels, on buffers of exactly [height * width * 3] bytes, the first
    copy of [interlace] and of [deinterlace] leaves its buffers. *)
Lemma field_transform_wide_row_leaves_buffers :
  buflen (replicate (Z.to_nat (1 * 715827883 * 3)) x00) = 1 * 715827883 * 3
  ∧ buflen (replicate (Z.to_nat (1 * 715827883 * 3)) xff) = 1 * 715827883 * 3
  ∧ interlace (replicate (Z.to_nat (1 * 715827883 * 3)) x00)
              (replicate (Z.to_nat (1 * 715827883 * 3)) xff) 715827883 1
    = None
  ∧ deinterlace 0 (replicate (Z.to_nat (1 * 715827883 * 3)) x00)
                (replicate (Z.to_nat (1 * 715827883 * 3)) xff) 715827883 1
    = None.
Proof.
  assert (∀ b : byte,
            buflen (replicate (Z.to_nat (1 * 715827883 * 3)) b)
            = 2147483649) as L
    by (intros b; rewrite buflen_replicate; reflexivity).
  split; [apply L|]. split; [apply L|].
  split; [apply interlace_stride_beyond_buffer, L
         | apply deinterlace_stride_beyond_buffer, L].
Qed.

(** ** The source adapter's handlers *)

(** C5.  Whenever the fill handler runs it reports the warning
    [JWRN_JPEG_EOF] (and nothing fatal), stores 0xFF and 0xD9 in the two
    bytes in front of the cursor, moves the cursor back onto them, sets the
    remaining count to 2 and returns success; nothing else changes. *)
Theorem fill_input_buffer_writes_eoi st :
  let cursor := next_input_byte (src st) in
  let st' := fst (jpegmemsrcmgr_fill_input_buffer st) in
  snd (jpegmemsrcmgr_fill_input_buffer st) = true
  ∧ next_input_byte (src st') = cursor - 2
  ∧ bytes_in_buffer (src st') = 2
  ∧ input st' (cursor - 2) = xff
  ∧ input st' (cursor - 1) = xd9
  ∧ (∀ a, a ≠ cursor - 2 → a ≠ cursor - 1 → input st' a = input st a)
  ∧ reports st' = reports st ++ [Report_warning JWRN_JPEG_EOF]
  ∧ numbytes st' = numbytes st
  ∧ trace st' = trace st.
Proof.
  simpl. split; [reflexivity|]. split; [reflexivity|]. split; [reflexivity|].
  split; [|split; [|split; [|done]]].
  - rewrite fn_lookup_insert_ne by lia. apply fn_lookup_insert.
  - replace (next_input_byte (src st) - 1)
      with (next_input_byte (src st) - 2 + 1) by lia.
    apply fn_lookup_insert.
  - intros a H1 H2.
    rewrite fn_lookup_insert_ne by lia.
    rewrite fn_lookup_insert_ne by lia. reflexivity.
Qed.

(** C7 (as amended).  For a skip count [0 <= skip_count <= LONG_MAX] and
    any count of remaining bytes, the skip handler advances the cursor by
    [min skip_count remaining] and lowers the remaining count by the same
    amount. *)
Theorem skip_input_data_advances_by_min skip_count st :
  0 <= skip_count <= LONG_MAX →
  0 <= bytes_in_buffer (src st) <= SIZE_MAX →
  let remaining := bytes_in_buffer (src st) in
  let st' := jpegmemsrcmgr_skip_input_data skip_count st in
  next_input_byte (src st')
    = next_input_byte (src st) + Z.min skip_count remaining
  ∧ bytes_in_buffer (src st') = remaining - Z.min skip_count remaining
  ∧ input st' = input st ∧ numbytes st' = numbytes st
  ∧ reports st' = reports st ∧ trace st' = trace st.
Proof.
  unfold LONG_MAX, SIZE_MAX. intros Hs Hb. simpl.
  rewrite (to_size_t_small skip_count) by lia.
  destruct (Z.ltb_spec (bytes_in_buffer (src st)) skip_count) as [Hlt|Hge].
  - rewrite to_long_small by lia. rewrite Z.min_r by lia.
    rewrite Z.sub_diag. split; [done|]. split; [reflexivity|done].
  - rewrite Z.min_l by lia. split; [done|].
    split; [apply to_size_t_small; lia|done].
Qed.

Lemma skip_input_data_advances_by_min_witness :
  next_input_byte
    (src (jpegmemsrcmgr_skip_input_data 7
            (set_src {| next_input_byte := 10; bytes_in_buffer := 5 |} blank)))
  = 10 + Z.min 7 5.
Proof.
  apply (skip_input_data_advances_by_min 7
           (set_src {| next_input_byte := 10; bytes_in_buffer := 5 |} blank));
    [unfold LONG_MAX; lia | unfold SIZE_MAX; simpl; lia].
Defined.

(** C7, as stated, fails for a negative count: compared as [size_t] it
    exceeds any remaining count, so a request of -1 with 5 bytes left
    skips all 5 instead of moving by [min (-1) 5 = -1]. *)
Lemma skip_input_data_negative_count :
  next_input_byte
    (src (jpegmemsrcmgr_skip_input_data (-1)
            (set_src {| next_input_byte := 10; bytes_in_buffer := 5 |} blank)))
  = 15
  ∧ bytes_in_buffer
      (src (jpegmemsrcmgr_skip_input_data (-1)
              (set_src {| next_input_byte := 10; bytes_in_buffer := 5 |} blank)))
    = 0
  ∧ 15 ≠ 10 + Z.min (-1) 5
  ∧ 0 ≠ 5 - Z.min (-1) 5.
Proof. vm_compute. repeat split; discriminate. Qed.

(** ** What the codec's requests leave alone *)

Lemma src_run_frame rs : ∀ st,
  numbytes (src_run rs st) = numbytes st
  ∧ trace (src_run rs st) = trace st
  ∧ dest (src_run rs st) = dest st.
Proof.
  induction rs as [|r rs IH]; intros st; [done|].
  unfold src_run in *. simpl.
  destruct (IH (src_step st r)) as (-> & -> & ->).
  destruct r; done.
Qed.

Lemma dest_run_frame rs : ∀ st,
  numbytes (dest_run rs st) = numbytes st
  ∧ trace (dest_run rs st) = trace st
  ∧ src (dest_run rs st) = src st
  ∧ input (dest_run rs st) = input st
  ∧ reports (dest_run rs st) = reports st.
Proof.
  induction rs as [|r rs IH]; intros st; [done|].
  unfold dest_run in *. simpl.
  destruct (IH (dest_step st r)) as (-> & -> & -> & -> & ->).
  destruct r; done.
Qed.

(** ** Decode pipeline *)

Lemma read_rows_spec p rs n : ∀ y out st,
  fst (read_rows n y p rs out st) = out + Z.of_nat n * rs
  ∧ numbytes (snd (read_rows n y p rs out st)) = numbytes st
  ∧ trace (snd (read_rows n y p rs out st))
    = trace st
      ++ map (λ k, Call_read_scanlines (out + k * rs) 1)
             (seqZ 0 (Z.of_nat n)).
Proof.
  induction n as [|n IH]; intros y out st.
  - simpl. split; [lia|]. split; [done|]. rewrite app_nil_r. done.
  - change (read_rows (Datatypes.S n) y p rs out st)
      with (read_rows n (y + 1) p rs (out + rs)
              (jpeg_read_scanlines p y out st)).
    destruct (IH (y + 1) (out + rs) (jpeg_read_scanlines p y out st))
      as (-> & -> & ->).
    unfold jpeg_read_scanlines.
    destruct (src_run_frame (dec_scanline p y)
                (emit (Call_read_scanlines out 1) st)) as (-> & -> & _).
    split; [lia|]. split; [done|]. simpl trace.
    rewrite <- app_assoc. f_equal.
    rewrite (seqZ_cons 0 (Z.of_nat (Datatypes.S n))) by lia.
    replace (Z.pred (Z.of_nat (Datatypes.S n))) with (Z.of_nat n) by lia.
    change (Z.succ 0) with (1 + 0). rewrite <- fmap_add_seqZ.
    simpl. rewrite Z.add_0_r. f_equal.
    rewrite <- list_fmap_compose. apply list_fmap_ext.
    intros _ k _. simpl. f_equal. lia.
Qed.

Lemma jpeg_read_header_frame p st :
  numbytes (jpeg_read_header p st) = numbytes st
  ∧ trace (jpeg_read_header p st) = trace st ++ [Call_read_header true].
Proof.
  unfold jpeg_read_header, jpegmemsrcmgr_init_source.
  destruct (src_run_frame (dec_header p) (emit (Call_read_header true) st))
    as (-> & -> & _). done.
Qed.

Lemma jpeg_start_decompress_frame p st :
  numbytes (jpeg_start_decompress p st) = numbytes st
  ∧ trace (jpeg_start_decompress p st) = trace st ++ [Call_start_decompress].
Proof.
  unfold jpeg_start_decompress.
  destruct (src_run_frame (dec_start p) (emit Call_start_decompress st))
    as (-> & -> & _). done.
Qed.

(** Teardown subtracts what is left from the counter, whatever the
    counter held. *)
Lemma jpeg_finish_decompress_spec p st :
  ∃ remaining,
    numbytes (jpeg_finish_decompress p st)
    = to_size_t (numbytes st - remaining)
    ∧ trace (jpeg_finish_decompress p st)
      = trace st ++ [Call_finish_decompress;
                     Term_source remaining
                                 (to_size_t (numbytes st - remaining))].
Proof.
  unfold jpeg_finish_decompress, jpegmemsrcmgr_term_source.
  destruct (src_run_frame (dec_finish p) (emit Call_finish_decompress st))
    as (Hn & Ht & _).
  exists (bytes_in_buffer
            (src (src_run (dec_finish p) (emit Call_finish_decompress st)))).
  simpl. rewrite Hn, Ht. simpl. rewrite <- app_assoc. done.
Qed.

(** *** Counter and trace, step by step *)

Lemma numbytes_emit e st : numbytes (emit e st) = numbytes st.
Proof. reflexivity. Qed.
Lemma trace_emit e st : trace (emit e st) = trace st ++ [e].
Proof. reflexivity. Qed.
Lemma numbytes_set_numbytes n st : numbytes (set_numbytes n st) = n.
Proof. reflexivity. Qed.
Lemma trace_set_numbytes n st : trace (set_numbytes n st) = trace st.
Proof. reflexivity. Qed.
Lemma numbytes_src_build b n st : numbytes (jpegmemsrcmgr_build b n st) = n.
Proof. reflexivity. Qed.
Lemma trace_src_build b n st :
  trace (jpegmemsrcmgr_build b n st) = trace st ++ [Build_source b n].
Proof. reflexivity. Qed.
Lemma numbytes_read_header p st :
  numbytes (jpeg_read_header p st) = numbytes st.
Proof. apply jpeg_read_header_frame. Qed.
Lemma trace_read_header p st :
  trace (jpeg_read_header p st) = trace st ++ [Call_read_header true].
Proof. apply jpeg_read_header_frame. Qed.
Lemma numbytes_start_decompress p st :
  numbytes (jpeg_start_decompress p st) = numbytes st.
Proof. apply jpeg_start_decompress_frame. Qed.
Lemma trace_start_decompress p st :
  trace (jpeg_start_decompress p st) = trace st ++ [Call_start_decompress].
Proof. apply jpeg_start_decompress_frame. Qed.
Lemma numbytes_tables (b : bool) st :
  numbytes (if b then st else std_huff_tables st) = numbytes st.
Proof. destruct b; reflexivity. Qed.
Lemma trace_tables (b : bool) st :
  trace (if b then st else std_huff_tables st)
  = trace st ++ (if b then [] else [Install_std_huff_tables]).
Proof. destruct b; simpl; [rewrite app_nil_r|]; reflexivity. Qed.

Create Rewrite HintDb frame.

#[local] Hint Rewrite numbytes_emit trace_emit numbytes_set_numbytes
  trace_set_numbytes numbytes_src_build trace_src_build numbytes_read_header
  trace_read_header numbytes_start_decompress trace_start_decompress
  numbytes_tables trace_tables : frame.

(** The whole of [Decode_JPEG]: its result, the final output pointer,
    the counter and the trace, for whatever the codec leaves unread
    ([rem1], [rem2]) at the two teardowns. *)
Lemma Decode_JPEG_spec pass1 pass2 inBuffer outBuffer width height bufsize st :
  ∃ rem1 rem2,
    let used1 := to_size_t (bufsize - rem1) in
    let out1 := outBuffer + rows_of pass1 * stride_of pass1 in
    let first :=
      [Call_std_error; Call_create_decompress; Build_source inBuffer bufsize]
      ++ pass_events pass1 true outBuffer
      ++ [Call_finish_decompress; Term_source rem1 used1] in
    let second :=
      [Build_source (inBuffer + used1) (to_size_t (bufsize - used1))]
      ++ pass_events pass2 false out1
      ++ [Call_finish_decompress; Term_source rem2 (to_size_t (0 - rem2));
          Call_destroy_decompress] in
    let r := Decode_JPEG pass1 pass2 inBuffer outBuffer width height bufsize st in
    if dec_output_height pass1 >=? height then
      r.1.1 = 0 ∧ r.1.2 = out1 ∧ numbytes r.2 = used1
      ∧ trace r.2 = trace st ++ first
    else
      r.1.1 = 1 ∧ r.1.2 = out1 + rows_of pass2 * stride_of pass2
      ∧ numbytes r.2 = to_size_t (0 - rem2)
      ∧ trace r.2 = trace st ++ first ++ second.
Proof.
  unfold Decode_JPEG.
  lazymatch goal with
  | |- context [read_rows ?n ?y ?p ?rs ?o ?s] =>
      pose proof (read_rows_spec p rs n y o s) as H1;
      destruct (read_rows n y p rs o s) as [o1 s1]
  end.
  cbn [fst snd] in H1. destruct H1 as (Ho1 & Hn1 & Ht1).
  autorewrite with frame in Hn1, Ht1.
  destruct (jpeg_finish_decompress_spec pass1 s1) as (rem1 & Hfn1 & Hft1).
  rewrite Hn1 in Hfn1, Hft1. rewrite Ht1 in Hft1.
  assert (Z.of_nat (Z.to_nat (to_size_t (dec_output_height pass1)))
          = rows_of pass1) as R1.
  { unfold rows_of, to_size_t. pose proof (Z.mod_pos_bound (dec_output_height pass1) (2^64)). lia. }
  assert (Z.of_nat (Z.to_nat (to_size_t (dec_output_height pass2)))
          = rows_of pass2) as R2.
  { unfold rows_of, to_size_t. pose proof (Z.mod_pos_bound (dec_output_height pass2) (2^64)). lia. }
  rewrite R1 in *.
  exists rem1.
  destruct (dec_output_height pass1 >=? height).
  - exists 0. cbn [fst snd]. split; [done|]. split; [done|]. split; [done|].
    rewrite Hft1. unfold pass_events. rewrite <- !app_assoc. reflexivity.
  - lazymatch goal with
    | |- context [read_rows ?n ?y ?p ?rs ?o ?s] =>
        pose proof (read_rows_spec p rs n y o s) as H2;
        destruct (read_rows n y p rs o s) as [o2 s2]
    end.
    cbn [fst snd] in H2. destruct H2 as (Ho2 & Hn2 & Ht2).
    autorewrite with frame in Hn2, Ht2.
    destruct (jpeg_finish_decompress_spec pass2 s2) as (rem2 & Hfn2 & Hft2).
    rewrite Hn2 in Hfn2, Hft2. rewrite Ht2 in Hft2.
    rewrite R2 in *.
    exists rem2. cbn [fst snd]. split; [done|]. split; [subst; done|].
    split; [done|].
    rewrite trace_emit, Hft2, Hft1, Hfn1. unfold pass_events. subst o1.
    rewrite <- !app_assoc. reflexivity.
Qed.

(** ** Reading the decode trace *)


Lemma source_builds_rows (f : Z → Z) l :
  source_builds (map (λ k, Call_read_scanlines (f k) 1) l) = [].
Proof. induction l as [|k l IH]; [done|]. exact IH. Qed.

Lemma source_teardowns_rows (f : Z → Z) l :
  source_teardowns (map (λ k, Call_read_scanlines (f k) 1) l) = [].
Proof. induction l as [|k l IH]; [done|]. exact IH. Qed.


Lemma source_builds_pass p first out :
  source_builds (pass_events p first out) = [].
Proof.
  unfold pass_events, source_builds. rewrite !omap_app.
  fold (source_builds
          (map (λ k, Call_read_scanlines (out + k * stride_of p) 1)
               (seqZ 0 (rows_of p)))).
  rewrite (source_builds_rows (λ k, out + k * stride_of p)).
  destruct (dec_has_tables p), first; reflexivity.
Qed.

Lemma source_teardowns_pass p first out :
  source_teardowns (pass_events p first out) = [].
Proof.
  unfold pass_events, source_teardowns. rewrite !omap_app.
  fold (source_teardowns
          (map (λ k, Call_read_scanlines (out + k * stride_of p) 1)
               (seqZ 0 (rows_of p)))).
  rewrite (source_teardowns_rows (λ k, out + k * stride_of p)).
  destruct (dec_has_tables p), first; reflexivity.
Qed.



(** ** Encode pipeline *)

Lemma write_rows_spec p rs n : ∀ y inp st,
  fst (write_rows n y p rs inp st) = inp + Z.of_nat n * rs
  ∧ numbytes (snd (write_rows n y p rs inp st)) = numbytes st
  ∧ trace (snd (write_rows n y p rs inp st))
    = trace st
      ++ map (λ k, Call_write_scanlines (inp + k * rs) 1)
             (seqZ 0 (Z.of_nat n)).
Proof.
  induction n as [|n IH]; intros y inp st.
  - simpl. split; [lia|]. split; [done|]. rewrite app_nil_r. done.
  - change (write_rows (Datatypes.S n) y p rs inp st)
      with (write_rows n (y + 1) p rs (inp + rs)
              (jpeg_write_scanlines p y inp st)).
    destruct (IH (y + 1) (inp + rs) (jpeg_write_scanlines p y inp st))
      as (-> & -> & ->).
    unfold jpeg_write_scanlines.
    destruct (dest_run_frame (enc_scanline p y)
                (emit (Call_write_scanlines inp 1) st)) as (-> & -> & _).
    split; [lia|]. split; [done|]. simpl trace.
    rewrite <- app_assoc. f_equal.
    rewrite (seqZ_cons 0 (Z.of_nat (Datatypes.S n))) by lia.
    replace (Z.pred (Z.of_nat (Datatypes.S n))) with (Z.of_nat n) by lia.
    change (Z.succ 0) with (1 + 0). rewrite <- fmap_add_seqZ.
    simpl. rewrite Z.add_0_r. f_equal.
    rewrite <- list_fmap_compose. apply list_fmap_ext.
    intros _ k _. simpl. f_equal. lia.
Qed.

(** The two marker payloads, whatever the array held before. *)
Lemma marker_app_content (m : Z → byte) :
  map (fill_marker 60 5 (to_uchar 32)
         (<[4 := to_uchar 0]>
            (<[3 := "1"%byte]>
               (<[2 := "I"%byte]>
                  (<[1 := "V"%byte]> (<[0 := "A"%byte]> m)))))).1
      (seqZ 0 60)
  = ["A"; "V"; "I"; "1"; x00]%byte ++ replicate 55 x20.
Proof. vm_compute. reflexivity. Qed.

Lemma marker_com_content (m : Z → byte) :
  map (fill_marker 60 0 (to_uchar 0) m).1 (seqZ 0 60) = replicate 60 x00.
Proof. vm_compute. reflexivity. Qed.

Lemma numbytes_dest_build b n st : numbytes (jpegmemdestmgr_build b n st) = n.
Proof. reflexivity. Qed.

Lemma trace_dest_build b n st :
  trace (jpegmemdestmgr_build b n st) = trace st ++ [Build_destination b n].
Proof. reflexivity. Qed.

Lemma numbytes_start_compress p w st :
  numbytes (jpeg_start_compress p w st) = numbytes st.
Proof.
  unfold jpeg_start_compress, jpegmemdestmgr_init_destination.
  destruct (dest_run_frame (enc_start p) (emit (Call_start_compress w) st))
    as (-> & _). done.
Qed.

Lemma trace_start_compress p w st :
  trace (jpeg_start_compress p w st) = trace st ++ [Call_start_compress w].
Proof.
  unfold jpeg_start_compress, jpegmemdestmgr_init_destination.
  destruct (dest_run_frame (enc_start p) (emit (Call_start_compress w) st))
    as (_ & -> & _). done.
Qed.

Lemma numbytes_write_marker rs m data len st :
  numbytes (jpeg_write_marker rs m data len st) = numbytes st.
Proof.
  unfold jpeg_write_marker.
  destruct (dest_run_frame rs
              (emit (Call_write_marker m (map data (seqZ 0 len))) st))
    as (-> & _). done.
Qed.

Lemma trace_write_marker rs m data len st :
  trace (jpeg_write_marker rs m data len st)
  = trace st ++ [Call_write_marker m (map data (seqZ 0 len))].
Proof.
  unfold jpeg_write_marker.
  destruct (dest_run_frame rs
              (emit (Call_write_marker m (map data (seqZ 0 len))) st))
    as (_ & -> & _). done.
Qed.

#[local] Hint Rewrite numbytes_dest_build trace_dest_build
  numbytes_start_compress trace_start_compress numbytes_write_marker
  trace_write_marker : frame.

Lemma jpeg_finish_compress_spec p st :
  ∃ remaining,
    numbytes (jpeg_finish_compress p st)
    = to_size_t (numbytes st - remaining)
    ∧ trace (jpeg_finish_compress p st)
      = trace st ++ [Call_finish_compress;
                     Term_destination remaining
                       (to_size_t (numbytes st - remaining))].
Proof.
  unfold jpeg_finish_compress, jpegmemdestmgr_term_destination.
  destruct (dest_run_frame (enc_finish p) (emit Call_finish_compress st))
    as (Hn & Ht & _).
  exists (free_in_buffer
            (dest (dest_run (enc_finish p) (emit Call_finish_compress st)))).
  simpl. rewrite Hn, Ht. simpl. rewrite <- app_assoc. done.
Qed.

Lemma Compress_JPEG_spec p quality outbuffer inBuffer width height bufsize st :
  ∃ remaining,
    numbytes (Compress_JPEG p quality outbuffer inBuffer width height bufsize st)
    = to_size_t (bufsize - remaining)
    ∧ trace (Compress_JPEG p quality outbuffer inBuffer width height bufsize st)
      = trace st
        ++ [Enter_Compress_JPEG quality outbuffer inBuffer width height bufsize;
            Call_std_error; Call_create_compress;
            Build_destination outbuffer bufsize;
            Set_field image_width (to_uint width);
            Set_field image_height (to_uint height);
            Set_field input_components 3;
            Set_in_color_space JCS_RGB;
            Call_set_defaults;
            Call_set_colorspace JCS_YCbCr;
            Call_set_quality quality true;
            Set_field (dc_huff_tbl_sent_table 0) 1;
            Set_field (dc_huff_tbl_sent_table 1) 1;
            Set_field (ac_huff_tbl_sent_table 0) 1;
            Set_field (ac_huff_tbl_sent_table 1) 1;
            Set_field (comp_info_component_id 0) 0;
            Set_field (comp_info_v_samp_factor 0) 1;
            Set_field (comp_info_component_id 1) 1;
            Set_field (comp_info_component_id 2) 2;
            Set_field write_JFIF_header 0;
            Call_start_compress false;
            Call_write_marker JPEG_APP0
              (["A"; "V"; "I"; "1"; x00]%byte ++ replicate 55 x20);
            Call_write_marker JPEG_COM (replicate 60 x00)]
        ++ map (λ k, Call_write_scanlines
                       (inBuffer + k * to_size_t (to_uint (to_uint width * 3))) 1)
               (seqZ 0 (to_size_t (to_uint height)))
        ++ [Call_finish_compress;
            Term_destination remaining (to_size_t (bufsize - remaining));
            Call_destroy_compress].
Proof.
  unfold Compress_JPEG. cbn zeta.
  pose proof (marker_app_content (enc_stack p)) as Happ.
  destruct (fill_marker 60 _ (to_uchar 32) _) as [m1 i1].
  pose proof (marker_com_content m1) as Hcom.
  destruct (fill_marker 60 0 (to_uchar 0) m1) as [m2 i2].
  cbn [fst] in Happ, Hcom.
  lazymatch goal with
  | |- context [write_rows ?n ?y ?q ?rs ?o ?s] =>
      pose proof (write_rows_spec q rs n y o s) as H1;
      destruct (write_rows n y q rs o s) as [o1 s1]
  end.
  cbn [fst snd] in H1. destruct H1 as (_ & Hn1 & Ht1).
  autorewrite with frame in Hn1, Ht1.
  rewrite Happ, Hcom in Ht1.
  destruct (jpeg_finish_compress_spec p s1) as (rem & Hfn & Hft).
  rewrite Hn1 in Hfn, Hft. rewrite Ht1 in Hft.
  exists rem. rewrite numbytes_emit, trace_emit, Hfn, Hft.
  split; [done|].
  replace (Z.of_nat (Z.to_nat (to_size_t (to_uint height))))
    with (to_size_t (to_uint height))
    by (unfold to_size_t;
        pose proof (Z.mod_pos_bound (to_uint height) (2 ^ 64)); lia).
  rewrite <- !app_assoc. reflexivity.
Qed.

(** C8.  In every run of [Compress_JPEG] the codec is started exactly
    once, and the two calls that follow at once write the application
    marker APP0 with the 60 bytes 'A','V','I','1',0 and 55 spaces, then the
    comment marker COM with 60 zero bytes. *)
Theorem Compress_JPEG_markers p quality outbuffer inBuffer width height
    bufsize st :
  ∃ pre post,
    trace (Compress_JPEG p quality outbuffer inBuffer width height bufsize st)
    = trace st ++ pre
      ++ [Call_start_compress false;
          Call_write_marker JPEG_APP0
            (["A"; "V"; "I"; "1"; x00]%byte ++ replicate 55 x20);
          Call_write_marker JPEG_COM (replicate 60 x00)]
      ++ post
    ∧ Forall (λ e, ∀ w, e ≠ Call_start_compress w) (pre ++ post)
    ∧ length (["A"; "V"; "I"; "1"; x00]%byte ++ replicate 55 x20) = 60%nat
    ∧ length (replicate 60 x00) = 60%nat.
Proof.
  destruct (Compress_JPEG_spec p quality outbuffer inBuffer width height
              bufsize st) as (rem & _ & Ht).
  exists [Enter_Compress_JPEG quality outbuffer inBuffer width height bufsize;
          Call_std_error; Call_create_compress;
          Build_destination outbuffer bufsize;
          Set_field image_width (to_uint width);
          Set_field image_height (to_uint height);
          Set_field input_components 3;
          Set_in_color_space JCS_RGB;
          Call_set_defaults;
          Call_set_colorspace JCS_YCbCr;
          Call_set_quality quality true;
          Set_field (dc_huff_tbl_sent_table 0) 1;
          Set_field (dc_huff_tbl_sent_table 1) 1;
          Set_field (ac_huff_tbl_sent_table 0) 1;
          Set_field (ac_huff_tbl_sent_table 1) 1;
          Set_field (comp_info_component_id 0) 0;
          Set_field (comp_info_v_samp_factor 0) 1;
          Set_field (comp_info_component_id 1) 1;
          Set_field (comp_info_component_id 2) 2;
          Set_field write_JFIF_header 0].
  eexists. split.
  - rewrite Ht. reflexivity.
  - split; [|split; reflexivity].
    apply Forall_app. split.
    + repeat (constructor; [intros ?; discriminate|]). constructor.
    + apply Forall_app. split.
      * apply Forall_fmap, Forall_true. intros k w. discriminate.
      * repeat (constructor; [intros ?; discriminate|]). constructor.
Qed.

(** ** Reading the encode trace *)

Lemma omap_rows {A} (f : event → option A) (g : Z → event) l :
  (∀ k, f (g k) = None) → omap f (map g l) = [].
Proof.
  intros H. induction l as [|k l IH]; [done|].
  simpl. rewrite H. exact IH.
Qed.

(** One run of [Compress_JPEG], as the trace shows it: the call, the one
    adapter built, the one quality set, and the teardown whose counter is
    the capacity less what was left. *)
Lemma Compress_JPEG_summary p quality outbuffer inBuffer width height
    bufsize st :
  ∃ remaining,
    let st' := Compress_JPEG p quality outbuffer inBuffer width height
                             bufsize st in
    numbytes st' = to_size_t (bufsize - remaining)
    ∧ compress_calls (trace st')
      = compress_calls (trace st)
        ++ [(quality, outbuffer, inBuffer, width, height, bufsize)]
    ∧ codec_qualities (trace st') = codec_qualities (trace st) ++ [quality]
    ∧ destination_builds (trace st')
      = destination_builds (trace st) ++ [(outbuffer, bufsize)]
    ∧ destination_teardowns (trace st')
      = destination_teardowns (trace st)
        ++ [(remaining, to_size_t (bufsize - remaining))].
Proof.
  destruct (Compress_JPEG_spec p quality outbuffer inBuffer width height
              bufsize st) as (rem & Hn & Ht).
  exists rem. cbn zeta. split; [done|]. rewrite Ht.
  unfold compress_calls, codec_qualities, destination_builds,
    destination_teardowns.
  rewrite !omap_app.
  rewrite !(omap_rows _ (λ k, Call_write_scanlines _ 1)) by done.
  done.
Qed.

(** The first adapter of a decode and the adapter of every compression
    count what was used; the second adapter of a two-field decode has its
    counter cleared after it is built, so its teardown leaves the
    negated remaining count. *)
Lemma Decode_JPEG_teardowns pass1 pass2 inBuffer outBuffer width height
    bufsize st :
  dec_output_height pass1 < height →
  ∃ remaining1 remaining2,
    let st' := (Decode_JPEG pass1 pass2 inBuffer outBuffer width height
                            bufsize st).2 in
    let used1 := to_size_t (bufsize - remaining1) in
    source_builds (trace st')
    = source_builds (trace st)
      ++ [(inBuffer, bufsize);
          (inBuffer + used1, to_size_t (bufsize - used1))]
    ∧ source_teardowns (trace st')
      = source_teardowns (trace st)
        ++ [(remaining1, used1); (remaining2, to_size_t (0 - remaining2))]
    ∧ numbytes st' = to_size_t (0 - remaining2).
Proof.
  intros Hlt.
  destruct (Decode_JPEG_spec pass1 pass2 inBuffer outBuffer width height
              bufsize st) as (rem1 & rem2 & H).
  cbn zeta in H. rewrite Z.geb_leb in H.
  destruct (Z.leb_spec height (dec_output_height pass1)) as [Hle|_]; [lia|].
  destruct H as (_ & _ & Hn & Ht).
  exists rem1, rem2. cbn zeta. rewrite Ht.
  unfold source_builds, source_teardowns. rewrite !omap_app.
  fold (source_builds (pass_events pass1 true outBuffer)).
  fold (source_teardowns (pass_events pass1 true outBuffer)).
  fold (source_builds
          (pass_events pass2 false
             (outBuffer + rows_of pass1 * stride_of pass1))).
  fold (source_teardowns
          (pass_events pass2 false
             (outBuffer + rows_of pass1 * stride_of pass1))).
  rewrite !source_builds_pass, !source_teardowns_pass.
  split; [reflexivity|]. split; [reflexivity|done].
Qed.

(** C4 at a two-field frame of 100 bytes whose streams take 40 and 50
    bytes: the second adapter is built over the 60 bytes left and torn
    down with 10 remaining, and the counter then holds 2^64 - 10, not
    60 - 10. *)
Theorem Decode_JPEG_second_counter :
  source_builds
    (trace (Decode_JPEG (field_decoder 40) (field_decoder 50)
                        0 0 1 2 100 blank).2)
  = [(0, 100); (40, 60)]
  ∧ source_teardowns
      (trace (Decode_JPEG (field_decoder 40) (field_decoder 50)
                          0 0 1 2 100 blank).2)
    = [(60, 40); (10, 18446744073709551606)]
  ∧ numbytes (Decode_JPEG (field_decoder 40) (field_decoder 50)
                          0 0 1 2 100 blank).2
    = 18446744073709551606
  ∧ 18446744073709551606 ≠ 60 - 10.
Proof. vm_compute. repeat split; discriminate. Qed.

(** ** Encode entry point *)

Lemma imb_alloc_pixels_length x y channels buf :
  0 <= x * y * channels →
  imb_alloc_pixels true x y channels = Some buf →
  buflen buf = x * y * channels.
Proof.
  intros H [= <-]. unfold buflen. rewrite length_replicate. lia.
Qed.

Lemma avi_converter_to_mjpeg_progressive alloc2 pass1 pass2 movie
    (buffer : buffer) size st :
  Movie.interlace movie = 0 →
  avi_converter_to_mjpeg true alloc2 pass1 pass2 movie buffer size st
  = let st1 := Compress_JPEG pass1 (Movie.Quality movie ÷ 100) 0 0
                 (Movie.Width movie) (Movie.Height movie) size
                 (set_numbytes 0 st) in
    Some {| returned := true; size_out := to_size_t (0 + numbytes st1);
            pixels := buffer; final := st1;
            in_block :=
              stored_within
                (Z.max 0 (Movie.Height movie * Movie.Width movie * 3))
                pass1 0 (Movie.Height movie) |}.
Proof.
  intros Hp. unfold avi_converter_to_mjpeg, imb_alloc_pixels.
  rewrite Hp. cbn zeta. rewrite buflen_replicate. reflexivity.
Qed.

Lemma avi_converter_to_mjpeg_interlaced pass1 pass2 movie
    (buffer : buffer) size st :
  Movie.interlace movie ≠ 0 →
  0 <= Movie.Width movie → Movie.Width movie * 3 <= INT_MAX →
  0 <= Movie.Height movie <= INT_MAX →
  buflen buffer = Movie.Height movie * Movie.Width movie * 3 →
  ∃ split,
    deinterlace (Movie.odd_fields movie)
                (replicate (Z.to_nat (Movie.Height movie * Movie.Width movie * 3)) x00)
                buffer (Movie.Width movie) (Movie.Height movie) = Some split
    ∧ buflen split = Movie.Height movie * Movie.Width movie * 3
    ∧ avi_converter_to_mjpeg true true pass1 pass2 movie buffer size st
      = let q := Movie.Quality movie ÷ 100 in
        let half := Movie.Height movie / 2 in
        let st1 := Compress_JPEG pass1 q 0 0 (Movie.Width movie) half
                     (size / 2) (set_numbytes 0 st) in
        let size1 := numbytes st1 in
        let st2 := Compress_JPEG pass2 q size1
                     (half * (Movie.Width movie * 3))
                     (Movie.Width movie) half (size / 2)
                     (set_numbytes 0 st1) in
        Some {| returned := true; size_out := to_size_t (size1 + numbytes st2);
                pixels := split; final := st2;
                in_block :=
                  stored_within
                    (Movie.Height movie * Movie.Width movie * 3) pass1 0 half
                  && stored_within
                       (Movie.Height movie * Movie.Width movie * 3) pass2
                       size1 half |}.
Proof.
  intros Hi Hw Hs Hh Lb.
  destruct (deinterlace_safe (Movie.odd_fields movie)
              (replicate (Z.to_nat (Movie.Height movie * Movie.Width movie * 3)) x00)
              buffer (Movie.Width movie) (Movie.Height movie))
    as (split & Ed & Ls); [done|done|done| |done|].
  { unfold buflen. rewrite length_replicate. nia. }
  exists split. split; [done|]. split; [done|].
  unfold avi_converter_to_mjpeg, imb_alloc_pixels.
  rewrite (proj2 (Z.eqb_neq _ _) Hi), Ed.
  rewrite quot_2_div by lia. cbn zeta.
  rewrite buflen_replicate, Z.max_r by lia.
  destruct (Compress_JPEG_summary pass1 (Movie.Quality movie ÷ 100) 0 0
              (Movie.Width movie) (Movie.Height movie / 2) (size / 2)
              (set_numbytes 0 st)) as (rem1 & Hn1 & _).
  cbn zeta in Hn1.
  assert (to_size_t (0 + numbytes
            (Compress_JPEG pass1 (Movie.Quality movie ÷ 100) 0 0
               (Movie.Width movie) (Movie.Height movie / 2) (size / 2)
               (set_numbytes 0 st)))
          = numbytes
              (Compress_JPEG pass1 (Movie.Quality movie ÷ 100) 0 0
                 (Movie.Width movie) (Movie.Height movie / 2) (size / 2)
                 (set_numbytes 0 st))) as ->.
  { rewrite Hn1. unfold to_size_t. rewrite Z.add_0_l.
    apply Z.mod_mod. lia. }
  assert (0 + to_size_t (to_size_t (Movie.Height movie / 2)
                         * to_size_t (Movie.Width movie) * 3)
          = Movie.Height movie / 2 * (Movie.Width movie * 3)) as ->.
  { unfold INT_MAX in *.
    assert (0 <= Movie.Height movie / 2 <= Movie.Height movie)
      by (Z.to_euclidean_division_equations; lia).
    rewrite (to_size_t_small (Movie.Height movie / 2)) by lia.
    rewrite (to_size_t_small (Movie.Width movie)) by lia.
    rewrite to_size_t_small by nia. lia. }
  rewrite Z.add_0_l. reflexivity.
Qed.

(** C9.  The quality handed to the codec is the descriptor's quality
    divided by 100 with truncation: once for a progressive frame, and in
    each of the two invocations for an interlaced frame; for a descriptor
    quality between 0 and 10000 that is [Quality / 100], between 0 and
    100. *)
Theorem encode_quality_is_truncated alloc2 pass1 pass2 movie
    (buffer : buffer) size st :
  let q := Movie.Quality movie ÷ 100 in
  (Movie.interlace movie = 0 →
   ∃ r, avi_converter_to_mjpeg true alloc2 pass1 pass2 movie buffer size st
        = Some r
        ∧ codec_qualities (trace (final r))
          = codec_qualities (trace st) ++ [q])
  ∧ (Movie.interlace movie ≠ 0 →
     0 <= Movie.Width movie → Movie.Width movie * 3 <= INT_MAX →
     0 <= Movie.Height movie <= INT_MAX →
     buflen buffer = Movie.Height movie * Movie.Width movie * 3 →
     ∃ r, avi_converter_to_mjpeg true true pass1 pass2 movie buffer size st
          = Some r
          ∧ codec_qualities (trace (final r))
            = codec_qualities (trace st) ++ [q; q])
  ∧ (0 <= Movie.Quality movie <= 10000 →
     q = Movie.Quality movie / 100 ∧ 0 <= q <= 100).
Proof.
  cbn zeta. split; [|split].
  - intros Hp. rewrite avi_converter_to_mjpeg_progressive by done.
    cbn zeta. eexists. split; [reflexivity|]. cbn [final].
    destruct (Compress_JPEG_summary pass1 (Movie.Quality movie ÷ 100) 0 0
                (Movie.Width movie) (Movie.Height movie) size
                (set_numbytes 0 st)) as (rem & _ & _ & Hq & _).
    exact Hq.
  - intros Hi Hw Hs Hh Lb.
    destruct (avi_converter_to_mjpeg_interlaced pass1 pass2 movie buffer
                size st) as (split & _ & _ & ->); [done..|].
    cbn zeta. eexists. split; [reflexivity|]. cbn [final].
    destruct (Compress_JPEG_summary pass1 (Movie.Quality movie ÷ 100) 0 0
                (Movie.Width movie) (Movie.Height movie / 2) (size / 2)
                (set_numbytes 0 st)) as (rem1 & _ & _ & Hq1 & _).
    cbn zeta in Hq1.
    match goal with
    | |- codec_qualities (trace (Compress_JPEG ?p ?q ?o ?i ?w ?h ?n ?s)) = _ =>
        destruct (Compress_JPEG_summary p q o i w h n s)
          as (rem2 & _ & _ & Hq2 & _)
    end.
    cbn zeta in Hq2. rewrite Hq2. rewrite trace_set_numbytes, Hq1.
    rewrite trace_set_numbytes, <- app_assoc. reflexivity.
  - intros Hq. rewrite Z.quot_div_nonneg by lia.
    split; [reflexivity|]. Z.to_euclidean_division_equations; lia.
Qed.

Lemma encode_quality_is_truncated_witness :
  ∃ r, avi_converter_to_mjpeg true true idle_encoder idle_encoder
         {| Movie.Width := 1; Movie.Height := 2; Movie.Quality := 9050;
            Movie.interlace := 1; Movie.odd_fields := 1 |}
         [x01;x02;x03;x04;x05;x06] 100 blank = Some r
       ∧ codec_qualities (trace (final r)) = [90; 90].
Proof.
  destruct (encode_quality_is_truncated true idle_encoder idle_encoder
              {| Movie.Width := 1; Movie.Height := 2; Movie.Quality := 9050;
                 Movie.interlace := 1; Movie.odd_fields := 1 |}
              [x01;x02;x03;x04;x05;x06] 100 blank) as (_ & H & _).
  apply H; simpl; [lia | lia | unfold INT_MAX; lia | unfold INT_MAX; lia
                  | reflexivity].
Defined.

(** C3 (as amended).  For an interlaced frame of a well-formed size, when
    both allocations succeed, the entry point deinterlaces the source into
    a fresh buffer, runs [Compress_JPEG] on the [Height / 2] rows at its
    start with the output pointer at the start of the output buffer, adds
    the bytes that run used to the length, runs [Compress_JPEG] again on
    the [Height / 2] rows that begin at row [Height / 2] with the output
    pointer moved on by the first run's byte count, and stores the sum of
    the two byte counts (as a [size_t]) through the length parameter. *)
Theorem encode_interlaced_two_fields pass1 pass2 movie (buffer : buffer)
    size st :
  Movie.interlace movie ≠ 0 →
  0 <= Movie.Width movie → Movie.Width movie * 3 <= INT_MAX →
  0 <= Movie.Height movie <= INT_MAX →
  buflen buffer = Movie.Height movie * Movie.Width movie * 3 →
  ∃ r split remaining1 remaining2,
    let q := Movie.Quality movie ÷ 100 in
    let half := Movie.Height movie / 2 in
    let count1 := to_size_t (size / 2 - remaining1) in
    let count2 := to_size_t (size / 2 - remaining2) in
    avi_converter_to_mjpeg true true pass1 pass2 movie buffer size st = Some r
    ∧ returned r = true
    ∧ deinterlace (Movie.odd_fields movie)
        (replicate (Z.to_nat (Movie.Height movie * Movie.Width movie * 3)) x00)
        buffer (Movie.Width movie) (Movie.Height movie) = Some split
    ∧ pixels r = split
    ∧ compress_calls (trace (final r))
      = compress_calls (trace st)
        ++ [(q, 0, 0, Movie.Width movie, half, size / 2);
            (q, count1, half * (Movie.Width movie * 3),
             Movie.Width movie, half, size / 2)]
    ∧ destination_teardowns (trace (final r))
      = destination_teardowns (trace st)
        ++ [(remaining1, count1); (remaining2, count2)]
    ∧ size_out r = to_size_t (count1 + count2)
    ∧ (Z.even (Movie.Height movie) = true → half + half = Movie.Height movie).
Proof.
  intros Hi Hw Hs Hh Lb.
  destruct (avi_converter_to_mjpeg_interlaced pass1 pass2 movie buffer
              size st) as (split & Ed & _ & ->); [done..|].
  cbn zeta.
  destruct (Compress_JPEG_summary pass1 (Movie.Quality movie ÷ 100) 0 0
              (Movie.Width movie) (Movie.Height movie / 2) (size / 2)
              (set_numbytes 0 st)) as (rem1 & Hn1 & Hc1 & _ & _ & Ht1).
  cbn zeta in Hn1, Hc1, Ht1.
  set (st1 := Compress_JPEG pass1 (Movie.Quality movie ÷ 100) 0 0
                (Movie.Width movie) (Movie.Height movie / 2) (size / 2)
                (set_numbytes 0 st)) in *.
  destruct (Compress_JPEG_summary pass2 (Movie.Quality movie ÷ 100)
              (numbytes st1)
              (Movie.Height movie / 2 * (Movie.Width movie * 3))
              (Movie.Width movie) (Movie.Height movie / 2) (size / 2)
              (set_numbytes 0 st1)) as (rem2 & Hn2 & Hc2 & _ & _ & Ht2).
  cbn zeta in Hn2, Hc2, Ht2.
  eexists _, split, rem1, rem2.
  split; [reflexivity|]. cbn [returned pixels final size_out].
  split; [done|]. split; [done|]. split; [done|].
  rewrite Hc2, Ht2, Hn2, !trace_set_numbytes, Hc1, Ht1, Hn1.
  rewrite <- !app_assoc.
  split; [reflexivity|]. split; [reflexivity|]. split; [reflexivity|].
  intros He. apply Z.even_spec in He. destruct He as [k ->].
  Z.to_euclidean_division_equations; lia.
Qed.

Lemma encode_interlaced_two_fields_witness :
  ∃ r, avi_converter_to_mjpeg true true (field_encoder 20) (field_encoder 30)
         {| Movie.Width := 1; Movie.Height := 2; Movie.Quality := 9050;
            Movie.interlace := 1; Movie.odd_fields := 1 |}
         [x01;x02;x03;x04;x05;x06] 100 blank = Some r
       ∧ returned r = true.
Proof.
  destruct (encode_interlaced_two_fields (field_encoder 20) (field_encoder 30)
              {| Movie.Width := 1; Movie.Height := 2; Movie.Quality := 9050;
                 Movie.interlace := 1; Movie.odd_fields := 1 |}
              [x01;x02;x03;x04;x05;x06] 100 blank)
    as (r & split & rem1 & rem2 & E & Hr & _);
    [simpl; lia | simpl; lia | unfold INT_MAX; simpl; lia
    | unfold INT_MAX; simpl; lia | reflexivity |].
  exists r. split; [exact E | exact Hr].
Defined.

(** C3, as stated, fails for an odd height: of a frame of three rows the
    second run compresses one row, the one at row 1, while two rows remain
    after the first run's one. *)
Lemma encode_interlaced_odd_height :
  ∃ r, avi_converter_to_mjpeg true true (field_encoder 20) (field_encoder 30)
         {| Movie.Width := 1; Movie.Height := 3; Movie.Quality := 9050;
            Movie.interlace := 1; Movie.odd_fields := 1 |}
         [x01;x02;x03;x04;x05;x06;x07;x08;x09] 100 blank = Some r
       ∧ compress_calls (trace (final r))
         = [(90, 0, 0, 1, 1, 50); (90, 20, 3, 1, 1, 50)]
       ∧ size_out r = 50
       ∧ 1 ≠ 3 - 1.
Proof.
  eexists. split; [vm_compute; reflexivity|].
  split; [reflexivity|]. split; [reflexivity|]. discriminate.
Qed.

(** * Further properties *)

(** ** Field transform: the other round trip and the edges *)

(** X1 ([interlace], [deinterlace]).  The round trip in the direction of
    a decode followed by an encode: for an even height, a field-split
    buffer [Y] put in natural row order by [interlace] and split again by
    [deinterlace] comes back unchanged when [odd] is 1, and with its two
    halves (the two fields) exchanged when [odd] is 0. *)
Theorem deinterlace_interlace_roundtrip odd Y fresh1 fresh2 width height :
  0 <= width → width * 3 <= INT_MAX → 0 <= height <= INT_MAX →
  Z.even height = true → odd = 0 ∨ odd = 1 →
  buflen Y = height * width * 3 →
  buflen fresh1 = height * width * 3 →
  buflen fresh2 = height * width * 3 →
  ∃ natural back,
    interlace fresh1 Y width height = Some natural
    ∧ deinterlace odd fresh2 natural width height = Some back
    ∧ buflen back = height * width * 3
    ∧ (odd = 1 → back = Y)
    ∧ (odd = 0 →
       ∀ r, 0 <= r < height →
         row back (width * 3) r
         = row Y (width * 3)
               (if r <? height / 2 then r + height / 2 else r - height / 2)).
Proof.
  intros Hw Hs Hh He Ho LY L1 L2.
  destruct (interlace_spec fresh1 Y width height)
    as (mid & Ei & Lmid & Hi); [done|done|done|lia|lia|].
  destruct (deinterlace_spec odd fresh2 mid width height)
    as (back & Ed & Lback & Hd); [done|done|done|done|lia|done|].
  exists mid, back. split; [done|]. split; [done|]. split; [lia|].
  assert (∀ j, 0 <= j < height →
            row back (width * 3) (deinterlace_target odd height j)
            = row Y (width * 3) (interlace_origin height j)) as Hrows.
  { intros j Hj. rewrite Hd; [apply Hi; done|done|].
    intros j' Hj' Heq.
    apply deinterlace_target_inj in Heq; [lia|done|done|lia|lia]. }
  apply Z.even_spec in He. destruct He as [k Hk].
  split.
  - intros ->. apply (row_ext _ _ (width * 3) height); [lia|lia|lia|lia|].
    intros r Hr.
    destruct (Z.ltb_spec r k) as [Hlt|Hge].
    + specialize (Hrows (2 * r) ltac:(lia)).
      unfold deinterlace_target, interlace_origin in Hrows.
      replace ((2 * r) mod 2 =? 1) with false in Hrows
        by (symmetry; apply Z.eqb_neq; Z.to_euclidean_division_equations; lia).
      replace (2 * r / 2) with r in Hrows
        by (Z.to_euclidean_division_equations; lia).
      exact Hrows.
    + specialize (Hrows (2 * (r - k) + 1) ltac:(lia)).
      unfold deinterlace_target, interlace_origin in Hrows.
      replace ((2 * (r - k) + 1) mod 2 =? 1) with true in Hrows
        by (symmetry; apply Z.eqb_eq; Z.to_euclidean_division_equations; lia).
      replace ((2 * (r - k) + 1) / 2 + height / 2) with r in Hrows
        by (Z.to_euclidean_division_equations; lia).
      exact Hrows.
  - intros -> r Hr.
    destruct (Z.ltb_spec r (height / 2)) as [Hlt|Hge].
    + specialize (Hrows (2 * r + 1) ltac:(Z.to_euclidean_division_equations; lia)).
      unfold deinterlace_target, interlace_origin in Hrows.
      replace ((2 * r + 1) mod 2 =? 0) with false in Hrows
        by (symmetry; apply Z.eqb_neq; Z.to_euclidean_division_equations; lia).
      replace ((2 * r + 1) mod 2 =? 1) with true in Hrows
        by (symmetry; apply Z.eqb_eq; Z.to_euclidean_division_equations; lia).
      replace ((2 * r + 1) / 2) with r in Hrows
        by (Z.to_euclidean_division_equations; lia).
      exact Hrows.
    + specialize (Hrows (2 * (r - height / 2))
                        ltac:(Z.to_euclidean_division_equations; lia)).
      unfold deinterlace_target, interlace_origin in Hrows.
      replace ((2 * (r - height / 2)) mod 2 =? 0) with true in Hrows
        by (symmetry; apply Z.eqb_eq; Z.to_euclidean_division_equations; lia).
      replace ((2 * (r - height / 2)) mod 2 =? 1) with false in Hrows
        by (symmetry; apply Z.eqb_neq; Z.to_euclidean_division_equations; lia).
      replace (2 * (r - height / 2) / 2 + height / 2) with r in Hrows
        by (Z.to_euclidean_division_equations; lia).
      replace (2 * (r - height / 2) / 2) with (r - height / 2) in Hrows
        by (Z.to_euclidean_division_equations; lia).
      exact Hrows.
Qed.

Lemma deinterlace_interlace_roundtrip_witness :
  ∃ natural back,
    interlace (replicate 12 x00)
      [x01; x02; x03; x04; x05; x06; x07; x08; x09; x0a; x0b; x0c] 1 4
    = Some natural
    ∧ deinterlace 1 (replicate 12 x00) natural 1 4 = Some back
    ∧ back = [x01; x02; x03; x04; x05; x06; x07; x08; x09; x0a; x0b; x0c].
Proof.
  destruct (deinterlace_interlace_roundtrip 1
              [x01; x02; x03; x04; x05; x06; x07; x08; x09; x0a; x0b; x0c]
              (replicate 12 x00) (replicate 12 x00) 1 4)
    as (n & b & E1 & E2 & _ & H1 & _);
    [lia | unfold INT_MAX; lia | unfold INT_MAX; lia | reflexivity
    | right; reflexivity | reflexivity | reflexivity | reflexivity |].
  exists n, b. split; [exact E1|]. split; [exact E2|].
  apply H1. reflexivity.
Defined.

(** X2 ([interlace]).  [interlace] writes every row of its destination:
    the result does not depend on what the destination held before, also
    for odd heights. *)
Theorem interlace_overwrites_destination to1 to2 from width height :
  0 <= width → width * 3 <= INT_MAX → 0 <= height <= INT_MAX →
  buflen to1 = height * width * 3 → buflen to2 = height * width * 3 →
  buflen from = height * width * 3 →
  ∃ out, interlace to1 from width height = Some out
         ∧ interlace to2 from width height = Some out.
Proof.
  intros Hw Hs Hh L1 L2 Lf.
  destruct (interlace_spec to1 from width height)
    as (out1 & E1 & Lo1 & H1); [done|done|done|lia|lia|].
  destruct (interlace_spec to2 from width height)
    as (out2 & E2 & Lo2 & H2); [done|done|done|lia|lia|].
  exists out1. split; [done|]. rewrite E2. f_equal.
  apply (row_ext _ _ (width * 3) height); [lia|lia|done|done|].
  intros r Hr. rewrite H1, H2 by done. reflexivity.
Qed.

Lemma interlace_overwrites_destination_witness :
  ∃ out,
    interlace (replicate 9 x00) [x01; x02; x03; x04; x05; x06; x07; x08; x09] 1 3 = Some out
    ∧ interlace (replicate 9 xff) [x01; x02; x03; x04; x05; x06; x07; x08; x09] 1 3 = Some out.
Proof.
  apply (interlace_overwrites_destination (replicate 9 x00) (replicate 9 xff)
           [x01; x02; x03; x04; x05; x06; x07; x08; x09] 1 3);
    [lia | unfold INT_MAX; lia | unfold INT_MAX; lia | reflexivity
    | reflexivity | reflexivity].
Defined.

(** X3 ([interlace]).  For an odd height of at least 3, [interlace] never
    reads the last row of its input (two inputs that differ only there
    give the same output), and rows 1 and [height - 1] of the output are
    both the input's row [height / 2]. *)
Theorem interlace_skips_last_row_of_odd_height from from' to width height :
  0 <= width → width * 3 <= INT_MAX → 3 <= height <= INT_MAX →
  Z.odd height = true →
  buflen to = height * width * 3 →
  buflen from = height * width * 3 → buflen from' = height * width * 3 →
  (∀ r, 0 <= r < height - 1 →
     row from' (width * 3) r = row from (width * 3) r) →
  ∃ out, interlace to from width height = Some out
         ∧ interlace to from' width height = Some out
         ∧ row out (width * 3) 1 = row from (width * 3) (height / 2)
         ∧ row out (width * 3) (height - 1)
           = row from (width * 3) (height / 2).
Proof.
  intros Hw Hs Hh Hodd Lt Lf Lf' Hagree.
  apply Z.odd_spec in Hodd. destruct Hodd as [k Hk].
  destruct (interlace_spec to from width height)
    as (out & E & Lo & H); [done|done|lia|lia|lia|].
  destruct (interlace_spec to from' width height)
    as (out' & E' & Lo' & H'); [done|done|lia|lia|lia|].
  exists out. split; [done|]. split; [|split].
  - rewrite E'. f_equal.
    apply (row_ext _ _ (width * 3) height); [lia|lia|done|done|].
    intros r Hr. rewrite H, H' by done. apply Hagree.
    unfold interlace_origin.
    destruct (Z.eqb_spec (r mod 2) 1);
      Z.to_euclidean_division_equations; lia.
  - rewrite H by lia. reflexivity.
  - rewrite H by lia. f_equal. unfold interlace_origin.
    replace ((height - 1) mod 2 =? 1) with false
      by (symmetry; apply Z.eqb_neq; Z.to_euclidean_division_equations; lia).
    Z.to_euclidean_division_equations; lia.
Qed.

Lemma interlace_skips_last_row_of_odd_height_witness :
  ∃ out,
    interlace (replicate 9 x00) [x01; x02; x03; x04; x05; x06; x07; x08; x09] 1 3 = Some out
    ∧ interlace (replicate 9 x00)
        [x01; x02; x03; x04; x05; x06; xaa; xbb; xcc] 1 3 = Some out
    ∧ row out (1 * 3) 1 = [x04; x05; x06]
    ∧ row out (1 * 3) (3 - 1) = [x04; x05; x06].
Proof.
  apply (interlace_skips_last_row_of_odd_height [x01; x02; x03; x04; x05; x06; x07; x08; x09]
           [x01; x02; x03; x04; x05; x06; xaa; xbb; xcc]
           (replicate 9 x00) 1 3);
    [lia | unfold INT_MAX; lia | unfold INT_MAX; lia | reflexivity
    | reflexivity | reflexivity | reflexivity |].
  intros r Hr. assert (r = 0 ∨ r = 1) as [-> | ->] by lia; reflexivity.
Defined.

Lemma deinterlace_spec_keep odd to from width height :
  0 <= width → width * 3 <= INT_MAX → 0 <= height <= INT_MAX →
  odd = 0 ∨ odd = 1 →
  buflen to = height * (width * 3) → buflen from = height * (width * 3) →
  ∃ out, deinterlace odd to from width height = Some out
         ∧ buflen out = height * (width * 3)
         ∧ (∀ j, 0 <= j < height →
              (∀ j', j < j' < height →
                 deinterlace_target odd height j'
                 ≠ deinterlace_target odd height j) →
              row out (width * 3) (deinterlace_target odd height j)
              = row from (width * 3) j)
         ∧ (∀ r, 0 <= r < height →
              (∀ j, 0 <= j < height → deinterlace_target odd height j ≠ r) →
              row out (width * 3) r = row to (width * 3) r).
Proof.
  intros Hw Hs Hh Ho Lto Lfrom. unfold deinterlace.
  rewrite rowstride_of_small by done.
  rewrite to_size_t_small by (unfold INT_MAX in *; lia).
  destruct (deinterlace_loop_spec width height Hw Hs Hh odd from
              (Z.to_nat height) 0 to)
    as (out & E & Lout & Hset & Hkeep); [done|lia|lia|done|done|].
  exists out. split; [done|]. split; [done|]. split.
  - intros j Hj Hlast. apply Hset; [lia|].
    intros j' Hj'. apply Hlast. lia.
  - intros r Hr Hfree. apply Hkeep; [done|].
    intros j Hj. apply Hfree. lia.
Qed.

(** X4 ([deinterlace]).  For an odd height of at least 3 and [odd] = 1,
    [deinterlace] leaves the last row of its destination as it was, the
    input's row 1 is lost (two inputs that differ only there give the same
    output), and the input's last row ends up in row [height / 2]. *)
Theorem deinterlace_odd_height_keeps_last_row to from from' width height :
  0 <= width → width * 3 <= INT_MAX → 3 <= height <= INT_MAX →
  Z.odd height = true →
  buflen to = height * width * 3 →
  buflen from = height * width * 3 → buflen from' = height * width * 3 →
  (∀ r, 0 <= r < height → r ≠ 1 →
     row from' (width * 3) r = row from (width * 3) r) →
  ∃ out, deinterlace 1 to from width height = Some out
         ∧ deinterlace 1 to from' width height = Some out
         ∧ row out (width * 3) (height - 1) = row to (width * 3) (height - 1)
         ∧ row out (width * 3) (height / 2)
           = row from (width * 3) (height - 1).
Proof.
  intros Hw Hs Hh Hodd Lt Lf Lf' Hagree.
  apply Z.odd_spec in Hodd. destruct Hodd as [k Hk].
  destruct (deinterlace_spec_keep 1 to from width height)
    as (out & E & Lo & Hset & Hkeep); [done|done|lia|by right|lia|lia|].
  destruct (deinterlace_spec_keep 1 to from' width height)
    as (out' & E' & Lo' & Hset' & Hkeep'); [done|done|lia|by right|lia|lia|].
  assert (∀ j, 0 <= j < height → deinterlace_target 1 height j ≠ height - 1)
    as Hlast.
  { intros j Hj. unfold deinterlace_target.
    destruct (Z.eqb_spec (j mod 2) 1);
      Z.to_euclidean_division_equations; lia. }
  (* the input row that ends up in output row [r] *)
  assert (∀ r, 0 <= r < height - 1 →
            ∃ j, 0 <= j < height ∧ j ≠ 1
                 ∧ deinterlace_target 1 height j = r
                 ∧ ∀ j', j < j' < height →
                     deinterlace_target 1 height j'
                     ≠ deinterlace_target 1 height j) as Hwriter.
  { intros r Hr. destruct (Z.leb_spec r k) as [Hle|Hgt].
    - exists (2 * r). unfold deinterlace_target.
      replace ((2 * r) mod 2 =? 1) with false
        by (symmetry; apply Z.eqb_neq; Z.to_euclidean_division_equations; lia).
      split; [lia|]. split; [lia|].
      split; [Z.to_euclidean_division_equations; lia|].
      intros j' Hj'. destruct (Z.eqb_spec (j' mod 2) 1);
        Z.to_euclidean_division_equations; lia.
    - exists (2 * (r - k) + 1). unfold deinterlace_target.
      replace ((2 * (r - k) + 1) mod 2 =? 1) with true
        by (symmetry; apply Z.eqb_eq; Z.to_euclidean_division_equations; lia).
      split; [lia|]. split; [lia|].
      split; [Z.to_euclidean_division_equations; lia|].
      intros j' Hj'. destruct (Z.eqb_spec (j' mod 2) 1);
        Z.to_euclidean_division_equations; lia. }
  exists out. split; [done|]. split; [|split].
  - rewrite E'. f_equal.
    apply (row_ext _ _ (width * 3) height); [lia|lia|done|done|].
    intros r Hr. destruct (decide (r = height - 1)) as [->|Hne].
    + rewrite Hkeep, Hkeep' by (done || lia). reflexivity.
    + destruct (Hwriter r ltac:(lia)) as (j & Hj & Hj1 & <- & Hfin).
      rewrite Hset, Hset' by done. apply Hagree; done.
  - apply Hkeep; [lia|done].
  - specialize (Hset (height - 1) ltac:(lia) ltac:(intros; lia)).
    unfold deinterlace_target in Hset.
    replace ((height - 1) mod 2 =? 1) with false in Hset
      by (symmetry; apply Z.eqb_neq; Z.to_euclidean_division_equations; lia).
    replace ((height - 1) / 2) with (height / 2) in Hset
      by (Z.to_euclidean_division_equations; lia).
    exact Hset.
Qed.

Lemma deinterlace_odd_height_keeps_last_row_witness :
  ∃ out,
    deinterlace 1 (replicate 9 xff) [x01; x02; x03; x04; x05; x06; x07; x08; x09] 1 3 = Some out
    ∧ deinterlace 1 (replicate 9 xff)
        [x01; x02; x03; xaa; xbb; xcc; x07; x08; x09] 1 3 = Some out
    ∧ row out (1 * 3) (3 - 1) = [xff; xff; xff]
    ∧ row out (1 * 3) (3 / 2) = [x07; x08; x09].
Proof.
  apply (deinterlace_odd_height_keeps_last_row (replicate 9 xff) [x01; x02; x03; x04; x05; x06; x07; x08; x09]
           [x01; x02; x03; xaa; xbb; xcc; x07; x08; x09] 1 3);
    [lia | unfold INT_MAX; lia | unfold INT_MAX; lia | reflexivity
    | reflexivity | reflexivity | reflexivity |].
  intros r Hr Hne. assert (r = 0 ∨ r = 2) as [-> | ->] by lia; reflexivity.
Defined.

(** ** Source adapter: skipping, the cursor and the compressed bytes *)

Lemma skip_input_data_src skip_count st :
  0 <= skip_count <= LONG_MAX →
  0 <= bytes_in_buffer (src st) <= SIZE_MAX →
  src (jpegmemsrcmgr_skip_input_data skip_count st)
  = {| next_input_byte :=
         next_input_byte (src st)
         + Z.min skip_count (bytes_in_buffer (src st));
       bytes_in_buffer :=
         bytes_in_buffer (src st)
         - Z.min skip_count (bytes_in_buffer (src st)) |}.
Proof.
  unfold LONG_MAX, SIZE_MAX. intros Hs Hb. simpl.
  rewrite (to_size_t_small skip_count) by lia.
  destruct (Z.ltb_spec (bytes_in_buffer (src st)) skip_count) as [Hlt|Hge].
  - rewrite to_long_small by lia. rewrite Z.min_r by lia.
    rewrite Z.sub_diag. reflexivity.
  - rewrite Z.min_l by lia. rewrite to_size_t_small by lia. reflexivity.
Qed.

(** X5 ([jpegmemsrcmgr_skip_input_data]).  Skips compose: skipping [a]
    and then [b] bytes leaves the source manager as one skip of [a + b]
    does, for counts that are not negative, also when they run past the
    end of the data. *)
Theorem skip_input_data_composes a b st :
  0 <= a → 0 <= b → a + b <= LONG_MAX →
  0 <= bytes_in_buffer (src st) <= SIZE_MAX →
  src (jpegmemsrcmgr_skip_input_data b (jpegmemsrcmgr_skip_input_data a st))
  = src (jpegmemsrcmgr_skip_input_data (a + b) st).
Proof.
  intros Ha Hb Hab Hr.
  pose proof (skip_input_data_src a st ltac:(lia) Hr) as Ea.
  rewrite (skip_input_data_src (a + b)) by lia.
  rewrite (skip_input_data_src b); rewrite ?Ea; simpl; [|lia|lia].
  f_equal; lia.
Qed.

Lemma skip_input_data_composes_witness :
  src (jpegmemsrcmgr_skip_input_data 30
         (jpegmemsrcmgr_skip_input_data 20 (jpegmemsrcmgr_build 100 40 blank)))
  = src (jpegmemsrcmgr_skip_input_data (20 + 30)
           (jpegmemsrcmgr_build 100 40 blank)).
Proof.
  apply (skip_input_data_composes 20 30 (jpegmemsrcmgr_build 100 40 blank));
    [lia | lia | unfold LONG_MAX; lia | unfold SIZE_MAX; simpl; lia].
Defined.

(** X6 ([jpegmemsrcmgr_skip_input_data]).  Every negative count exhausts
    the source: the cursor goes to the end of the data and the remaining
    count becomes 0, never backwards. *)
Theorem skip_input_data_negative_exhausts skip_count st :
  LONG_MIN <= skip_count < 0 →
  0 <= bytes_in_buffer (src st) <= LONG_MAX →
  src (jpegmemsrcmgr_skip_input_data skip_count st)
  = {| next_input_byte :=
         next_input_byte (src st) + bytes_in_buffer (src st);
       bytes_in_buffer := 0 |}.
Proof.
  unfold LONG_MIN, LONG_MAX. intros Hs Hb. simpl.
  assert (to_size_t skip_count = skip_count + 2 ^ 64) as ->.
  { unfold to_size_t. symmetry.
    apply (Z.mod_unique skip_count (2 ^ 64) (-1)); lia. }
  destruct (Z.ltb_spec (bytes_in_buffer (src st)) (skip_count + 2 ^ 64));
    [|lia].
  rewrite to_long_small by lia. rewrite Z.sub_diag. reflexivity.
Qed.

Lemma skip_input_data_negative_exhausts_witness :
  src (jpegmemsrcmgr_skip_input_data (-3) (jpegmemsrcmgr_build 100 7 blank))
  = {| next_input_byte := 107; bytes_in_buffer := 0 |}.
Proof.
  apply (skip_input_data_negative_exhausts (-3)
           (jpegmemsrcmgr_build 100 7 blank));
    [unfold LONG_MIN; lia | unfold LONG_MAX; simpl; lia].
Defined.

(** While the decoder keeps to the contract the cursor and the count of
    buffered bytes always add up to the same address, and only the two
    bytes in front of that address are ever written. *)
Lemma src_run_orderly rs : ∀ st,
  src_orderly (bytes_in_buffer (src st)) rs = true →
  0 <= bytes_in_buffer (src st) <= SIZE_MAX →
  let stop := next_input_byte (src st) + bytes_in_buffer (src st) in
  let st' := src_run rs st in
  next_input_byte (src st') + bytes_in_buffer (src st') = stop
  ∧ 0 <= bytes_in_buffer (src st')
       <= Z.max 2 (bytes_in_buffer (src st))
  ∧ (∀ a, a ≠ stop - 2 → a ≠ stop - 1 → input st' a = input st a).
Proof.
  induction rs as [|r rs IH]; intros st Hord Hrem; cbn zeta.
  - simpl. split; [done|]. split; [lia|done].
  - unfold src_run. simpl fold_left. fold (src_run rs (src_step st r)).
    unfold SIZE_MAX in *.
    destruct r as [n| |n]; simpl in Hord.
    + apply andb_prop in Hord as [Hord Hrest].
      apply andb_prop in Hord as [H0 Hn].
      apply Z.leb_le in H0, Hn.
      assert (src (src_step st (Src_take n))
              = {| next_input_byte := next_input_byte (src st) + n;
                   bytes_in_buffer := bytes_in_buffer (src st) - n |}) as Hs.
      { simpl. rewrite to_size_t_small by lia. reflexivity. }
      specialize (IH (src_step st (Src_take n))).
      rewrite Hs in IH. cbn [next_input_byte bytes_in_buffer] in IH.
      destruct (IH Hrest ltac:(lia)) as (I1 & I2 & I3).
      split; [lia|]. split; [lia|].
      intros a Ha1 Ha2. rewrite I3 by lia. reflexivity.
    + apply andb_prop in Hord as [H0 Hrest]. apply Z.eqb_eq in H0.
      assert (src (src_step st Src_fill)
              = {| next_input_byte := next_input_byte (src st) - 2;
                   bytes_in_buffer := 2 |}) as Hs by reflexivity.
      assert (∀ a, a ≠ next_input_byte (src st) - 2 →
                   a ≠ next_input_byte (src st) - 1 →
                   input (src_step st Src_fill) a = input st a) as Hin.
      { intros a Ha1 Ha2. simpl.
        rewrite fn_lookup_insert_ne by lia.
        rewrite fn_lookup_insert_ne by lia. reflexivity. }
      specialize (IH (src_step st Src_fill)).
      rewrite Hs in IH. cbn [next_input_byte bytes_in_buffer] in IH.
      destruct (IH Hrest ltac:(lia)) as (I1 & I2 & I3).
      rewrite H0. split; [lia|]. split; [lia|].
      intros a Ha1 Ha2. rewrite I3 by lia. apply Hin; lia.
    + apply andb_prop in Hord as [Hord Hrest].
      apply andb_prop in Hord as [H0 Hn].
      apply Z.leb_le in H0, Hn.
      pose proof (skip_input_data_src n st ltac:(lia) ltac:(unfold SIZE_MAX; lia))
        as Hs.
      specialize (IH (src_step st (Src_skip n))).
      change (src_step st (Src_skip n))
        with (jpegmemsrcmgr_skip_input_data n st) in *.
      rewrite Hs in IH. cbn [next_input_byte bytes_in_buffer] in IH.
      destruct (IH Hrest ltac:(lia)) as (I1 & I2 & I3).
      split; [lia|]. split; [lia|].
      intros a Ha1 Ha2. rewrite I3 by lia. reflexivity.
Qed.



(** X8 ([jpegmemsrcmgr_fill_input_buffer]).  Under the same discipline
    the source manager writes to the compressed data in one place only:
    the last two bytes of the buffer, where a refill puts the end-of-image
    marker; every other byte of the memory is as it was. *)
Theorem source_writes_only_last_two_bytes buffer bufsize rs st :
  0 <= bufsize <= SIZE_MAX →
  src_orderly bufsize rs = true →
  ∀ a, a ≠ buffer + bufsize - 2 → a ≠ buffer + bufsize - 1 →
    input (src_run rs (jpegmemsrcmgr_build buffer bufsize st)) a = input st a.
Proof.
  intros Hb Hord a H1 H2.
  destruct (src_run_orderly rs (jpegmemsrcmgr_build buffer bufsize st))
    as (_ & _ & I3); [done|simpl; lia|].
  simpl in I3. rewrite I3 by done. reflexivity.
Qed.

Lemma source_writes_only_last_two_bytes_witness :
  input (src_run [Src_take 10; Src_fill] (jpegmemsrcmgr_build 100 10 blank))
        107
  = input blank 107.
Proof.
  apply (source_writes_only_last_two_bytes 100 10 [Src_take 10; Src_fill]
           blank);
    [unfold SIZE_MAX; lia | reflexivity | lia | lia].
Defined.

(** ** Decode pipeline: what it leaves undone, and where the second stream starts *)

Lemma elem_of_pass_events e p first out :
  e ∈ pass_events p first out →
  e = Call_read_header true ∨ e = Install_std_huff_tables
  ∨ (first = true ∧ (e = Set_out_color_space JCS_RGB
                     ∨ e = Set_dct_method JDCT_IFAST))
  ∨ e = Call_start_decompress
  ∨ ∃ q, e = Call_read_scanlines q 1.
Proof.
  unfold pass_events. rewrite !elem_of_app.
  intros [H|[H|[H|[H|H]]]].
  - apply list_elem_of_singleton in H. auto.
  - destruct (dec_has_tables p); [by apply elem_of_nil in H|].
    apply list_elem_of_singleton in H. auto.
  - destruct first; [|by apply elem_of_nil in H].
    apply elem_of_cons in H as [H|H]; [auto 6|].
    apply list_elem_of_singleton in H. auto 6.
  - apply list_elem_of_singleton in H. auto 6.
  - apply list_elem_of_fmap in H as (k & -> & _). eauto 7.
Qed.

(** X13 ([Decode_JPEG]).  Every run of [Decode_JPEG] creates a
    decompressor, and [jpeg_destroy_decompress] is called exactly when the
    first stream reported fewer rows than [height]: the single-stream path
    returns without destroying what it created. *)
Theorem Decode_JPEG_destroys_only_after_second_pass pass1 pass2 inBuffer
    outBuffer width height bufsize st :
  ∃ new,
    trace (Decode_JPEG pass1 pass2 inBuffer outBuffer width height bufsize st).2
    = trace st ++ new
    ∧ Call_create_decompress ∈ new
    ∧ (Call_destroy_decompress ∈ new ↔ dec_output_height pass1 < height).
Proof.
  destruct (Decode_JPEG_spec pass1 pass2 inBuffer outBuffer width height
              bufsize st) as (rem1 & rem2 & H).
  cbn zeta in H. rewrite Z.geb_leb in H.
  destruct (Z.leb_spec height (dec_output_height pass1)) as [Hle|Hlt].
  - destruct H as (_ & _ & _ & Htr).
    eexists. split; [exact Htr|]. split.
    + apply elem_of_app. left. apply elem_of_cons. right.
      apply elem_of_cons. by left.
    + split; [|lia]. intros Hin.
      rewrite !elem_of_app in Hin. destruct Hin as [Hin|[Hin|Hin]].
      * repeat (apply elem_of_cons in Hin as [Hin|Hin]; [discriminate|]).
        by apply elem_of_nil in Hin.
      * apply elem_of_pass_events in Hin.
        destruct Hin as [?|[?|[(_ & [?|?])|[?|(q & ?)]]]]; discriminate.
      * repeat (apply elem_of_cons in Hin as [Hin|Hin]; [discriminate|]).
        by apply elem_of_nil in Hin.
  - destruct H as (_ & _ & _ & Htr).
    eexists. split; [exact Htr|]. split.
    + apply elem_of_app. left. apply elem_of_app. left.
      apply elem_of_cons. right. apply elem_of_cons. by left.
    + split; [lia|]. intros _.
      rewrite !elem_of_app. right. right. right.
      apply elem_of_cons. right. apply elem_of_cons. right.
      apply elem_of_cons. by left.
Qed.

(** X14 ([Decode_JPEG]).  On the two-stream path the colour space and
    the DCT method are set before the first [jpeg_start_decompress] only:
    after the second source manager is built no call sets either, so the
    second stream is decoded with what [jpeg_read_header] chose. *)
Theorem Decode_JPEG_second_pass_keeps_codec_defaults pass1 pass2 inBuffer
    outBuffer width height bufsize st :
  dec_output_height pass1 < height →
  ∃ first buffer2 bufsize2 second,
    trace (Decode_JPEG pass1 pass2 inBuffer outBuffer width height bufsize st).2
    = trace st ++ first ++ Build_source buffer2 bufsize2 :: second
    ∧ Set_out_color_space JCS_RGB ∈ first
    ∧ Set_dct_method JDCT_IFAST ∈ first
    ∧ Call_start_decompress ∈ second
    ∧ (∀ cs, Set_out_color_space cs ∉ second)
    ∧ (∀ m, Set_dct_method m ∉ second).
Proof.
  intros Hlt.
  destruct (Decode_JPEG_spec pass1 pass2 inBuffer outBuffer width height
              bufsize st) as (rem1 & rem2 & H).
  cbn zeta in H. rewrite Z.geb_leb in H.
  destruct (Z.leb_spec height (dec_output_height pass1)) as [Hle|_]; [lia|].
  destruct H as (_ & _ & _ & Htr).
  eexists _, _, _, _. split; [exact Htr|].
  assert (∀ e, e ∈ pass_events pass2 false
                     (outBuffer + rows_of pass1 * stride_of pass1)
                   ++ [Call_finish_decompress;
                       Term_source rem2 (to_size_t (0 - rem2));
                       Call_destroy_decompress] →
               (∀ cs, e ≠ Set_out_color_space cs)
               ∧ (∀ m, e ≠ Set_dct_method m)) as Hsecond.
  { intros e Hin. apply elem_of_app in Hin as [Hin|Hin].
    - apply elem_of_pass_events in Hin.
      destruct Hin as [->|[->|[(? & _)|[->|(q & ->)]]]];
        try discriminate; split; intros; discriminate.
    - repeat (apply elem_of_cons in Hin as [->|Hin];
              [split; intros; discriminate|]).
      by apply elem_of_nil in Hin. }
  assert (∀ e, e ∈ pass_events pass1 true outBuffer →
               e ∈ [Call_std_error; Call_create_decompress;
                    Build_source inBuffer bufsize]
                   ++ pass_events pass1 true outBuffer
                   ++ [Call_finish_decompress;
                       Term_source rem1 (to_size_t (bufsize - rem1))])
    as Hfirst.
  { intros e He. rewrite !elem_of_app. auto. }
  split; [|split; [|split; [|split]]].
  - apply Hfirst. unfold pass_events. rewrite !elem_of_app.
    right. right. left. apply elem_of_cons. by left.
  - apply Hfirst. unfold pass_events. rewrite !elem_of_app.
    right. right. left. apply elem_of_cons. right. apply elem_of_cons.
    by left.
  - unfold pass_events. rewrite !elem_of_app.
    left. right. right. right. left. apply elem_of_cons. by left.
  - intros cs Hin. apply Hsecond in Hin as (Hcs & _). by apply (Hcs cs).
  - intros m Hin. apply Hsecond in Hin as (_ & Hm). by apply (Hm m).
Qed.

Lemma Decode_JPEG_second_pass_keeps_codec_defaults_witness :
  ∃ first buffer2 bufsize2 second,
    trace (Decode_JPEG (field_decoder 40) (field_decoder 50) 0 0 1 2 100
                       blank).2
    = trace blank ++ first ++ Build_source buffer2 bufsize2 :: second
    ∧ Set_out_color_space JCS_RGB ∈ first
    ∧ Set_dct_method JDCT_IFAST ∈ first
    ∧ Call_start_decompress ∈ second
    ∧ (∀ cs, Set_out_color_space cs ∉ second)
    ∧ (∀ m, Set_dct_method m ∉ second).
Proof.
  apply (Decode_JPEG_second_pass_keeps_codec_defaults (field_decoder 40)
           (field_decoder 50) 0 0 1 2 100 blank).
  simpl. lia.
Defined.

Lemma src_run_app a b st : src_run (a ++ b) st = src_run b (src_run a st).
Proof. unfold src_run. apply fold_left_app. Qed.

(** What the requests do to the manager depends on the manager alone. *)
Lemma src_run_src_ext rs : ∀ s1 s2,
  src s1 = src s2 → src (src_run rs s1) = src (src_run rs s2).
Proof.
  induction rs as [|r rs IH]; intros s1 s2 H; [exact H|].
  change (src_run (r :: rs) s1) with (src_run rs (src_step s1 r)).
  change (src_run (r :: rs) s2) with (src_run rs (src_step s2 r)).
  apply IH. destruct r; simpl; rewrite H; reflexivity.
Qed.

Lemma src_stage rs s s0 acc :
  src s = src (src_run acc s0) →
  src (src_run rs s) = src (src_run (acc ++ rs) s0).
Proof.
  intros H. rewrite src_run_app. apply src_run_src_ext. exact H.
Qed.

Lemma read_rows_src p rs n : ∀ y out s s0 acc,
  src s = src (src_run acc s0) →
  src (snd (read_rows n y p rs out s))
  = src (src_run (acc ++ concat (map (dec_scanline p)
                                      (seqZ y (Z.of_nat n)))) s0).
Proof.
  induction n as [|n IH]; intros y out s s0 acc H.
  - simpl. rewrite app_nil_r. exact H.
  - change (read_rows (Datatypes.S n) y p rs out s)
      with (read_rows n (y + 1) p rs (out + rs)
              (jpeg_read_scanlines p y out s)).
    rewrite (IH (y + 1) (out + rs) _ s0 (acc ++ dec_scanline p y)).
    + rewrite (seqZ_cons y (Z.of_nat (Datatypes.S n))) by lia.
      replace (Z.pred (Z.of_nat (Datatypes.S n))) with (Z.of_nat n) by lia.
      replace (Z.succ y) with (y + 1) by lia.
      simpl. rewrite <- app_assoc. reflexivity.
    + unfold jpeg_read_scanlines. apply src_stage. exact H.
Qed.

Lemma jpeg_finish_decompress_explicit p st :
  let remaining := bytes_in_buffer (src (src_run (dec_finish p) st)) in
  numbytes (jpeg_finish_decompress p st) = to_size_t (numbytes st - remaining)
  ∧ trace (jpeg_finish_decompress p st)
    = trace st ++ [Call_finish_decompress;
                   Term_source remaining
                               (to_size_t (numbytes st - remaining))].
Proof.
  cbn zeta.
  unfold jpeg_finish_decompress, jpegmemsrcmgr_term_source.
  destruct (src_run_frame (dec_finish p) (emit Call_finish_decompress st))
    as (Hn & Ht & _).
  rewrite (src_run_src_ext (dec_finish p) st (emit Call_finish_decompress st))
    by reflexivity.
  simpl. rewrite Hn, Ht. simpl. rewrite <- app_assoc. done.
Qed.

(** The first teardown of [Decode_JPEG], with what was left buffered read
    off the first pass's requests. *)
Lemma Decode_JPEG_first_teardown pass1 pass2 inBuffer outBuffer width height
    bufsize st :
  let remaining1 :=
    bytes_in_buffer
      (src (src_run (decode_requests pass1)
                    (jpegmemsrcmgr_build inBuffer bufsize st))) in
  ∃ tail,
    source_teardowns
      (trace (Decode_JPEG pass1 pass2 inBuffer outBuffer width height
                          bufsize st).2)
    = source_teardowns (trace st)
      ++ (remaining1, to_size_t (bufsize - remaining1)) :: tail.
Proof.
  cbn zeta. unfold Decode_JPEG.
  lazymatch goal with
  | |- context [read_rows ?n ?y ?p ?rs ?o ?s] =>
      pose proof (read_rows_spec p rs n y o s) as H1;
      pose proof (read_rows_src p rs n y o s
                    (jpegmemsrcmgr_build inBuffer bufsize st)
                    (dec_header pass1 ++ dec_start pass1)) as Hsrc;
      destruct (read_rows n y p rs o s) as [o1 s1]
  end.
  cbn [fst snd] in H1, Hsrc. destruct H1 as (Ho1 & Hn1 & Ht1).
  autorewrite with frame in Hn1, Ht1.
  assert (src s1
          = src (src_run ((dec_header pass1 ++ dec_start pass1)
                          ++ concat (map (dec_scanline pass1)
                                         (seqZ 0 (rows_of pass1))))
                         (jpegmemsrcmgr_build inBuffer bufsize st))) as Hs1.
  { replace (rows_of pass1)
      with (Z.of_nat (Z.to_nat (to_size_t (dec_output_height pass1))))
      by (unfold rows_of, to_size_t;
          pose proof (Z.mod_pos_bound (dec_output_height pass1) (2 ^ 64));
          lia).
    apply Hsrc. unfold jpeg_start_decompress. apply src_stage.
    rewrite <- (app_nil_l (dec_header pass1)).
    destruct (dec_has_tables pass1);
      unfold jpeg_read_header, jpegmemsrcmgr_init_source;
      apply src_stage; reflexivity. }
  destruct (jpeg_finish_decompress_explicit pass1 s1) as (Hfn1 & Hft1).
  rewrite (src_stage (dec_finish pass1) s1 _ _ Hs1) in Hfn1, Hft1.
  replace (((dec_header pass1 ++ dec_start pass1)
            ++ concat (map (dec_scanline pass1) (seqZ 0 (rows_of pass1))))
           ++ dec_finish pass1)
    with (decode_requests pass1) in Hfn1, Hft1
    by (unfold decode_requests; rewrite <- !app_assoc; reflexivity).
  rewrite Hn1 in Hfn1, Hft1. rewrite Ht1 in Hft1.
  assert (source_teardowns (trace (jpeg_finish_decompress pass1 s1))
          = source_teardowns (trace st)
            ++ [(bytes_in_buffer
                   (src (src_run (decode_requests pass1)
                                 (jpegmemsrcmgr_build inBuffer bufsize st))),
                 to_size_t
                   (bufsize
                    - bytes_in_buffer
                        (src (src_run (decode_requests pass1)
                                      (jpegmemsrcmgr_build inBuffer bufsize
                                                           st)))))]) as Hfirst.
  { rewrite Hft1. unfold source_teardowns. rewrite !omap_app.
    rewrite (omap_rows _ (λ k, Call_read_scanlines _ 1)) by done.
    destruct (dec_has_tables pass1); simpl; rewrite ?app_nil_r; reflexivity. }
  destruct (dec_output_height pass1 >=? height).
  - exists []. cbn [fst snd]. exact Hfirst.
  - lazymatch goal with
    | |- context [read_rows ?n ?y ?p ?rs ?o ?s] =>
        pose proof (read_rows_spec p rs n y o s) as H2;
        destruct (read_rows n y p rs o s) as [o2 s2]
    end.
    cbn [fst snd] in H2. destruct H2 as (_ & _ & Ht2).
    autorewrite with frame in Ht2.
    destruct (jpeg_finish_decompress_spec pass2 s2) as (rem2 & _ & Hft2).
    cbn [fst snd]. rewrite trace_emit, Hft2, Ht2.
    eexists. unfold source_teardowns in *. rewrite !omap_app.
    rewrite Hfirst.
    rewrite (omap_rows _ (λ k, Call_read_scanlines _ 1)) by done.
    destruct (dec_has_tables pass2); simpl; rewrite ?app_nil_r;
      rewrite <- !app_assoc; reflexivity.
Qed.

(** In a two-field decode the second adapter is built from the counter the
    first teardown left: the capacity less what the first pass's requests
    left buffered. *)
Lemma Decode_JPEG_second_build pass1 pass2 inBuffer outBuffer width height
    bufsize st :
  dec_output_height pass1 < height →
  let remaining1 :=
    bytes_in_buffer
      (src (src_run (decode_requests pass1)
                    (jpegmemsrcmgr_build inBuffer bufsize st))) in
  let used1 := to_size_t (bufsize - remaining1) in
  source_builds
    (trace (Decode_JPEG pass1 pass2 inBuffer outBuffer width height
                        bufsize st).2)
  = source_builds (trace st)
    ++ [(inBuffer, bufsize); (inBuffer + used1, to_size_t (bufsize - used1))].
Proof.
  intros Hlt. cbn zeta.
  destruct (Decode_JPEG_teardowns pass1 pass2 inBuffer outBuffer width height
              bufsize st Hlt) as (rem1 & rem2 & Hb & Ht & _).
  cbn zeta in Hb, Ht. rewrite Hb.
  (* the first teardown, read off the code *)
  assert (∃ tail, source_teardowns
            (trace (Decode_JPEG pass1 pass2 inBuffer outBuffer width height
                                bufsize st).2)
          = source_teardowns (trace st)
            ++ (bytes_in_buffer
                  (src (src_run (decode_requests pass1)
                                (jpegmemsrcmgr_build inBuffer bufsize st))),
                to_size_t
                  (bufsize
                   - bytes_in_buffer
                       (src (src_run (decode_requests pass1)
                                     (jpegmemsrcmgr_build inBuffer bufsize st)))))
               :: tail) as (tail & Ht').
  { apply Decode_JPEG_first_teardown. }
  rewrite Ht in Ht'. apply app_inv_head in Ht'.
  injection Ht' as -> _. reflexivity.
Qed.

(** X15 ([Decode_JPEG], [jpegmemsrcmgr_build]).  On the two-stream path,
    with a codec that stays within the data, the second source manager is
    built at the cursor the first stream stopped at and with the count
    that remained there; it lies inside the compressed buffer and ends
    where that ends. *)
Theorem Decode_JPEG_second_stream_starts_at_cursor pass1 pass2 inBuffer
    outBuffer width height bufsize st :
  dec_output_height pass1 < height →
  2 <= bufsize <= SIZE_MAX →
  src_orderly bufsize (decode_requests pass1) = true →
  let stop := src (src_run (decode_requests pass1)
                           (jpegmemsrcmgr_build inBuffer bufsize st)) in
  source_builds
    (trace (Decode_JPEG pass1 pass2 inBuffer outBuffer width height
                        bufsize st).2)
  = source_builds (trace st)
    ++ [(inBuffer, bufsize); (next_input_byte stop, bytes_in_buffer stop)]
  ∧ inBuffer <= next_input_byte stop
  ∧ next_input_byte stop + bytes_in_buffer stop = inBuffer + bufsize
  ∧ 0 <= bytes_in_buffer stop.
Proof.
  intros Hlt Hb Hord. cbn zeta.
  rewrite Decode_JPEG_second_build by done. cbn zeta.
  destruct (src_run_orderly (decode_requests pass1)
              (jpegmemsrcmgr_build inBuffer bufsize st))
    as (I1 & I2 & _); [done|simpl; lia|].
  simpl in I1, I2. unfold SIZE_MAX in *.
  rewrite (to_size_t_small (bufsize - _)) by lia.
  rewrite to_size_t_small by lia.
  split; [|lia]. do 4 f_equal; lia.
Qed.

Lemma Decode_JPEG_second_stream_starts_at_cursor_witness :
  source_builds
    (trace (Decode_JPEG (field_decoder 40) (field_decoder 50) 0 0 1 2 100
                        blank).2)
  = [(0, 100); (40, 60)].
Proof.
  destruct (Decode_JPEG_second_stream_starts_at_cursor (field_decoder 40)
              (field_decoder 50) 0 0 1 2 100 blank) as (H & _);
    [simpl; lia | unfold SIZE_MAX; lia | reflexivity |].
  exact H.
Defined.

(** ** Destination adapter: what the counter counts *)

Lemma bytes_put_app a b : bytes_put (a ++ b) = bytes_put a + bytes_put b.
Proof.
  induction a as [|r a IH]; [done|].
  simpl. destruct r; rewrite IH; lia.
Qed.

Lemma dest_run_app a b st : dest_run (a ++ b) st = dest_run b (dest_run a st).
Proof. unfold dest_run. apply fold_left_app. Qed.

(** The codec's puts move the pointer on and lower the free count, modulo
    the width of [size_t]; nothing else moves them. *)
Lemma dest_run_advances rs : ∀ st,
  next_output_byte (dest (dest_run rs st))
  = next_output_byte (dest st) + bytes_put rs
  ∧ to_size_t (free_in_buffer (dest (dest_run rs st)))
    = to_size_t (free_in_buffer (dest st) - bytes_put rs).
Proof.
  induction rs as [|r rs IH]; intros st.
  - simpl. split; [lia|]. f_equal. lia.
  - change (dest_run (r :: rs) st) with (dest_run rs (dest_step st r)).
    destruct (IH (dest_step st r)) as (-> & ->).
    destruct r as [n|]; simpl.
    + split; [lia|]. unfold to_size_t.
      rewrite Zminus_mod_idemp_l. f_equal. lia.
    + split; [lia|]. f_equal.
Qed.

Lemma dest_orderly_bound rs : ∀ free,
  0 <= free → dest_orderly free rs = true → 0 <= bytes_put rs <= free.
Proof.
  induction rs as [|r rs IH]; intros free Hf H; simpl in *; [lia|].
  destruct r as [n|].
  - apply andb_prop in H as [H Hrest]. apply andb_prop in H as [H0 Hn].
    apply Z.leb_le in H0, Hn.
    specialize (IH (free - n) ltac:(lia) Hrest). lia.
  - apply IH; done.
Qed.

(** What the puts do to the manager depends on the manager alone. *)
Lemma dest_run_dest_ext rs : ∀ s1 s2,
  dest s1 = dest s2 → dest (dest_run rs s1) = dest (dest_run rs s2).
Proof.
  induction rs as [|r rs IH]; intros s1 s2 H; [exact H|].
  change (dest_run (r :: rs) s1) with (dest_run rs (dest_step s1 r)).
  change (dest_run (r :: rs) s2) with (dest_run rs (dest_step s2 r)).
  apply IH. destruct r; simpl; rewrite H; reflexivity.
Qed.

Lemma dest_stage rs s s0 acc :
  dest s = dest (dest_run acc s0) →
  dest (dest_run rs s) = dest (dest_run (acc ++ rs) s0).
Proof.
  intros H. rewrite dest_run_app. apply dest_run_dest_ext. exact H.
Qed.

Lemma write_rows_dest p rs n : ∀ y inp s s0 acc,
  dest s = dest (dest_run acc s0) →
  dest (snd (write_rows n y p rs inp s))
  = dest (dest_run (acc ++ concat (map (enc_scanline p)
                                        (seqZ y (Z.of_nat n)))) s0).
Proof.
  induction n as [|n IH]; intros y inp s s0 acc H.
  - simpl. rewrite app_nil_r. exact H.
  - change (write_rows (Datatypes.S n) y p rs inp s)
      with (write_rows n (y + 1) p rs (inp + rs)
              (jpeg_write_scanlines p y inp s)).
    rewrite (IH (y + 1) (inp + rs) _ s0 (acc ++ enc_scanline p y)).
    + rewrite (seqZ_cons y (Z.of_nat (Datatypes.S n))) by lia.
      replace (Z.pred (Z.of_nat (Datatypes.S n))) with (Z.of_nat n) by lia.
      replace (Z.succ y) with (y + 1) by lia.
      simpl. rewrite <- app_assoc. reflexivity.
    + unfold jpeg_write_scanlines. apply dest_stage. exact H.
Qed.

(** The manager at the moment [Compress_JPEG] is done with the codec: the
    one it built, after all the requests of the pass. *)
Lemma Compress_JPEG_dest p quality outbuffer inBuffer width height bufsize st :
  dest (Compress_JPEG p quality outbuffer inBuffer width height bufsize st)
  = dest (dest_run (encode_requests p (to_size_t (to_uint height)))
                   (jpegmemdestmgr_build outbuffer bufsize st)).
Proof.
  unfold Compress_JPEG. cbn zeta.
  destruct (fill_marker 60 _ (to_uchar 32) _) as [m1 i1].
  destruct (fill_marker 60 0 (to_uchar 0) m1) as [m2 i2].
  lazymatch goal with
  | |- context [write_rows ?n ?y ?q ?rs ?o ?s] =>
      pose proof (write_rows_dest q rs n y o s
                    (jpegmemdestmgr_build outbuffer bufsize st)
                    (enc_start p ++ enc_marker_app p ++ enc_marker_com p))
        as Hrows;
      destruct (write_rows n y q rs o s) as [o1 s1]
  end.
  cbn [snd] in Hrows.
  change (dest (emit Call_destroy_compress (jpeg_finish_compress p s1)))
    with (dest (dest_run (enc_finish p) (emit Call_finish_compress s1))).
  rewrite (dest_stage (enc_finish p) _
             (jpegmemdestmgr_build outbuffer bufsize st)
             ((enc_start p ++ enc_marker_app p ++ enc_marker_com p)
              ++ concat (map (enc_scanline p)
                             (seqZ 0 (to_size_t (to_uint height)))))).
  - unfold encode_requests. rewrite <- !app_assoc. reflexivity.
  - change (dest (emit Call_finish_compress s1)) with (dest s1).
    replace (to_size_t (to_uint height))
      with (Z.of_nat (Z.to_nat (to_size_t (to_uint height))))
      by (unfold to_size_t;
          pose proof (Z.mod_pos_bound (to_uint height) (2 ^ 64)); lia).
    apply Hrows.
    unfold jpeg_write_marker.
    rewrite (app_assoc (enc_start p)).
    apply dest_stage. apply dest_stage.
    rewrite <- (app_nil_l (enc_start p)).
    unfold jpeg_start_compress, jpegmemdestmgr_init_destination.
    apply dest_stage. reflexivity.
Qed.

Lemma Compress_JPEG_counter p quality outbuffer inBuffer width height
    bufsize st :
  numbytes (Compress_JPEG p quality outbuffer inBuffer width height bufsize st)
  = to_size_t
      (bufsize
       - free_in_buffer
           (dest (Compress_JPEG p quality outbuffer inBuffer width height
                                bufsize st))).
Proof.
  unfold Compress_JPEG. cbn zeta.
  destruct (fill_marker 60 _ (to_uchar 32) _) as [m1 i1].
  destruct (fill_marker 60 0 (to_uchar 0) m1) as [m2 i2].
  lazymatch goal with
  | |- context [write_rows ?n ?y ?q ?rs ?o ?s] =>
      pose proof (write_rows_spec q rs n y o s) as Hfr;
      destruct (write_rows n y q rs o s) as [o1 s1]
  end.
  cbn [fst snd] in Hfr. destruct Hfr as (_ & Hnb & _).
  autorewrite with frame in Hnb.
  unfold jpeg_finish_compress, jpegmemdestmgr_term_destination.
  destruct (dest_run_frame (enc_finish p) (emit Call_finish_compress s1))
    as (Hn & _).
  simpl. rewrite Hn. simpl. rewrite Hnb. reflexivity.
Qed.

Lemma Compress_JPEG_put_total p quality outbuffer inBuffer width height
    bufsize st :
  numbytes (Compress_JPEG p quality outbuffer inBuffer width height bufsize st)
  = to_size_t (bytes_put (encode_requests p (to_size_t (to_uint height))))
  ∧ next_output_byte
      (dest (Compress_JPEG p quality outbuffer inBuffer width height
                           bufsize st))
    = outbuffer + bytes_put (encode_requests p (to_size_t (to_uint height))).
Proof.
  pose proof (Compress_JPEG_dest p quality outbuffer inBuffer width height
                bufsize st) as Hd.
  destruct (dest_run_advances (encode_requests p (to_size_t (to_uint height)))
              (jpegmemdestmgr_build outbuffer bufsize st)) as (Hnext & Hfree).
  rewrite <- Hd in Hnext, Hfree. simpl in Hnext, Hfree.
  split; [|done].
  rewrite Compress_JPEG_counter. unfold to_size_t in *.
  rewrite <- Zminus_mod_idemp_r, Hfree, Zminus_mod_idemp_r.
  f_equal. lia.
Qed.

Lemma Compress_JPEG_orderly_total p quality outbuffer inBuffer width height
    bufsize st :
  0 <= bufsize <= SIZE_MAX →
  dest_orderly bufsize (encode_requests p (to_size_t (to_uint height))) = true →
  numbytes (Compress_JPEG p quality outbuffer inBuffer width height bufsize st)
  = bytes_put (encode_requests p (to_size_t (to_uint height)))
  ∧ 0 <= bytes_put (encode_requests p (to_size_t (to_uint height))) <= bufsize.
Proof.
  intros Hb Hord.
  destruct (Compress_JPEG_put_total p quality outbuffer inBuffer width height
              bufsize st) as (Hn & _).
  pose proof (dest_orderly_bound _ _ (proj1 Hb) Hord) as Hbound.
  rewrite Hn. unfold SIZE_MAX in *.
  rewrite to_size_t_small by lia. done.
Qed.

(** X9 ([Compress_JPEG], [jpegmemdestmgr_build],
    [jpegmemdestmgr_term_destination]).  After [Compress_JPEG] the counter
    [numbytes] is the number of bytes the codec put, whatever the capacity
    was, and the cursor has advanced by as much: the destination manager
    does not stop a codec that puts more than [bufsize], and the counter
    then exceeds [bufsize]. *)
Theorem Compress_JPEG_counts_bytes_put p quality outbuffer inBuffer width
    height bufsize st :
  let st' := Compress_JPEG p quality outbuffer inBuffer width height
                           bufsize st in
  let total := bytes_put (encode_requests p (to_size_t (to_uint height))) in
  numbytes st' = to_size_t total
  ∧ next_output_byte (dest st') = outbuffer + total
  ∧ (0 <= bufsize < total → total < 2 ^ 64 → bufsize < numbytes st').
Proof.
  cbn zeta.
  destruct (Compress_JPEG_put_total p quality outbuffer inBuffer width height
              bufsize st) as (Hn & Hp).
  split; [done|]. split; [done|].
  intros Hover Hlt. rewrite Hn, to_size_t_small by lia. lia.
Qed.

Lemma Compress_JPEG_counts_bytes_put_witness :
  numbytes (Compress_JPEG (field_encoder 70) 90 0 0 1 1 50 blank) = 70.
Proof.
  destruct (Compress_JPEG_counts_bytes_put (field_encoder 70) 90 0 0 1 1 50
              blank) as (Hn & _ & Hover).
  assert (50 < numbytes (Compress_JPEG (field_encoder 70) 90 0 0 1 1 50 blank))
    as _ by (apply Hover; vm_compute; [split; [discriminate|reflexivity]|reflexivity]).
  exact Hn.
Defined.

(** ** Encode entry point: rows fed, failure, and the length reported *)

Lemma write_scanline_pointers_Compress p quality outbuffer inBuffer width
    height bufsize st :
  write_scanline_pointers
    (trace (Compress_JPEG p quality outbuffer inBuffer width height bufsize st))
  = write_scanline_pointers (trace st)
    ++ map (λ k, inBuffer + k * to_size_t (to_uint (to_uint width * 3)))
           (seqZ 0 (to_size_t (to_uint height))).
Proof.
  destruct (Compress_JPEG_spec p quality outbuffer inBuffer width height
              bufsize st) as (rem & _ & ->).
  unfold write_scanline_pointers. rewrite !omap_app. simpl.
  rewrite app_nil_r. f_equal.
  induction (seqZ 0 (to_size_t (to_uint height))) as [|k l IH]; [done|].
  simpl. f_equal. exact IH.
Qed.

Lemma uint_stride_small width :
  0 <= width → width * 3 <= INT_MAX →
  to_size_t (to_uint (to_uint width * 3)) = width * 3.
Proof.
  unfold INT_MAX. intros H0 H1. unfold to_uint.
  rewrite (Z.mod_small width) by lia. rewrite Z.mod_small by lia.
  apply to_size_t_small. lia.
Qed.

Lemma uint_rows_small height :
  0 <= height <= INT_MAX → to_size_t (to_uint height) = height.
Proof.
  unfold INT_MAX. intros H. unfold to_uint.
  rewrite Z.mod_small by lia. apply to_size_t_small. lia.
Qed.

(** X10 ([avi_converter_to_mjpeg], [Compress_JPEG]).  The encode entry
    point hands the rows of the pixel buffer to the codec one at a time and
    in order: rows 0 to [Height - 1] for a progressive frame, rows 0 to
    [2 * (Height / 2) - 1] of the field-split buffer for an interlaced
    one. *)
Theorem encode_feeds_rows_in_order pass1 pass2 movie (buffer : buffer)
    size st :
  0 <= Movie.Width movie → Movie.Width movie * 3 <= INT_MAX →
  0 <= Movie.Height movie <= INT_MAX →
  buflen buffer = Movie.Height movie * Movie.Width movie * 3 →
  ∃ r,
    avi_converter_to_mjpeg true true pass1 pass2 movie buffer size st = Some r
    ∧ buflen (pixels r) = Movie.Height movie * Movie.Width movie * 3
    ∧ write_scanline_pointers (trace (final r))
      = write_scanline_pointers (trace st)
        ++ map (λ k, k * (Movie.Width movie * 3))
               (seqZ 0 (if Movie.interlace movie =? 0
                        then Movie.Height movie
                        else 2 * (Movie.Height movie / 2))).
Proof.
  intros Hw Hs Hh Lb.
  assert (0 <= Movie.Height movie / 2 <= INT_MAX) as Hhalf
    by (unfold INT_MAX in *; Z.to_euclidean_division_equations; lia).
  destruct (Z.eqb_spec (Movie.interlace movie) 0) as [Hp|Hi].
  - rewrite avi_converter_to_mjpeg_progressive by done. cbn zeta.
    eexists. split; [reflexivity|]. cbn [pixels final]. split; [done|].
    rewrite write_scanline_pointers_Compress.
    rewrite uint_stride_small, uint_rows_small by done.
    reflexivity.
  - destruct (avi_converter_to_mjpeg_interlaced pass1 pass2 movie buffer
                size st) as (split & _ & Ls & ->); [done..|].
    cbn zeta. eexists. split; [reflexivity|]. cbn [pixels final].
    split; [done|].
    rewrite write_scanline_pointers_Compress, trace_set_numbytes.
    rewrite write_scanline_pointers_Compress, trace_set_numbytes.
    rewrite uint_stride_small, uint_rows_small by done.
    rewrite <- app_assoc. f_equal.
    replace (2 * (Movie.Height movie / 2))
      with (Movie.Height movie / 2 + Movie.Height movie / 2) by lia.
    rewrite seqZ_app by lia. rewrite map_app.
    apply (f_equal2 app); [reflexivity|].
    rewrite Z.add_0_l.
    replace (seqZ (Movie.Height movie / 2) (Movie.Height movie / 2))
      with (seqZ (Movie.Height movie / 2 + 0) (Movie.Height movie / 2))
      by (f_equal; lia).
    rewrite <- fmap_add_seqZ. rewrite <- list_fmap_compose.
    apply list_fmap_ext. intros _ k _. simpl. lia.
Qed.

Lemma encode_feeds_rows_in_order_witness :
  ∃ r,
    avi_converter_to_mjpeg true true idle_encoder idle_encoder
      {| Movie.Width := 1; Movie.Height := 3; Movie.Quality := 9050;
         Movie.interlace := 1; Movie.odd_fields := 1 |}
      [x01; x02; x03; x04; x05; x06; x07; x08; x09] 100 blank = Some r
    ∧ write_scanline_pointers (trace (final r)) = [0; 3].
Proof.
  destruct (encode_feeds_rows_in_order idle_encoder idle_encoder
              {| Movie.Width := 1; Movie.Height := 3; Movie.Quality := 9050;
                 Movie.interlace := 1; Movie.odd_fields := 1 |}
              [x01; x02; x03; x04; x05; x06; x07; x08; x09] 100 blank)
    as (r & E & _ & Htr);
    [simpl; lia | unfold INT_MAX; simpl; lia | unfold INT_MAX; simpl; lia
    | reflexivity |].
  exists r. split; [exact E | exact Htr].
Defined.



(** Puts that stay within the capacity stay within a block that holds the
    capacity from the cursor on. *)
Lemma dest_orderly_within rs : ∀ free cursor block,
  0 <= cursor → cursor + free <= block →
  dest_orderly free rs = true → puts_within block cursor rs = true.
Proof.
  induction rs as [|r rs IH]; intros free cursor block Hc Hfit H;
    simpl in *; [done|].
  destruct r as [n|].
  - apply andb_prop in H as [H Hrest]. apply andb_prop in H as [H0 Hn].
    apply Z.leb_le in H0, Hn.
    rewrite (proj2 (Z.leb_le 0 cursor)) by lia.
    rewrite (proj2 (Z.leb_le 0 n)) by lia.
    rewrite (proj2 (Z.leb_le (cursor + n) block)) by lia.
    apply (IH (free - n)); [lia|lia|done].
  - apply (IH free); done.
Qed.

(** Puts that add up to more than the block holds from the cursor on do
    not stay within it. *)
Lemma puts_beyond_block rs : ∀ free cursor block,
  dest_orderly free rs = true →
  cursor <= block → block < cursor + bytes_put rs →
  puts_within block cursor rs = false.
Proof.
  induction rs as [|r rs IH]; intros free cursor block H Hin Hover;
    simpl in *; [lia|].
  destruct r as [n|].
  - apply andb_prop in H as [H Hrest]. apply andb_prop in H as [H0 Hn].
    apply Z.leb_le in H0, Hn.
    destruct (Z.leb_spec (cursor + n) block) as [Hfit|Hno].
    + rewrite (IH (free - n)) by (done || lia).
      apply andb_false_r.
    + rewrite andb_false_r. reflexivity.
  - apply (IH free); done.
Qed.

(** X12 ([avi_converter_to_mjpeg], [Compress_JPEG]).  When the [size]
    passed is no more than the [Height * Width * 3] bytes of the output
    block and each encoder pass puts no more than its capacity ([size] for
    a progressive frame, [size / 2] for each field), the entry point
    succeeds, the size it stores is the number of bytes put (the sum over
    the two fields), which is at most the [size] it was given, and every
    byte the codec stored lies in the output block. *)
Theorem encode_length_within_capacity pass1 pass2 movie (buffer : buffer)
    size st :
  0 <= size <= SIZE_MAX →
  size <= Movie.Height movie * Movie.Width movie * 3 →
  0 <= Movie.Width movie → Movie.Width movie * 3 <= INT_MAX →
  0 <= Movie.Height movie <= INT_MAX →
  buflen buffer = Movie.Height movie * Movie.Width movie * 3 →
  let progressive := Movie.interlace movie =? 0 in
  let rows := if progressive then Movie.Height movie
              else Movie.Height movie / 2 in
  let capacity := if progressive then size else size / 2 in
  dest_orderly capacity (encode_requests pass1 rows) = true →
  (progressive = false →
   dest_orderly capacity (encode_requests pass2 rows) = true) →
  ∃ r,
    avi_converter_to_mjpeg true true pass1 pass2 movie buffer size st = Some r
    ∧ size_out r
      = (if progressive then bytes_put (encode_requests pass1 rows)
         else bytes_put (encode_requests pass1 rows)
              + bytes_put (encode_requests pass2 rows))
    ∧ 0 <= size_out r <= size
    ∧ in_block r = true.
Proof.
  intros Hsz Hblock Hw Hs Hh Lb. cbn zeta.
  assert (0 <= Movie.Height movie / 2 <= INT_MAX) as Hhalf
    by (unfold INT_MAX in *; Z.to_euclidean_division_equations; lia).
  assert (0 <= size / 2 <= SIZE_MAX ∧ size / 2 + size / 2 <= size) as (Hc & Hsum)
    by (unfold SIZE_MAX in *; Z.to_euclidean_division_equations; lia).
  destruct (Z.eqb_spec (Movie.interlace movie) 0) as [Hp|Hi]; intros H1 H2.
  - rewrite avi_converter_to_mjpeg_progressive by done. cbn zeta.
    eexists. split; [reflexivity|]. cbn [size_out in_block].
    destruct (Compress_JPEG_orderly_total pass1 (Movie.Quality movie ÷ 100)
                0 0 (Movie.Width movie) (Movie.Height movie) size
                (set_numbytes 0 st)) as (-> & Hb); [done| |].
    { rewrite uint_rows_small by done. exact H1. }
    unfold stored_within.
    rewrite uint_rows_small in * by done.
    unfold SIZE_MAX in *. rewrite Z.add_0_l, to_size_t_small by lia.
    split; [reflexivity|]. split; [lia|].
    apply (dest_orderly_within _ size); [lia|lia|done].
  - specialize (H2 eq_refl).
    destruct (avi_converter_to_mjpeg_interlaced pass1 pass2 movie buffer
                size st) as (split & _ & _ & ->); [done..|].
    cbn zeta. eexists. split; [reflexivity|]. cbn [size_out in_block].
    destruct (Compress_JPEG_orderly_total pass1 (Movie.Quality movie ÷ 100)
                0 0 (Movie.Width movie) (Movie.Height movie / 2) (size / 2)
                (set_numbytes 0 st)) as (E1 & Hb1); [done| |].
    { rewrite uint_rows_small by done. exact H1. }
    rewrite E1.
    match goal with
    | |- context [numbytes (Compress_JPEG pass2 ?q ?o ?i ?w ?h ?n ?s)] =>
        destruct (Compress_JPEG_orderly_total pass2 q o i w h n s)
          as (E2 & Hb2); [done| |]
    end.
    { rewrite uint_rows_small by done. exact H2. }
    rewrite E2. unfold stored_within.
    rewrite uint_rows_small in * by done.
    unfold SIZE_MAX in *. rewrite to_size_t_small by lia.
    split; [reflexivity|]. split; [lia|].
    apply andb_true_intro. split.
    + apply (dest_orderly_within _ (size / 2)); [lia|lia|done].
    + apply (dest_orderly_within _ (size / 2)); [lia|lia|done].
Qed.

Lemma encode_length_within_capacity_witness :
  ∃ r, avi_converter_to_mjpeg true true (field_encoder 2) (field_encoder 3)
         {| Movie.Width := 1; Movie.Height := 2; Movie.Quality := 9050;
            Movie.interlace := 1; Movie.odd_fields := 1 |}
         [x01;x02;x03;x04;x05;x06] 6 blank = Some r
       ∧ size_out r = 5
       ∧ in_block r = true.
Proof.
  destruct (encode_length_within_capacity (field_encoder 2) (field_encoder 3)
              {| Movie.Width := 1; Movie.Height := 2; Movie.Quality := 9050;
                 Movie.interlace := 1; Movie.odd_fields := 1 |}
              [x01;x02;x03;x04;x05;x06] 6 blank)
    as (r & E & Hsize & _ & Hin);
    [unfold SIZE_MAX; lia | simpl; lia | simpl; lia
    | unfold INT_MAX; simpl; lia
    | unfold INT_MAX; simpl; lia | reflexivity | reflexivity
    | intros _; reflexivity |].
  exists r. split; [exact E|]. split; [exact Hsize | exact Hin].
Defined.

(** X21 ([avi_converter_to_mjpeg], [Compress_JPEG],
    [jpegmemdestmgr_build]).  The capacity given to the destination
    manager is the caller's [size], not the size of the output block: for
    a progressive frame, a codec that stays within [size] and puts more
    than [Height * Width * 3] bytes stores past the end of the block the
    entry point allocated, and the entry point still returns the block. *)
Theorem encode_overruns_output_block pass1 pass2 movie (buffer : buffer)
    size st :
  Movie.interlace movie = 0 →
  0 <= Movie.Height movie <= INT_MAX →
  0 <= Movie.Height movie * Movie.Width movie * 3 →
  dest_orderly size (encode_requests pass1 (Movie.Height movie)) = true →
  Movie.Height movie * Movie.Width movie * 3
    < bytes_put (encode_requests pass1 (Movie.Height movie)) →
  ∃ r,
    avi_converter_to_mjpeg true true pass1 pass2 movie buffer size st = Some r
    ∧ returned r = true
    ∧ in_block r = false.
Proof.
  intros Hp Hh Hblock Hord Hover.
  rewrite avi_converter_to_mjpeg_progressive by done. cbn zeta.
  eexists. split; [reflexivity|]. cbn [returned in_block].
  split; [reflexivity|]. unfold stored_within.
  rewrite uint_rows_small by done.
  apply (puts_beyond_block _ size); [done|lia|lia].
Qed.

Lemma encode_overruns_output_block_witness :
  ∃ r, avi_converter_to_mjpeg true true (field_encoder 100) idle_encoder
         {| Movie.Width := 1; Movie.Height := 2; Movie.Quality := 9050;
            Movie.interlace := 0; Movie.odd_fields := 0 |}
         [x01;x02;x03;x04;x05;x06] 100 blank = Some r
       ∧ returned r = true
       ∧ in_block r = false.
Proof.
  apply (encode_overruns_output_block (field_encoder 100) idle_encoder
           {| Movie.Width := 1; Movie.Height := 2; Movie.Quality := 9050;
              Movie.interlace := 0; Movie.odd_fields := 0 |}
           [x01;x02;x03;x04;x05;x06] 100 blank);
    [reflexivity | unfold INT_MAX; simpl; lia | simpl; lia | reflexivity
    | simpl; lia].
Defined.

(** ** Decode entry point *)

Lemma length_pixel_row (f : Z → byte) S : 0 <= S → buflen (map f (seqZ 0 S)) = S.
Proof.
  intros H. unfold buflen. rewrite length_map, length_seqZ. lia.
Qed.

(** Storing one decoded row: the target row becomes the row, every other
    row is kept. *)
Lemma memcpy_store_row to data S H rd :
  0 <= S → 0 <= rd < H →
  buflen to = H * S → buflen data = S →
  ∃ out, memcpy to (rd * S) data 0 S = Some out
         ∧ buflen out = H * S
         ∧ row out S rd = data
         ∧ ∀ r, 0 <= r < H → r ≠ rd → row out S r = row to S r.
Proof.
  unfold buflen. intros HS Hrd Lto Ld.
  assert (rd * S + S <= H * S) as Bd by nia.
  assert (0 <= rd * S) as Pd by nia.
  unfold memcpy, buflen.
  rewrite (proj2 (Z.leb_le 0 (rd * S))) by lia.
  rewrite (proj2 (Z.leb_le 0 0)) by lia.
  rewrite (proj2 (Z.leb_le 0 S)) by lia.
  rewrite (proj2 (Z.leb_le (rd * S + S) _)) by lia.
  rewrite (proj2 (Z.leb_le (0 + S) _)) by lia.
  simpl. eexists. split; [reflexivity|].
  rewrite !Z2Nat.inj_mul by lia.
  assert (Z.to_nat rd * Z.to_nat S + Z.to_nat S ≤ length to)%nat as Nd by nia.
  assert (0 * Z.to_nat S + Z.to_nat S ≤ length data)%nat as Ns by lia.
  change (Z.to_nat 0) with (0 * Z.to_nat S)%nat.
  split; [|split].
  - rewrite length_splice by lia. lia.
  - rewrite row_rown by lia. rewrite rown_splice_target by done.
    unfold rown. simpl. apply take_ge. lia.
  - intros r Hr Hne. rewrite !row_rown by lia.
    apply rown_splice_other; [lia|done|done].
Qed.

Lemma store_rows_spec pix S H n : ∀ y rr buf,
  0 <= S → 0 <= rr → rr + Z.of_nat n <= H → buflen buf = H * S →
  ∃ out, store_rows n y pix S (rr * S) buf = Some out
         ∧ buflen out = H * S
         ∧ (∀ k, 0 <= k < Z.of_nat n →
              row out S (rr + k) = map (pix (y + k)) (seqZ 0 S))
         ∧ (∀ r, 0 <= r < H → ¬ (rr <= r < rr + Z.of_nat n) →
              row out S r = row buf S r).
Proof.
  induction n as [|n IH]; intros y rr buf HS Hrr Hn Lb.
  - exists buf. simpl. split; [done|]. split; [done|]. split; [lia|done].
  - simpl.
    destruct (memcpy_store_row buf (map (pix y) (seqZ 0 S)) S H rr)
      as (mid & -> & Lmid & Hrow & Hoth);
      [done|lia|done|by apply length_pixel_row|].
    replace (rr * S + S) with ((rr + 1) * S) by lia.
    destruct (IH (y + 1) (rr + 1) mid) as (out & -> & Lout & Hset & Hkeep);
      [done|lia|lia|done|].
    exists out. split; [done|]. split; [done|]. split.
    + intros k Hk. destruct (decide (k = 0)) as [->|Hne].
      * rewrite Z.add_0_r. rewrite Hkeep by lia. rewrite Z.add_0_r. done.
      * replace (rr + k) with (rr + 1 + (k - 1)) by lia.
        rewrite Hset by lia. do 2 f_equal. lia.
    + intros r Hr Hout. rewrite Hkeep by lia. apply Hoth; lia.
Qed.

(** A row that does not fit is not stored. *)
Lemma store_rows_overrun pix S n : ∀ y out buf,
  0 <= S → 0 <= out → (0 < n)%nat →
  buflen buf < out + Z.of_nat n * S →
  store_rows n y pix S out buf = None.
Proof.
  induction n as [|n IH]; intros y out buf HS Hout Hn Hover; [lia|].
  simpl. unfold memcpy at 1.
  rewrite (proj2 (Z.leb_le 0 out)) by lia.
  rewrite (proj2 (Z.leb_le 0 0)) by lia.
  rewrite (proj2 (Z.leb_le 0 S)) by lia.
  rewrite (proj2 (Z.leb_le (0 + S) _))
    by (rewrite length_pixel_row; lia).
  destruct (Z.leb_spec (out + S) (buflen buf)) as [Hfit|Hno]; [|done].
  simpl. destruct n as [|n']; [lia|].
  apply IH; [done|lia|lia|].
  unfold buflen in *. rewrite length_splice; [lia|lia|].
  pose proof (length_pixel_row (pix y) S HS). unfold buflen in *. lia.
Qed.

(** X16 ([avi_converter_from_mjpeg], [Decode_JPEG]).  The pixel buffer
    is allocated from the movie's dimensions, and the rows are stored with
    the stream's: when the first stream announces more bytes of rows than
    [Height * Width * 3], the decode entry point writes past the end of
    the buffer it allocated. *)
Theorem decode_oversized_stream_overruns alloc2 pass1 pass2 pix1 pix2 movie
    size st :
  0 <= Movie.Height movie * Movie.Width movie * 3 →
  0 < rows_of pass1 →
  Movie.Height movie * Movie.Width movie * 3
    < rows_of pass1 * stride_of pass1 →
  avi_converter_from_mjpeg true alloc2 pass1 pass2 pix1 pix2 movie size st
  = None.
Proof.
  intros Hsize Hrows Hover.
  unfold avi_converter_from_mjpeg, imb_alloc_pixels.
  destruct (Decode_JPEG _ _ _ _ _ _ _ _) as [[deint o] s].
  unfold decoded_pixels.
  rewrite store_rows_overrun; [done| | | |].
  - unfold stride_of, to_size_t. apply Z.mod_pos_bound. lia.
  - lia.
  - unfold rows_of in Hrows. lia.
  - unfold buflen. rewrite length_replicate.
    unfold rows_of in *. lia.
Qed.

Lemma decode_oversized_stream_overruns_witness :
  avi_converter_from_mjpeg true true (idle_decoder 2 3 1) (idle_decoder 2 3 1)
    (λ _ _, x00) (λ _ _, x00)
    {| Movie.Width := 1; Movie.Height := 1; Movie.Quality := 9050;
       Movie.interlace := 0; Movie.odd_fields := 0 |} 100 blank
  = None.
Proof.
  apply decode_oversized_stream_overruns; vm_compute; first [discriminate | reflexivity].
Defined.

Lemma Decode_JPEG_result pass1 pass2 inBuffer outBuffer width height bufsize st :
  (Decode_JPEG pass1 pass2 inBuffer outBuffer width height bufsize st).1.1
  = if dec_output_height pass1 >=? height then 0 else 1.
Proof.
  destruct (Decode_JPEG_spec pass1 pass2 inBuffer outBuffer width height
              bufsize st) as (rem1 & rem2 & H).
  cbn zeta in H.
  destruct (dec_output_height pass1 >=? height); destruct H as (-> & _);
    reflexivity.
Qed.

(** X17 ([avi_converter_from_mjpeg]).  When the decode entry point
    returns, its result is null exactly when the first allocation failed,
    or the frame has two streams and the second allocation failed; when
    the first allocation fails, nothing has been decoded. *)
Theorem decode_null_only_on_allocation_failure alloc1 alloc2 pass1 pass2
    pix1 pix2 movie size st d :
  avi_converter_from_mjpeg alloc1 alloc2 pass1 pass2 pix1 pix2 movie size st
  = Some d →
  (frame d = None
   ↔ alloc1 = false
     ∨ (alloc2 = false
        ∧ dec_output_height pass1 < to_uint (Movie.Height movie)))
  ∧ (alloc1 = false → after d = st).
Proof.
  unfold avi_converter_from_mjpeg, imb_alloc_pixels.
  destruct alloc1.
  - pose proof (Decode_JPEG_result pass1 pass2 0 0
                  (to_uint (Movie.Width movie))
                  (to_uint (Movie.Height movie)) size st) as Hret.
    destruct (Decode_JPEG _ _ _ _ _ _ _ _) as [[deint o] s].
    cbn [fst] in Hret.
    destruct (decoded_pixels _ _ _ _ _ _) as [buf|]; [|discriminate].
    rewrite Z.geb_leb in Hret.
    destruct (Z.leb_spec (to_uint (Movie.Height movie))
                (dec_output_height pass1)) as [Hle|Hlt]; subst deint; simpl.
    + intros [= <-]. simpl. split; [|discriminate].
      split; [discriminate|]. intros [?|[_ ?]]; [discriminate|lia].
    + destruct alloc2.
      * destruct (interlace _ _ _ _) as [b|]; [|discriminate].
        intros [= <-]. simpl. split; [|discriminate].
        split; [discriminate|]. intros [?|[? _]]; discriminate.
      * intros [= <-]. simpl. split; [|discriminate]. split; auto.
  - intros [= <-]. simpl. split; [|done]. split; auto.
Qed.

Lemma decode_null_only_on_allocation_failure_witness :
  frame {| frame := None; after := blank |} = None
  ↔ false = false
    ∨ (true = false
       ∧ dec_output_height (idle_decoder 1 3 1)
         < to_uint (Movie.Height
                      {| Movie.Width := 1; Movie.Height := 1;
                         Movie.Quality := 0; Movie.interlace := 0;
                         Movie.odd_fields := 0 |})).
Proof.
  apply (decode_null_only_on_allocation_failure false true
           (idle_decoder 1 3 1) (idle_decoder 1 3 1) (λ _ _, x00) (λ _ _, x00)
           {| Movie.Width := 1; Movie.Height := 1; Movie.Quality := 0;
              Movie.interlace := 0; Movie.odd_fields := 0 |} 100 blank).
  reflexivity.
Defined.

(** The rows that come back when a field-split buffer made by
    [deinterlace] goes through [interlace]. *)
Lemma interlace_of_deinterlaced odd X fresh1 fresh2 split width height :
  0 <= width → width * 3 <= INT_MAX → 0 <= height <= INT_MAX →
  Z.even height = true → odd = 0 ∨ odd = 1 →
  buflen X = height * width * 3 →
  buflen fresh1 = height * width * 3 →
  buflen fresh2 = height * width * 3 →
  deinterlace odd fresh1 X width height = Some split →
  ∃ back,
    interlace fresh2 split width height = Some back
    ∧ buflen back = height * width * 3
    ∧ ∀ i, 0 <= i < height →
        row back (width * 3) i
        = row X (width * 3)
              (if odd =? 1 then i else if Z.even i then i + 1 else i - 1).
Proof.
  intros Hw Hs Hh He Ho LX L1 L2 Hsplit.
  destruct (deinterlace_spec odd fresh1 X width height)
    as (mid & Ed & Lmid & Hd); [done|done|done|done|lia|lia|].
  rewrite Hsplit in Ed. injection Ed as <-.
  destruct (interlace_spec fresh2 split width height)
    as (back & Ei & Lback & Hi); [done|done|done|lia|done|].
  exists back. split; [done|]. split; [lia|].
  assert (∀ j, 0 <= j < height →
            row split (width * 3) (deinterlace_target odd height j)
            = row X (width * 3) j) as Hd'.
  { intros j Hj. apply Hd; [done|]. intros j' Hj' Heq.
    apply deinterlace_target_inj in Heq; [lia|done|done|lia|lia]. }
  apply Z.even_spec in He. destruct He as [k Hk].
  intros i Hr. rewrite Hi by done.
  destruct Ho as [-> | ->]; simpl.
  - destruct (Z.even i) eqn:Ei'.
    + apply Z.even_spec in Ei'. destruct Ei' as [a ->].
      rewrite <- Hd' by lia. f_equal.
      unfold interlace_origin, deinterlace_target.
      destruct (Z.eqb_spec ((2 * a) mod 2) 1),
               (Z.eqb_spec ((2 * a + 1) mod 2) 0);
        Z.to_euclidean_division_equations; lia.
    + assert (Z.odd i = true) as Oi by (rewrite <- Z.negb_even, Ei'; done).
      apply Z.odd_spec in Oi. destruct Oi as [a ->].
      rewrite <- Hd' by lia. f_equal.
      unfold interlace_origin, deinterlace_target.
      destruct (Z.eqb_spec ((2 * a + 1) mod 2) 1),
               (Z.eqb_spec ((2 * a + 1 - 1) mod 2) 0);
        Z.to_euclidean_division_equations; lia.
  - rewrite <- Hd' by done. reflexivity.
Qed.

Lemma to_uint_small z : 0 <= z < 2 ^ 32 → to_uint z = z.
Proof. intros H. unfold to_uint. apply Z.mod_small. exact H. Qed.

(** X18 ([avi_converter_from_mjpeg], [interlace], [deinterlace]).  For a
    frame of even height whose two streams hold the two halves of
    [deinterlace odd fresh X], the decode entry point returns a frame each
    of whose rows is a row of [X]: row [i] itself when [odd] is 1, so that
    the frame is [X], and the other row of the pair [2k], [2k + 1] when
    [odd] is 0.  The entry point does not read [odd_fields]. *)
Theorem decode_restores_field_order odd X fresh split pass1 pass2 pix1 pix2
    movie size st :
  0 <= Movie.Width movie → Movie.Width movie * 3 <= INT_MAX →
  2 <= Movie.Height movie <= INT_MAX →
  Z.even (Movie.Height movie) = true →
  odd = 0 ∨ odd = 1 →
  buflen X = Movie.Height movie * Movie.Width movie * 3 →
  buflen fresh = Movie.Height movie * Movie.Width movie * 3 →
  deinterlace odd fresh X (Movie.Width movie) (Movie.Height movie)
  = Some split →
  dec_output_width pass1 = Movie.Width movie →
  dec_output_components pass1 = 3 →
  dec_output_height pass1 = Movie.Height movie / 2 →
  dec_output_width pass2 = Movie.Width movie →
  dec_output_components pass2 = 3 →
  dec_output_height pass2 = Movie.Height movie / 2 →
  (∀ y, 0 <= y < Movie.Height movie / 2 →
     map (pix1 y) (seqZ 0 (Movie.Width movie * 3))
     = row split (Movie.Width movie * 3) y) →
  (∀ y, 0 <= y < Movie.Height movie / 2 →
     map (pix2 y) (seqZ 0 (Movie.Width movie * 3))
     = row split (Movie.Width movie * 3) (Movie.Height movie / 2 + y)) →
  ∃ d out,
    avi_converter_from_mjpeg true true pass1 pass2 pix1 pix2 movie size st
    = Some d
    ∧ frame d = Some out
    ∧ buflen out = Movie.Height movie * Movie.Width movie * 3
    ∧ (∀ i, 0 <= i < Movie.Height movie →
         row out (Movie.Width movie * 3) i
         = row X (Movie.Width movie * 3)
               (if odd =? 1 then i else if Z.even i then i + 1 else i - 1))
    ∧ (odd = 1 → out = X).
Proof.
  set (W := Movie.Width movie). set (H := Movie.Height movie).
  intros Hw Hs Hh He Ho LX Lf Hsplit W1 C1 H1 W2 C2 H2 P1 P2.
  unfold INT_MAX in *.
  assert (H = 2 * (H / 2)) as Hk.
  { apply Z.even_spec in He. destruct He as [k Hk]. rewrite Hk.
    Z.to_euclidean_division_equations; lia. }
  assert (stride_of pass1 = W * 3) as S1.
  { unfold stride_of. rewrite W1, C1, to_uint_small by lia.
    apply to_size_t_small. lia. }
  assert (stride_of pass2 = W * 3) as S2.
  { unfold stride_of. rewrite W2, C2, to_uint_small by lia.
    apply to_size_t_small. lia. }
  assert (to_size_t (H / 2) = H / 2) as Hz by (apply to_size_t_small; lia).
  assert (to_uint H = H) as Hu by (apply to_uint_small; lia).
  assert (buflen split = H * (W * 3)) as Lsplit.
  { destruct (deinterlace_spec odd fresh X W H)
      as (mid & Ed & Lmid & _);
      [done|done|unfold INT_MAX; lia|done|lia|lia|].
    fold W H in Hsplit. rewrite Hsplit in Ed. injection Ed as <-. lia. }
  unfold avi_converter_from_mjpeg, imb_alloc_pixels. fold W H.
  pose proof (Decode_JPEG_result pass1 pass2 0 0 (to_uint W) (to_uint H)
                size st) as Hret.
  destruct (Decode_JPEG _ _ _ _ _ _ _ _) as [[deint o] s].
  cbn [fst] in Hret. rewrite H1, Hu in Hret. fold H in Hret.
  rewrite Z.geb_leb in Hret.
  destruct (Z.leb_spec H (H / 2)) as [Hbad|_]; [lia|]. subst deint.
  unfold decoded_pixels. rewrite H1, H2, S1, S2, Hu. fold H. rewrite Hz.
  destruct (store_rows_spec pix1 (W * 3) H (Z.to_nat (H / 2)) 0 0
              (replicate (Z.to_nat (H * W * 3)) x00))
    as (b1 & E1 & L1 & Hset1 & Hkeep1); [lia|lia|lia| |].
  { unfold buflen. rewrite length_replicate. nia. }
  change (0 * (W * 3)) with 0 in E1. rewrite E1.
  rewrite Z.geb_leb.
  destruct (Z.leb_spec H (H / 2)) as [Hbad|_]; [lia|].
  rewrite Z2Nat.id by lia. rewrite Z.add_0_l.
  destruct (store_rows_spec pix2 (W * 3) H (Z.to_nat (H / 2)) 0 (H / 2) b1)
    as (b2 & E2 & L2 & Hset2 & Hkeep2); [lia|lia|lia|done|].
  rewrite E2. simpl (1 =? 0).
  assert (b2 = split) as ->.
  { apply (row_ext b2 split (W * 3) H); [lia|lia|done|done|].
    intros r Hr. destruct (decide (r < H / 2)) as [Hlo|Hhi].
    - rewrite Hkeep2 by lia.
      specialize (Hset1 r ltac:(lia)). rewrite !Z.add_0_l in Hset1.
      rewrite Hset1. apply P1. lia.
    - specialize (Hset2 (r - H / 2) ltac:(lia)).
      replace (H / 2 + (r - H / 2)) with r in Hset2 by lia.
      rewrite Hset2, Z.add_0_l.
      rewrite P2 by lia. f_equal. lia. }
  destruct (interlace_of_deinterlaced odd X fresh
              (replicate (Z.to_nat (H * W * 3)) x00) split W H)
    as (back & Ei & Lback & Hrows);
    [done|done|unfold INT_MAX; lia|done|done|done|done| |done|].
  { unfold buflen. rewrite length_replicate. nia. }
  rewrite Ei. eexists _, back. split; [reflexivity|]. simpl.
  split; [done|]. split; [done|]. split; [done|].
  intros ->. apply (row_ext back X (W * 3) H); [lia|lia|lia|lia|].
  intros r Hr. apply (Hrows r Hr).
Qed.

Lemma decode_restores_field_order_witness :
  ∃ d,
    avi_converter_from_mjpeg true true
      (idle_decoder 1 3 2) (idle_decoder 1 3 2)
      (λ y k, default x00
                ([x01; x02; x03; x07; x08; x09; x04; x05; x06; x0a; x0b; x0c]
                   !! Z.to_nat (y * 3 + k)))
      (λ y k, default x00
                ([x01; x02; x03; x07; x08; x09; x04; x05; x06; x0a; x0b; x0c]
                   !! Z.to_nat ((2 + y) * 3 + k)))
      {| Movie.Width := 1; Movie.Height := 4; Movie.Quality := 9050;
         Movie.interlace := 1; Movie.odd_fields := 1 |} 100 blank
    = Some d
    ∧ frame d
      = Some [x01; x02; x03; x04; x05; x06; x07; x08; x09; x0a; x0b; x0c].
Proof.
  destruct (decode_restores_field_order 1
              [x01; x02; x03; x04; x05; x06; x07; x08; x09; x0a; x0b; x0c]
              (replicate 12 x00)
              [x01; x02; x03; x07; x08; x09; x04; x05; x06; x0a; x0b; x0c]
              (idle_decoder 1 3 2) (idle_decoder 1 3 2)
              (λ y k, default x00
                ([x01; x02; x03; x07; x08; x09; x04; x05; x06; x0a; x0b; x0c]
                   !! Z.to_nat (y * 3 + k)))
              (λ y k, default x00
                ([x01; x02; x03; x07; x08; x09; x04; x05; x06; x0a; x0b; x0c]
                   !! Z.to_nat ((2 + y) * 3 + k)))
              {| Movie.Width := 1; Movie.Height := 4; Movie.Quality := 9050;
                 Movie.interlace := 1; Movie.odd_fields := 1 |} 100 blank)
    as (d & out & E & F & _ & _ & Heq);
    [simpl; lia | unfold INT_MAX; simpl; lia | unfold INT_MAX; simpl; lia
    | reflexivity | right; reflexivity | reflexivity | reflexivity
    | reflexivity | reflexivity | reflexivity | reflexivity | reflexivity
    | reflexivity | reflexivity | | |].
  - intros y Hy. change (0 <= y < 2) in Hy.
    assert (y = 0 ∨ y = 1) as [-> | ->] by lia; reflexivity.
  - intros y Hy. change (0 <= y < 2) in Hy.
    assert (y = 0 ∨ y = 1) as [-> | ->] by lia; reflexivity.
  - exists d. split; [exact E|]. rewrite F. f_equal. apply Heq. reflexivity.
Defined.

(** ** Huffman-table bootstrap *)

(** A copy to the start of an array from the start of another. *)
Lemma memcpy_prefix (to from : buffer) n :
  0 <= n → n <= buflen to → n <= buflen from →
  memcpy to 0 from 0 n
  = Some (take (Z.to_nat n) from ++ drop (Z.to_nat n) to).
Proof.
  intros H0 Ht Hf. unfold memcpy.
  rewrite (proj2 (Z.leb_le 0 0)) by lia.
  rewrite (proj2 (Z.leb_le 0 n)) by lia.
  rewrite (proj2 (Z.leb_le (0 + n) (buflen to))) by lia.
  rewrite (proj2 (Z.leb_le (0 + n) (buflen from))) by lia.
  reflexivity.
Qed.

Lemma length_prefix_copy (to from : buffer) (n : nat) :
  (n ≤ length to)%nat → (n ≤ length from)%nat →
  length (take n from ++ drop n to) = length to.
Proof.
  intros Ht Hf. rewrite length_app, length_take, length_drop. lia.
Qed.

Lemma jpeg_alloc_huff_table_well_sized garbage :
  Huffman.well_sized (Huffman.jpeg_alloc_huff_table garbage).
Proof.
  unfold Huffman.well_sized, Huffman.jpeg_alloc_huff_table.
  cbn [Huffman.bits Huffman.huffval].
  rewrite !length_map, !length_seqZ. done.
Qed.

Lemma add_huff_table_spec min_zz garbage htblptr (bits : buffer) bits_size
    (val : buffer) val_size :
  (∀ a b, min_zz a b = Z.min a b) →
  from_option Huffman.well_sized True htblptr →
  0 <= bits_size <= buflen bits → 0 <= val_size <= buflen val →
  let old := default (Huffman.jpeg_alloc_huff_table garbage) htblptr in
  ∃ t,
    Huffman.add_huff_table min_zz garbage htblptr bits bits_size val val_size
    = Some t
    ∧ Huffman.well_sized t
    ∧ Huffman.sent_table t = false
    ∧ Huffman.bits t
      = take (Z.to_nat (Z.min 17 bits_size)) bits
        ++ drop (Z.to_nat (Z.min 17 bits_size)) (Huffman.bits old)
    ∧ Huffman.huffval t
      = take (Z.to_nat (Z.min 256 val_size)) val
        ++ drop (Z.to_nat (Z.min 256 val_size)) (Huffman.huffval old).
Proof.
  intros Hmin Hold Hb Hv old.
  assert (Huffman.well_sized old) as [Lb Lv].
  { subst old. destruct htblptr as [t|]; simpl in *; [done|].
    apply jpeg_alloc_huff_table_well_sized. }
  unfold Huffman.add_huff_table.
  replace (match htblptr with
           | Some t => t
           | None => Huffman.jpeg_alloc_huff_table garbage
           end) with old by (subst old; destruct htblptr; reflexivity).
  cbn zeta. rewrite !Hmin.
  rewrite memcpy_prefix by (unfold buflen in *; lia).
  rewrite memcpy_prefix by (unfold buflen in *; lia).
  eexists. split; [reflexivity|]. simpl.
  split; [|done].
  unfold Huffman.well_sized. simpl. unfold buflen in *.
  rewrite !length_prefix_copy by lia. done.
Qed.

(** X19 ([add_huff_table]).  Whatever sizes are passed, [add_huff_table]
    stays within the 17 and 256 bytes of the table: it succeeds, the table
    keeps its sizes, [sent_table] is false, the entries below the size
    passed are those of the arrays passed and the others are what the
    table held before (an allocation's contents for a new table). *)
Theorem add_huff_table_stays_in_table min_zz garbage htblptr (bits : buffer)
    bits_size (val : buffer) val_size :
  (∀ a b, min_zz a b = Z.min a b) →
  from_option Huffman.well_sized True htblptr →
  0 <= bits_size <= buflen bits → 0 <= val_size <= buflen val →
  let old := default (Huffman.jpeg_alloc_huff_table garbage) htblptr in
  ∃ t,
    Huffman.add_huff_table min_zz garbage htblptr bits bits_size val val_size
    = Some t
    ∧ Huffman.well_sized t
    ∧ Huffman.sent_table t = false
    ∧ (∀ k, (k < 17)%nat →
         Huffman.bits t !! k
         = if decide (Z.of_nat k < bits_size) then bits !! k
           else Huffman.bits old !! k)
    ∧ (∀ k, (k < 256)%nat →
         Huffman.huffval t !! k
         = if decide (Z.of_nat k < val_size) then val !! k
           else Huffman.huffval old !! k).
Proof.
  intros Hmin Hold Hb Hv old.
  destruct (add_huff_table_spec min_zz garbage htblptr bits bits_size val
              val_size Hmin Hold Hb Hv)
    as (t & E & Hws & Hsent & Ebits & Eval).
  fold old in Ebits, Eval.
  exists t. split; [done|]. split; [done|]. split; [done|].
  unfold buflen in *. split.
  - intros k Hk. rewrite Ebits. case_decide.
    + rewrite lookup_app_l by (rewrite length_take; lia).
      apply lookup_take_lt. lia.
    + rewrite lookup_app_r by (rewrite length_take; lia).
      rewrite length_take, lookup_drop. f_equal. lia.
  - intros k Hk. rewrite Eval. case_decide.
    + rewrite lookup_app_l by (rewrite length_take; lia).
      apply lookup_take_lt. lia.
    + rewrite lookup_app_r by (rewrite length_take; lia).
      rewrite length_take, lookup_drop. f_equal. lia.
Qed.

Lemma add_huff_table_stays_in_table_witness :
  ∃ t,
    Huffman.add_huff_table Z.min (λ _, x00) None
      (replicate 20 x01) 20 (replicate 300 x02) 300 = Some t
    ∧ Huffman.well_sized t
    ∧ Huffman.sent_table t = false.
Proof.
  destruct (add_huff_table_stays_in_table Z.min (λ _, x00) None
              (replicate 20 x01) 20 (replicate 300 x02) 300)
    as (t & E & Hws & Hsent & _);
    [reflexivity | exact I | vm_compute; split; discriminate
    | vm_compute; split; discriminate |].
  exists t. split; [exact E|]. split; [exact Hws | exact Hsent].
Defined.

Lemma add_huff_table_installs min_zz garbage htblptr (bits val : buffer) :
  (∀ a b, min_zz a b = Z.min a b) →
  from_option Huffman.well_sized True htblptr →
  length bits = 17%nat → (length val ≤ 256)%nat →
  ∃ t,
    Huffman.add_huff_table min_zz garbage htblptr bits (buflen bits) val
      (buflen val) = Some t
    ∧ Huffman.installed t bits val.
Proof.
  intros Hmin Hold Lb Lv.
  destruct (add_huff_table_spec min_zz garbage htblptr bits (buflen bits) val
              (buflen val) Hmin Hold)
    as (t & E & Hws & Hsent & Ebits & Eval); [unfold buflen; lia..|].
  exists t. split; [done|]. unfold Huffman.installed.
  split; [done|]. unfold buflen in *.
  assert (Huffman.well_sized
            (default (Huffman.jpeg_alloc_huff_table garbage) htblptr))
    as [Lob Lov].
  { destruct htblptr as [t0|]; simpl in *; [done|].
    apply jpeg_alloc_huff_table_well_sized. }
  split; [|split; [|done]].
  - rewrite Ebits. rewrite Lb.
    rewrite take_ge by (rewrite Lb; lia).
    rewrite drop_ge by (rewrite Lob; lia). apply app_nil_r.
  - rewrite Eval.
    replace (Z.to_nat (Z.min 256 (Z.of_nat (length val)))) with (length val)
      by lia.
    rewrite firstn_all. apply take_app_length.
Qed.

(** X20 ([std_huff_tables], [add_huff_table]).  [std_huff_tables]
    leaves all four tables present, whichever were there before, each
    holding the standard counts and values and marked as not sent; in each
    table the counts add up to the number of values copied (12 for DC, 162
    for AC), so the part of the value array left as it was is not
    announced by the counts. *)
Theorem std_huff_tables_installs_standard_tables min_zz garbage dinfo :
  (∀ a b, min_zz a b = Z.min a b) →
  from_option Huffman.well_sized True (Huffman.dc_huff_tbl_ptrs_0 dinfo) →
  from_option Huffman.well_sized True (Huffman.ac_huff_tbl_ptrs_0 dinfo) →
  from_option Huffman.well_sized True (Huffman.dc_huff_tbl_ptrs_1 dinfo) →
  from_option Huffman.well_sized True (Huffman.ac_huff_tbl_ptrs_1 dinfo) →
  ∃ dc0 ac0 dc1 ac1,
    Huffman.std_huff_tables min_zz garbage dinfo
    = Some {| Huffman.dc_huff_tbl_ptrs_0 := Some dc0;
              Huffman.dc_huff_tbl_ptrs_1 := Some dc1;
              Huffman.ac_huff_tbl_ptrs_0 := Some ac0;
              Huffman.ac_huff_tbl_ptrs_1 := Some ac1 |}
    ∧ Huffman.installed dc0 Huffman.bits_dc_luminance Huffman.val_dc_luminance
    ∧ Huffman.installed ac0 Huffman.bits_ac_luminance Huffman.val_ac_luminance
    ∧ Huffman.installed dc1 Huffman.bits_dc_chrominance
                        Huffman.val_dc_chrominance
    ∧ Huffman.installed ac1 Huffman.bits_ac_chrominance
                        Huffman.val_ac_chrominance
    ∧ Huffman.code_count (Huffman.bits dc0) = buflen Huffman.val_dc_luminance
    ∧ Huffman.code_count (Huffman.bits ac0) = buflen Huffman.val_ac_luminance
    ∧ Huffman.code_count (Huffman.bits dc1)
      = buflen Huffman.val_dc_chrominance
    ∧ Huffman.code_count (Huffman.bits ac1)
      = buflen Huffman.val_ac_chrominance.
Proof.
  intros Hmin H1 H2 H3 H4. unfold Huffman.std_huff_tables.
  destruct (add_huff_table_installs min_zz (garbage 0)
              (Huffman.dc_huff_tbl_ptrs_0 dinfo)
              Huffman.bits_dc_luminance Huffman.val_dc_luminance)
    as (dc0 & -> & I1); [done|done|reflexivity|vm_compute; lia|].
  destruct (add_huff_table_installs min_zz (garbage 1)
              (Huffman.ac_huff_tbl_ptrs_0 dinfo)
              Huffman.bits_ac_luminance Huffman.val_ac_luminance)
    as (ac0 & -> & I2); [done|done|reflexivity|vm_compute; lia|].
  destruct (add_huff_table_installs min_zz (garbage 2)
              (Huffman.dc_huff_tbl_ptrs_1 dinfo)
              Huffman.bits_dc_chrominance Huffman.val_dc_chrominance)
    as (dc1 & -> & I3); [done|done|reflexivity|vm_compute; lia|].
  destruct (add_huff_table_installs min_zz (garbage 3)
              (Huffman.ac_huff_tbl_ptrs_1 dinfo)
              Huffman.bits_ac_chrominance Huffman.val_ac_chrominance)
    as (ac1 & -> & I4); [done|done|reflexivity|vm_compute; lia|].
  exists dc0, ac0, dc1, ac1. split; [reflexivity|].
  pose proof I1 as (_ & B1 & _). pose proof I2 as (_ & B2 & _).
  pose proof I3 as (_ & B3 & _). pose proof I4 as (_ & B4 & _).
  rewrite B1, B2, B3, B4.
  split; [done|]. split; [done|]. split; [done|]. split; [done|].
  split; [|split; [|split]]; vm_compute; reflexivity.
Qed.

Lemma std_huff_tables_installs_standard_tables_witness :
  ∃ dc0 ac0 dc1 ac1,
    Huffman.std_huff_tables Z.min (λ _ _, xff)
      {| Huffman.dc_huff_tbl_ptrs_0 := None;
         Huffman.dc_huff_tbl_ptrs_1 := None;
         Huffman.ac_huff_tbl_ptrs_0 := None;
         Huffman.ac_huff_tbl_ptrs_1 := None |}
    = Some {| Huffman.dc_huff_tbl_ptrs_0 := Some dc0;
              Huffman.dc_huff_tbl_ptrs_1 := Some dc1;
              Huffman.ac_huff_tbl_ptrs_0 := Some ac0;
              Huffman.ac_huff_tbl_ptrs_1 := Some ac1 |}
    ∧ Huffman.code_count (Huffman.bits ac1) = 162.
Proof.
  destruct (std_huff_tables_installs_standard_tables Z.min (λ _ _, xff)
              {| Huffman.dc_huff_tbl_ptrs_0 := None;
                 Huffman.dc_huff_tbl_ptrs_1 := None;
                 Huffman.ac_huff_tbl_ptrs_0 := None;
                 Huffman.ac_huff_tbl_ptrs_1 := None |})
    as (dc0 & ac0 & dc1 & ac1 & E & _ & _ & _ & _ & _ & _ & _ & C4);
    [reflexivity | exact I | exact I | exact I | exact I |].
  exists dc0, ac0, dc1, ac1. split; [exact E | exact C4].
Defined.
